(** * Entity-graph migration engine of imodel-transformer: a shallow embedding

    Sources embedded here:
    - [packages/transformer/src/JsPolymorphicInserter.ts].  The file holds two
      revisions of the raw polymorphic insert transform.  The first one
      (lines 1-766) allocates identifiers up front into run-compressed remap
      tables and is written to bulk-insert per class after that (its call of
      [bulkInsertTransform] throws); it is embedded in [Module RunCompressed].
      The second one (lines 767-1350) migrates elements row by row from their
      JSON form in two passes (populate, then hydrate); it is embedded in
      [Module JsonTwoPhase].
    - the clone context ([IModelElementCloneContext]), embedded in
      [Module CloneContext].

    Identifiers are modelled as [Z].  The store keeps them as 64-bit
    integers; where the first revision turns one into a JavaScript number to
    count or to compare (the counters [_next...Id++], the rows of the
    multiwalk, [parseInt] of the element pass), the rounding to a double is
    written out with [Js.toNumber], which is exact up to 2^53.  SQL [NULL] and
    JavaScript [undefined] are [None]. *)

From stdpp Require Import base numbers list strings pretty gmap sorting.
From Stdlib Require Import ZArith Lia String Ascii HexadecimalString.
From Stdlib Require HexadecimalPos HexadecimalZ.

Local Open Scope Z_scope.

(* ===================================================================== *)
(** ** JavaScript primitives used by the source *)
(* ===================================================================== *)

Module Js.

(** White space skipped by [parseInt] (the ASCII part of it). *)
Definition isWhiteSpace (c : ascii) : bool :=
  let n := N_of_ascii c in
  (((9 <=? n) && (n <=? 13)) || (n =? 32))%N.

Fixpoint trimStart (s : string) : string :=
  match s with
  | String c s' => if isWhiteSpace c then trimStart s' else s
  | EmptyString => s
  end.

Definition hexDigitValue (c : ascii) : option Z :=
  let n := Z.of_N (N_of_ascii c) in
  if (48 <=? n) && (n <=? 57) then Some (n - 48)
  else if (97 <=? n) && (n <=? 102) then Some (n - 87)
  else if (65 <=? n) && (n <=? 70) then Some (n - 55)
  else None.

(** The longest prefix of hexadecimal digits, read as a number; [acc] is
    [None] as long as no digit was read. *)
Fixpoint parseDigits (s : string) (acc : option Z) : option Z :=
  match s with
  | String c s' =>
      match hexDigitValue c with
      | Some d => parseDigits s' (Some (16 * default 0 acc + d))
      | None => acc
      end
  | EmptyString => acc
  end.

Definition stripSign (s : string) : Z * string :=
  match s with
  | String "-" s' => (-1, s')
  | String "+" s' => (1, s')
  | _ => (1, s)
  end.

Definition stripPrefix (s : string) : string :=
  match s with
  | String "0" (String "x" s') => s'
  | String "0" (String "X" s') => s'
  | _ => s
  end.

(** [parseInt(s, 16)]; [None] is [NaN]. *)
Definition parseInt16 (s : string) : option Z :=
  let '(sign, s1) := stripSign (trimStart s) in
  match parseDigits (stripPrefix s1) None with
  | Some m => Some (sign * m)
  | None => None
  end.

(** The JavaScript number that a 64-bit integer of the store becomes when
    the source reads it as a number ([reader.current[0] as number], the
    result of [parseInt] on its hexadecimal text): the nearest double, a tie
    going to the even mantissa.  Integers up to [2^53] in absolute value are
    exact. *)
Definition toNumber (n : Z) : Z :=
  let a := Z.abs n in
  if a <? 2 ^ 53 then n
  else
    let ulp := 2 ^ (Z.log2 a - 52) in
    let q := a / ulp in
    let r := a mod ulp in
    Z.sgn n * ((if 2 * r <? ulp then q
                else if ulp <? 2 * r then q + 1
                else if Z.even q then q else q + 1) * ulp).

(** [n + 1] on numbers, as [_next++] stores it: the sum is rounded, so from
    [2^53] on the counter need not advance. *)
Definition increment (n : Z) : Z := toNumber (n + 1).

(** [n.toString(16)] for an integral number. *)
Definition toString16 (n : Z) : string :=
  NilZero.string_of_int (Z.to_hex_int n).

(** [s.split(sep)] for a one-character separator. *)
Fixpoint split (sep : ascii) (s : string) : list string :=
  match s with
  | EmptyString => [EmptyString]
  | String c rest =>
      if Ascii.eqb c sep then EmptyString :: split sep rest
      else match split sep rest with
           | part :: parts => String c part :: parts
           | [] => [String c EmptyString]
           end
  end.

End Js.

(* ===================================================================== *)
(** ** CompactRemapTable *)
(* ===================================================================== *)

(** Modelled from the spec: the class [CompactRemapTable]
    ([./CompactRemapTable], imported by JsPolymorphicInserter.ts) is not among
    the sources.  The spec describes it as a list of runs
    (sourceStart, targetStart, length), kept sorted by sourceStart with
    disjoint source ranges; [remap] "inserts or overwrites the mapping for
    exactly one identifier, extending an existing run if sourceId is
    contiguous with a run's end and the implied offset matches, otherwise
    inserting a new single-length run in sorted position ... followed by a
    coalescing check with neighbors"; [get] "returns the mapped target
    identifier via ... search over run start, returning unmapped when none
    covers it"; [runs] yields the (from, to, length) triples in ascending
    source order.  The search is written as a scan of the sorted list. *)
Module CompactRemapTable.

Record Run : Type := mkRun { from : Z; to : Z; length : Z }.

(** The table is its list of runs, ascending by [from]. *)
Definition t : Type := list Run.

Definition empty : t := [].

Definition runs (T : t) : list Run := T.

(** Does the run hold [sourceId]? *)
Definition covers (r : Run) (sourceId : Z) : bool :=
  (from r <=? sourceId) && (sourceId <? from r + length r).

Definition image (r : Run) (sourceId : Z) : Z := to r + (sourceId - from r).

Fixpoint get (T : t) (sourceId : Z) : option Z :=
  match T with
  | [] => None
  | r :: rest =>
      if sourceId <? from r then None
      else if sourceId <? from r + length r then Some (image r sourceId)
      else get rest sourceId
  end.

(** [b] continues [a]: it starts where [a] ends and has the same offset. *)
Definition continues (a b : Run) : bool :=
  (from b =? from a + length a) && (to b =? to a + length a).

(** Put [a] in front of [T], coalescing it with its right neighbour. *)
Definition coalesce (a : Run) (T : t) : t :=
  match T with
  | b :: rest =>
      if continues a b then mkRun (from a) (to a) (length a + length b) :: rest
      else a :: T
  | [] => [a]
  end.

(** As [coalesce], for a piece that may be empty. *)
Definition cons_run (a : Run) (T : t) : t :=
  if length a <=? 0 then T else coalesce a T.

(** The pieces of [r] around [sourceId], with [sourceId] itself remapped. *)
Definition overwrite (r : Run) (sourceId targetId : Z) (rest : t) : t :=
  cons_run (mkRun (from r) (to r) (sourceId - from r))
    (cons_run (mkRun sourceId targetId 1)
       (cons_run (mkRun (sourceId + 1) (image r (sourceId + 1))
                    (from r + length r - (sourceId + 1)))
          rest)).

Fixpoint remap (sourceId targetId : Z) (T : t) : t :=
  match T with
  | [] => [mkRun sourceId targetId 1]
  | r :: rest =>
      if sourceId <? from r then coalesce (mkRun sourceId targetId 1) T
      else if sourceId <? from r + length r then overwrite r sourceId targetId rest
      else coalesce r (remap sourceId targetId rest)
  end.

(** The data-model invariant of the spec: runs have a positive length, are
    ascending and their source ranges are disjoint ([lo] bounds them below). *)
Fixpoint wf_from (lo : Z) (T : t) : Prop :=
  match T with
  | [] => True
  | r :: rest => lo <= from r /\ 0 < length r /\ wf_from (from r + length r) rest
  end.

Definition wf (T : t) : Prop := exists lo, wf_from lo T.

End CompactRemapTable.

(* ===================================================================== *)
(** ** Results of effectful steps *)
(* ===================================================================== *)

(** What a step throws.  [AssertionError] is raised by a failed [assert];
    [StoreError] stands for an exception of the store (a statement that
    cannot be prepared or stepped); [ReferenceError] is raised when a name is
    evaluated that no declaration in scope binds. *)
Inductive Error : Type :=
| AssertionError (message : string)
| StoreError (message : string)
| ReferenceError (message : string).

Definition message (e : Error) : string :=
  match e with AssertionError m | StoreError m | ReferenceError m => m end.

Inductive Result (A : Type) : Type :=
| Ok (a : A)
| Throw (e : Error).
Arguments Ok {A} a.
Arguments Throw {A} e.

(** A step over a mutable world [W]: the world it leaves, and its result. *)
Definition M (W A : Type) : Type := W -> W * Result A.

Definition ret {W A} (a : A) : M W A := fun w => (w, Ok a).

Definition throw {W A} (e : Error) : M W A := fun w => (w, Throw e).

Definition bind {W A B} (m : M W A) (k : A -> M W B) : M W B :=
  fun w =>
    match m w with
    | (w', Ok a) => k a w'
    | (w', Throw e) => (w', Throw e)
    end.

Definition modify {W} (f : W -> W) : M W unit := fun w => (f w, Ok tt).

Definition gets {W A} (f : W -> A) : M W A := fun w => (w, Ok (f w)).

(** [assert(cond, message)] *)
Definition assert {W} (cond : bool) (msg : string) : M W unit :=
  if cond then ret tt else throw (AssertionError msg).

Notation "'let!' x ':=' c1 'in' c2" := (bind c1 (fun x => c2))
  (at level 10, x pattern, c1 at level 100, c2 at level 200).
Notation "c1 ;; c2" := (bind c1 (fun _ => c2))
  (at level 100, c2 at level 200, right associativity).

(** [for (const x of xs) body(x)] *)
Fixpoint for_each {W A} (xs : list A) (body : A -> M W unit) : M W unit :=
  match xs with
  | [] => ret tt
  | x :: rest => body x ;; for_each rest body
  end.

(* ===================================================================== *)
(** ** The fragment of SQL the synthesized statements use *)
(* ===================================================================== *)

Module Sql.

(** An integer value; [None] is [NULL]. *)
Definition value : Type := option Z.

Inductive expr : Type :=
| Lit (v : value)              (* a literal or a bound parameter *)
| Outer (j : nat)              (* [_j], a column of the enclosing row *)
| Col (name : string)          (* a column of the scanned table *)
| Add (a b : expr)
| Sub (a b : expr)
| Between (e lo hi : expr).

(** A row of a [temp.<type>_remap] table of the run-compressed revision:
    [SourceId INTEGER NOT NULL PRIMARY KEY, TargetId INTEGER NOT NULL,
     Length INTEGER NOT NULL]. *)
Record remap_row : Type := mkRow { SourceId : Z; TargetId : Z; Length : Z }.

Definition column (row : remap_row) (name : string) : value :=
  if String.eqb name "SourceId" then Some (SourceId row)
  else if String.eqb name "TargetId" then Some (TargetId row)
  else if String.eqb name "Length" then Some (Length row)
  else None.

Definition arith (op : Z -> Z -> Z) (a b : value) : value :=
  match a, b with
  | Some x, Some y => Some (op x y)
  | _, _ => None
  end.

Definition of_bool (b : bool) : Z := if b then 1 else 0.

(** Three-valued [AND]. *)
Definition and3 (a b : value) : value :=
  match a, b with
  | Some x, Some y => Some (of_bool (negb (x =? 0) && negb (y =? 0)))
  | Some x, None => if x =? 0 then Some 0 else None
  | None, Some y => if y =? 0 then Some 0 else None
  | None, None => None
  end.

Fixpoint eval (outer : nat -> value) (row : remap_row) (e : expr) : value :=
  match e with
  | Lit v => v
  | Outer j => outer j
  | Col name => column row name
  | Add a b => arith Z.add (eval outer row a) (eval outer row b)
  | Sub a b => arith Z.sub (eval outer row a) (eval outer row b)
  | Between x lo hi =>
      (* x BETWEEN lo AND hi  is  x >= lo AND x <= hi *)
      and3 (arith (fun a b => of_bool (b <=? a)) (eval outer row x) (eval outer row lo))
           (arith (fun a b => of_bool (a <=? b)) (eval outer row x) (eval outer row hi))
  end.

(** A [WHERE] clause keeps a row when its value is neither 0 nor [NULL]. *)
Definition truthy (v : value) : bool :=
  match v with
  | Some z => negb (z =? 0)
  | None => false
  end.

(** [(SELECT result FROM temp.from_table WHERE where_)] used as a value. *)
Record scalar_select : Type :=
  mkScalar { result : expr; from_table : string; where_ : expr }.

(** The temp schema of a connection: its tables by name, each in key order. *)
Abbreviation temp_schema := (gmap string (list remap_row)).

(** A scalar subquery yields its first row, or [NULL] when it has none. *)
Definition eval_scalar (temp : temp_schema) (outer : nat -> value)
    (q : scalar_select) : value :=
  match List.find (fun row => truthy (eval outer row (where_ q)))
          (default [] (temp !! from_table q)) with
  | Some row => eval outer row (result q)
  | None => None
  end.

(** [INSERT INTO t VALUES (?,?,?)] into a table whose [SourceId] is the
    integer primary key: rows are kept in key order and a second row with
    the same key is refused ([None]). *)
Fixpoint insert_row (row : remap_row) (rows : list remap_row) : option (list remap_row) :=
  match rows with
  | [] => Some [row]
  | r :: rest =>
      if SourceId row <? SourceId r then Some (row :: rows)
      else if SourceId row =? SourceId r then None
      else cons r <$> insert_row row rest
  end.

End Sql.

(* ===================================================================== *)
(** ** Schema metadata (the part of @itwin/ecschema-metadata the source reads) *)
(* ===================================================================== *)

Module PropertyType.
Inductive t : Type :=
| Struct | Struct_Array | Navigation
| Binary | Binary_Array | Boolean | Boolean_Array
| DateTime | DateTime_Array | Double | Double_Array
| Integer | Integer_Array | Integer_Enumeration | Integer_Enumeration_Array
| Long | Long_Array | Point2d | Point2d_Array | Point3d | Point3d_Array
| String_ | String_Array | String_Enumeration | String_Enumeration_Array
| IGeometry | IGeometry_Array.

#[global] Instance eq_dec : EqDecision t.
Proof. solve_decision. Defined.
End PropertyType.

Module SchemaItemType.
Inductive t : Type :=
| EntityClass | Mixin | StructClass | CustomAttributeClass | RelationshipClass.

#[global] Instance eq_dec : EqDecision t.
Proof. solve_decision. Defined.
End SchemaItemType.

Module ECClassModifier.
Inductive t : Type := None_ | Abstract | Sealed.

#[global] Instance eq_dec : EqDecision t.
Proof. solve_decision. Defined.
End ECClassModifier.

(** The three reserved bootstrap elements (root, dictionary, well-known):
    the literal [(0x1, 0xe, 0x10)] of the source. *)
Definition bootstrap_ids : list Z := [0x1; 0xe; 0x10].

(** [ECInstanceId NOT IN (0x1, 0xe, 0x10)] *)
Definition not_bootstrap (id : Z) : bool := negb (bool_decide (id ∈ bootstrap_ids)).

Module RemapType.
(** ["font" | "codespec" | "nonElemEntity" | "element"] *)
Inductive t : Type := font | codespec | nonElemEntity | element.

#[global] Instance eq_dec : EqDecision t.
Proof. solve_decision. Defined.

Definition name (ty : t) : string :=
  match ty with
  | font => "font"
  | codespec => "codespec"
  | nonElemEntity => "nonElemEntity"
  | element => "element"
  end.

(** [["element", "codespec", "nonElemEntity", "font"]] *)
Definition all : list t := [element; codespec; nonElemEntity; font].
End RemapType.

Module RootType.
(** ["element" | "aspect" | "codespec" | "relationship"] *)
Inductive t : Type := element | aspect | codespec | relationship.

#[global] Instance eq_dec : EqDecision t.
Proof. solve_decision. Defined.
End RootType.

(* ===================================================================== *)
(** ** The contents of an iModel file that the transform reads and writes *)
(* ===================================================================== *)

(** A row of an entity table: its identifier and the full name of its class. *)
Record Instance : Type := mkInstance { ECInstanceId : Z; ECClassName : string }.

(** A row of [bis_CodeSpec]. *)
Record CodeSpecRow : Type := mkCodeSpec { Id : Z; Name : string; JsonProperties : string }.

(** A row of [sqlite_master] with [type='trigger'].  Its [sql] column is
    the [CREATE TRIGGER] statement that defines it; the statement is kept
    parsed, as the name it creates and the rest of its text, and stepping it
    creates that trigger again. *)
Record Trigger : Type := mkTrigger { trigger_name : string; trigger_sql : string }.

Record IModel : Type := mkIModel {
  bis_Element : list Instance;
  bis_ElementMultiAspect : list Instance;
  bis_ElementUniqueAspect : list Instance;
  bis_ElementRefersToElements : list Instance;
  bis_CodeSpec : list CodeSpecRow;
  (** [be_Local]: [Name] to [Val] *)
  be_Local : gmap string Z;
  sqlite_master : list Trigger;
}.

(** [DROP TRIGGER name]: an error when there is no such trigger. *)
Definition drop_trigger (name : string) (db : IModel) : option IModel :=
  if existsb (fun t => String.eqb (trigger_name t) name) (sqlite_master db)
  then Some (mkIModel (bis_Element db) (bis_ElementMultiAspect db)
               (bis_ElementUniqueAspect db) (bis_ElementRefersToElements db)
               (bis_CodeSpec db) (be_Local db)
               (List.filter (fun t => negb (String.eqb (trigger_name t) name)) (sqlite_master db)))
  else None.

(** Stepping a [CREATE TRIGGER] statement: an error when a trigger of that
    name exists. *)
Definition create_trigger (sql : Trigger) (db : IModel) : option IModel :=
  if existsb (fun t => String.eqb (trigger_name t) (trigger_name sql)) (sqlite_master db)
  then None
  else Some (mkIModel (bis_Element db) (bis_ElementMultiAspect db)
               (bis_ElementUniqueAspect db) (bis_ElementRefersToElements db)
               (bis_CodeSpec db) (be_Local db)
               (sqlite_master db ++ [sql])).

(** Rows of exactly one class: [FROM ONLY [schema].[class]]. *)
Definition from_only (classFullName : string) (db : IModel) : list Z :=
  ECInstanceId <$>
    List.filter (fun i => String.eqb (ECClassName i) classFullName)
      (bis_Element db ++ bis_ElementMultiAspect db ++ bis_ElementUniqueAspect db
         ++ bis_ElementRefersToElements db).

(** A JavaScript [Map] with string keys, in insertion order: [set] replaces
    the value of a key that is present and appends a new key. *)
Fixpoint map_set {V} (k : string) (v : V) (m : list (string * V)) : list (string * V) :=
  match m with
  | [] => [(k, v)]
  | (k', v') :: rest =>
      if String.eqb k' k then (k, v) :: rest else (k', v') :: map_set k v rest
  end.

(* ===================================================================== *)
(** ** The run-compressed revision (JsPolymorphicInserter.ts, lines 1-766) *)
(* ===================================================================== *)

Module RunCompressed.

(** [remapSql] (lines 38-42):
    [(SELECT TargetId + ((idExpr) - SourceId) FROM temp.<remapType>_remap
      WHERE idExpr BETWEEN SourceId AND SourceId + Length - 1)] *)
Definition remapSql (idExpr : Sql.expr) (remapType : RemapType.t) : Sql.scalar_select :=
  {| Sql.result := Sql.Add (Sql.Col "TargetId") (Sql.Sub idExpr (Sql.Col "SourceId"));
     Sql.from_table := RemapType.name remapType ++ "_remap";
     Sql.where_ :=
       Sql.Between idExpr (Sql.Col "SourceId")
         (Sql.Sub (Sql.Add (Sql.Col "SourceId") (Sql.Col "Length")) (Sql.Lit (Some 1))) |}.

Record PropInfo : Type := mkProp {
  name : string;
  propertyType : PropertyType.t;
  extendedTypeName : option string;
}.

Record ClassData : Type := mkClassData {
  schemaKey : string;
  properties : list PropInfo;
  rootType : RootType.t;
}.

(** A class of a schema, with what [getClassDatas] is written to read of
    it (lines 118-174). *)
Record ECClass : Type := mkECClass {
  className : string;
  fullName : string;
  schemaItemType : SchemaItemType.t;
  modifier : ECClassModifier.t;
  getProperties : list PropInfo;
  (** [ecclass.isSync(multiAspect) || ecclass.isSync(uniqueAspect)] *)
  isAspect : bool;
}.

Record Schema : Type := mkSchema {
  schemaName : string;
  version : string;
  getClasses : list ECClass;
}.

(** The select statement of a class (lines 266-285), by its parts. *)
Record SelectSql : Type := mkSelect {
  columns : list string;
  (** [FROM ONLY <class>] *)
  from_class : string;
  (** [WHERE ECInstanceId NOT IN (...)]; empty when there is no clause *)
  not_in : list Z;
}.

(** One expression of the remapping select (lines 292-334); [j] is the
    column [_j] of the class's select it reads. *)
Inductive RemappedExpr : Type :=
| Transformed (propertyName : string) (j : nat)
| Remapped (q : Sql.scalar_select)
| TargetClassId (j : nat)
| Copied (j : nat).

Inductive CachedClassStatements : Type :=
| NON_TRANSFORMABLE_CLASS
| Statements (select : SelectSql) (remap : list RemappedExpr).

(** The statements of the set-up (lines 509-542) and the one that undoes
    the last of them (lines 726-728).  The tables modelled here always serve
    them, but the store may still refuse one: a source connection that holds
    the temp table already, a file that cannot be attached, a locked or full
    disk. *)
Inductive Connection : Type := OnSource | OnTarget.

Inductive SetUpStatement : Type :=
| CreateTempTable (db : Connection) (ty : RemapType.t)
| AttachSource
| DeferForeignKeys (on : bool).

(** The mutable state of a run. *)
Record World : Type := mkWorld {
  (** the target file, open for writing *)
  writeableTarget : IModel;
  (** [PRAGMA defer_foreign_keys] *)
  defer_foreign_keys : bool;
  (** [remapTables[name]] *)
  remapTables : RemapType.t -> CompactRemapTable.t;
  (** the [temp.<name>_remap] tables (the source connection holds a copy) *)
  temp : Sql.temp_schema;
  (** [statementCache] (line 67), a [Map] of the module: schema key, then
      class name.  Only statements of [getClassDatas] and of
      [bulkInsertTransform] write it, and no run reaches them. *)
  statementCache : gmap string (gmap string CachedClassStatements);
  (** the error with which the store answers a statement of the set-up that
      it does not serve; [None] where it serves the statement *)
  refused : SetUpStatement -> option Error;
}.

Definition set_target (f : IModel -> IModel) (w : World) : World :=
  mkWorld (f (writeableTarget w)) (defer_foreign_keys w) (remapTables w) (temp w)
    (statementCache w) (refused w).

Definition set_defer_foreign_keys (b : bool) (w : World) : World :=
  mkWorld (writeableTarget w) b (remapTables w) (temp w) (statementCache w) (refused w).

Definition set_table (ty : RemapType.t) (T : CompactRemapTable.t) (w : World) : World :=
  mkWorld (writeableTarget w) (defer_foreign_keys w)
    (fun ty' => if decide (ty' = ty) then T else remapTables w ty')
    (temp w) (statementCache w) (refused w).

Definition set_temp (f : Sql.temp_schema -> Sql.temp_schema) (w : World) : World :=
  mkWorld (writeableTarget w) (defer_foreign_keys w) (remapTables w) (f (temp w))
    (statementCache w) (refused w).

Definition set_refused (f : SetUpStatement -> option Error) (w : World) : World :=
  mkWorld (writeableTarget w) (defer_foreign_keys w) (remapTables w) (temp w)
    (statementCache w) f.

(** What the run is given apart from the target file. *)
Record Env : Type := mkEnv {
  source : IModel;
  (** [fontRemaps], as the [importFont] hook filled it during [processFonts] *)
  fontRemaps : list (Z * Z);
  (** the schemas of the source, which [getClassDatas] is written to walk *)
  schemas : list Schema;
}.

(** A statement of the set-up is prepared and stepped:
    [db.withSqliteStatement(sql, (s) => assert(s.step() === DbResult.BE_SQLITE_DONE))]. *)
Definition step (statement : SetUpStatement) : M World unit :=
  fun w =>
    match refused w statement with
    | Some e => (w, Throw e)
    | None => (w, Ok tt)
    end.

(** [remapTables[name].remap(sourceId, targetId)] *)
Definition remap (ty : RemapType.t) (sourceId targetId : Z) : M World unit :=
  modify (fun w => set_table ty (CompactRemapTable.remap sourceId targetId (remapTables w ty)) w).

(** ** Allocation of new identifiers *)

(** A counter and the table it feeds: [useElemIdRaw], [useInstanceIdRaw] and
    [useCodeSpecIdRaw] are [() => _next++], on a number. *)
Record Alloc : Type := mkAlloc { next : Z; table : CompactRemapTable.t }.

(** [const targetId = use...IdRaw(); table.remap(sourceId, targetId)] *)
Definition remap_next (sourceId : Z) (a : Alloc) : Alloc :=
  {| next := Js.increment (next a);
     table := CompactRemapTable.remap sourceId (next a) (table a) |}.

(** [sourceElemRemapSelect] (lines 584-590): the elements but the bootstrap
    ones, ascending. *)
Definition sourceElemRemapSelect (src : IModel) : list Z :=
  merge_sort Z.le (List.filter not_bootstrap (ECInstanceId <$> bis_Element src)).

(** The identifiers in turn, each remapped to the next value of the
    counter. *)
Definition remap_elements (ids : list Z) (a : Alloc) : Alloc :=
  foldl (fun a sourceId => remap_next sourceId a) a ids.

(** The element pass (lines 593-598): the identifier comes as a string and
    [parseInt(sourceId, 16)], a number, is what is remapped. *)
Definition element_pass (src : IModel) (a : Alloc) : Alloc :=
  remap_elements (Js.toNumber <$> sourceElemRemapSelect src) a.

(** [multiAspectRemapSelect], [uniqueAspectRemapSelect], [relRemapSelect]
    (lines 603-620): each [ORDER BY ECInstanceId]. *)
Definition multiAspectRemapSelect (src : IModel) : list Z :=
  merge_sort Z.le (ECInstanceId <$> bis_ElementMultiAspect src).
Definition uniqueAspectRemapSelect (src : IModel) : list Z :=
  merge_sort Z.le (ECInstanceId <$> bis_ElementUniqueAspect src).
Definition relRemapSelect (src : IModel) : list Z :=
  merge_sort Z.le (ECInstanceId <$> bis_ElementRefersToElements src).

(** The rows of a reader as the walk has them: [reader.current[0] as number]. *)
Definition as_numbers (ids : list Z) : list Z := Js.toNumber <$> ids.

(** The head of a reader: [reader.done ? Number.POSITIVE_INFINITY : reader.current[0]].
    A reader is the list of its rows from the current one on. *)
Inductive Head : Type := Finite (id : Z) | POSITIVE_INFINITY.

Definition head_of (reader : list Z) : Head :=
  match reader with
  | id :: _ => Finite id
  | [] => POSITIVE_INFINITY
  end.

(** [===] on these numbers *)
Definition head_eqb (a b : Head) : bool :=
  match a, b with
  | Finite x, Finite y => x =? y
  | POSITIVE_INFINITY, POSITIVE_INFINITY => true
  | _, _ => false
  end.

Definition head_min (a b : Head) : Head :=
  match a, b with
  | Finite x, Finite y => Finite (Z.min x y)
  | Finite x, POSITIVE_INFINITY => Finite x
  | POSITIVE_INFINITY, _ => b
  end.

(** The pairwise check of lines 655-664: [false] when the assertion
    [id1 !== id2] fails for two heads that are not infinite. *)
Definition pair_ok (id1 id2 : Head) : bool :=
  match id1, id2 with
  | POSITIVE_INFINITY, _ | _, POSITIVE_INFINITY => true
  | Finite x, Finite y => negb (x =? y)
  end.

Fixpoint all_pairs_ok (ids : list Head) : bool :=
  match ids with
  | [] => true
  | id1 :: rest => forallb (pair_ok id1) rest && all_pairs_ok rest
  end.

(** The sorted multiwalk (lines 643-677).  Every turn consumes one row, so
    [fuel] bounds the turns; [None] is a walk cut short by [fuel]. *)
Fixpoint merge_loop (fuel : nat) (multiAspectReader uniqueAspectReader relReader : list Z)
    (a : Alloc) : option (Alloc * Result unit) :=
  match fuel with
  | O => None
  | S fuel =>
      let multiAspectId := head_of multiAspectReader in
      let uniqueAspectId := head_of uniqueAspectReader in
      let relId := head_of relReader in
      if head_eqb multiAspectId POSITIVE_INFINITY
         && head_eqb uniqueAspectId POSITIVE_INFINITY
         && head_eqb relId POSITIVE_INFINITY
      then Some (a, Ok tt)
      else if negb (all_pairs_ok [uniqueAspectId; relId; multiAspectId])
      then Some (a, Throw (AssertionError "id1 !== id2"))
      else
        let min := head_min (head_min multiAspectId uniqueAspectId) relId in
        if head_eqb multiAspectId min then
          match multiAspectReader with
          | id :: reader => merge_loop fuel reader uniqueAspectReader relReader (remap_next id a)
          | [] => Some (a, Ok tt)   (* not reached: [min] is finite here *)
          end
        else if head_eqb uniqueAspectId min then
          match uniqueAspectReader with
          | id :: reader => merge_loop fuel multiAspectReader reader relReader (remap_next id a)
          | [] => Some (a, Ok tt)
          end
        else
          match relReader with
          | id :: reader => merge_loop fuel multiAspectReader uniqueAspectReader reader (remap_next id a)
          | [] => Some (a, Ok tt)
          end
  end.

(** The walk with the turns its rows need. *)
Definition merge (multiAspectReader uniqueAspectReader relReader : list Z) (a : Alloc)
    : option (Alloc * Result unit) :=
  merge_loop
    (S (Datatypes.length multiAspectReader + Datatypes.length uniqueAspectReader
        + Datatypes.length relReader))
    multiAspectReader uniqueAspectReader relReader a.

(** The walk over the rows of three selects of identifiers (lines 622-677);
    the readers hand them over as numbers. *)
Definition multiwalk (multi unique rel : list Z) (a : Alloc) : option (Alloc * Result unit) :=
  merge (as_numbers multi) (as_numbers unique) (as_numbers rel) a.

(** [codeSpecRemapSelect] (lines 691-695):
    [SELECT s.Id, t.Id FROM bis_CodeSpec s LEFT JOIN main.bis_CodeSpec t ON s.Name=t.Name],
    prepared on a connection whose main database is [main]; an unqualified
    table is the main one. *)
Definition codeSpecRemapSelect (main : IModel) : list (Z * option Z) :=
  flat_map
    (fun s =>
       match List.filter (fun t => String.eqb (Name s) (Name t)) (bis_CodeSpec main) with
       | [] => [(Id s, None)]
       | matches => (fun t => (Id s, Some (Id t))) <$> matches
       end)
    (bis_CodeSpec main).

(** The code spec pass (lines 698-705). *)
Definition remap_codespec (a : Alloc) (row : Z * option Z) : Alloc :=
  match row with
  | (sourceId, Some targetId) =>
      {| next := next a; table := CompactRemapTable.remap sourceId targetId (table a) |}
  | (sourceId, None) => remap_next sourceId a
  end.

(** ** The text synthesis of [bulkInsertTransform] *)

(** Lines 246-334 of [bulkInsertTransform] build the texts of the select
    statement of a class and of the select that remaps its columns.  They
    are embedded as functions of the class data. *)



Definition select_columns (p : PropInfo) : list string :=
  match propertyType p with
  | PropertyType.Navigation => (["[" ++ name p ++ "].Id"; "[" ++ name p ++ "].RelECClassId"])%string
  | PropertyType.Point2d => (["[" ++ name p ++ "].X"; "[" ++ name p ++ "].Y"])%string
  | PropertyType.Point3d =>
      (["[" ++ name p ++ "].X"; "[" ++ name p ++ "].Y"; "[" ++ name p ++ "].Z"])%string
  | _ => (["[" ++ name p ++ "]"])%string
  end.

(** [selectSql] (lines 266-285): [WHERE ECInstanceId NOT IN (0x1, 0xe, 0x10)]
    when the root type is ["element"], no clause otherwise. *)
Definition selectSql (classFullName : string) (root : RootType.t) (props : list PropInfo)
    : SelectSql :=
  {| columns := flat_map select_columns props;
     from_class := classFullName;
     not_in := if decide (root = RootType.element) then bootstrap_ids else [] |}.

(** The rows a select statement reads from the source. *)
Definition select_rows (q : SelectSql) (src : IModel) : list Z :=
  List.filter (fun id => negb (bool_decide (id ∈ not_in q))) (from_only (from_class q) src).

(** One property of [remappedSql] (lines 294-327); [j] counts the columns of
    the select read so far ([++j]). *)
Definition remapped_prop (propertyTransforms : list string) (root : RootType.t)
    (p : PropInfo) (j : nat) : list RemappedExpr * nat :=
  if bool_decide (name p ∈ propertyTransforms) then ([Transformed (name p) (S j)], S j)
  else match propertyType p with
  | PropertyType.Navigation =>
      ([Remapped (remapSql (Sql.Outer (S j))
                   (if String.eqb (name p) "CodeSpec" then RemapType.codespec
                    else RemapType.element));
        TargetClassId (S (S j))], S (S j))
  | PropertyType.Long =>
      ([Remapped (remapSql (Sql.Outer (S j))
                   (if Nat.eqb (S j) 1
                    then (if decide (root = RootType.element) then RemapType.element
                          else RemapType.nonElemEntity)
                    else RemapType.element))], S j)
  | PropertyType.Point2d => ([Copied (S j); Copied (S (S j))], S (S j))
  | PropertyType.Point3d =>
      ([Copied (S j); Copied (S (S j)); Copied (S (S (S j)))], S (S (S j)))
  | _ => ([Copied (S j)], S j)
  end.

Fixpoint remappedSql (propertyTransforms : list string) (root : RootType.t)
    (props : list PropInfo) (j : nat) : list RemappedExpr :=
  match props with
  | [] => []
  | p :: rest =>
      let r := remapped_prop propertyTransforms root p j in
      r.1 ++ remappedSql propertyTransforms root rest (r.2)
  end.

(** [bulkInsertTransform] (lines 219-458), called once, at line 724.  Its
    first statement (line 230) is
    [assert(transformType === "process-all", "only transform 'process-all' supported for now")].
    No declaration binds [transformType]: the name is not a parameter or a
    local of the function, the file neither declares nor imports it (it
    occurs at lines 230 and 387 only), and it is no global of the platform.
    Evaluating the argument of [assert] therefore throws a [ReferenceError],
    on every call, before anything else is done: the statements after line
    230 ([getClassDatas], the preparation of the statements of each class
    with its [catch], the write of the cache file, the bulk inserts) are
    reached by no call, and they are not embedded as steps.  (The first of
    them, [getClassDatas], reads in its turn a name that nothing binds,
    [schemaNamesReader], at lines 93-94.) *)
Definition bulkInsertTransform : M World unit :=
  throw (ReferenceError "transformType is not defined").

(** ** The transform *)

(** [Remapper] (lines 461-464). *)
Record Remapper : Type := mkRemapper {
  findTargetElementId : string -> string;
  findTargetCodeSpecId : string -> string;
}.

(** [makeGetter] (lines 742-745).  A key that is [NaN] is in no run. *)
Definition makeGetter (table : CompactRemapTable.t) (id : string) : string :=
  let targetIntId :=
    match Js.parseInt16 id with
    | Some n => CompactRemapTable.get table n
    | None => None
    end in
  match targetIntId with
  | Some 0 | None => "0"
  | Some n => ("0x" ++ Js.toString16 n)%string
  end.

(** [CREATE TEMP TABLE <name>_remap (...)] on the source connection and on
    the target connection, then [remapTables[name].remap(0, 0)] (lines
    509-525); the target connection is new, so its table is. *)
Definition seed (ty : RemapType.t) : M World unit :=
  step (CreateTempTable OnSource ty) ;;
  step (CreateTempTable OnTarget ty) ;;
  modify (set_temp (insert (RemapType.name ty ++ "_remap")%string [])) ;;
  remap ty 0 0.

(** Lines 545-556: the rows of [sqlite_master] gathered in a [Map] by name. *)
Definition capture_triggers (db : IModel) : list (string * Trigger) :=
  foldl (fun result t => map_set (trigger_name t) t result) [] (sqlite_master db).

Definition on_target (step : IModel -> option IModel) (lastError : string) : M World unit :=
  fun w =>
    match step (writeableTarget w) with
    | Some db => (set_target (fun _ => db) w, Ok tt)
    | None => (w, Throw (AssertionError lastError))
    end.

(** Lines 564-573: [parseInt(Val, 16) + 1] of a sequence of [be_Local]. *)
Definition read_sequence (seq : string) : M World Z :=
  fun w =>
    match be_Local (writeableTarget w) !! seq with
    | Some val => (w, Ok (Js.increment (Js.toNumber val)))
    | None => (w, Throw (AssertionError "no row"))
    end.

(** Running an allocation on one of the tables. *)
Definition allocate (ty : RemapType.t) (first : Z)
    (run : Alloc -> option (Alloc * Result unit)) : M World unit :=
  fun w =>
    match run (mkAlloc first (remapTables w ty)) with
    | Some (a, r) => (set_table ty (table a) w, r)
    | None => (w, Throw (StoreError "the walk did not end"))
    end.

(** [SELECT Max(ECInstanceId) FROM Bis.CodeSpec] (lines 680-685), plus one.
    A BIS file holds the built-in code specs; over an empty table the source
    computes [NaN], which is not represented (this revision never reads the
    counter: every row of [codeSpecRemapSelect] has a match). *)
Definition nextCodeSpecId (db : IModel) : Z :=
  Js.increment (Js.toNumber (foldr Z.max 0 (Id <$> bis_CodeSpec db))).

(** The row a run is bound as (lines 715-717). *)
Definition row_of_run (run : CompactRemapTable.Run) : Sql.remap_row :=
  Sql.mkRow (CompactRemapTable.from run) (CompactRemapTable.to run)
    (CompactRemapTable.length run).

(** Lines 709-722: one run into [temp.<name>_remap]. *)
Definition insert_run (ty : RemapType.t) (run : CompactRemapTable.Run) : M World unit :=
  fun w =>
    let tbl := (RemapType.name ty ++ "_remap")%string in
    match temp w !! tbl with
    | None => (w, Throw (StoreError "no such table"))
    | Some rows =>
        match Sql.insert_row (row_of_run run) rows with
        | Some rows' => (set_temp (insert tbl rows') w, Ok tt)
        | None => (w, Throw (AssertionError "UNIQUE constraint failed"))
        end
    end.

Definition load_table (ty : RemapType.t) : M World unit :=
  let! T := gets (fun w => remapTables w ty) in
  for_each (CompactRemapTable.runs T) (insert_run ty).

(** Lines 564-706: the counters are read and the three kinds of
    identifiers are allocated, the elements in one pass, the aspects and the
    relationships by the multiwalk, the code specs by name. *)
Definition allocate_identifiers (env : Env) : M World unit :=
  let! _nextElemId := read_sequence "bis_elementidsequence" in
  let! _nextInstanceId := read_sequence "ec_instanceidsequence" in
  allocate RemapType.element _nextElemId
    (fun a => Some (element_pass (source env) a, Ok tt)) ;;
  allocate RemapType.nonElemEntity _nextInstanceId
    (multiwalk (multiAspectRemapSelect (source env)) (uniqueAspectRemapSelect (source env))
       (relRemapSelect (source env))) ;;
  let! _nextCodeSpecId := gets (fun w => nextCodeSpecId (writeableTarget w)) in
  allocate RemapType.codespec _nextCodeSpecId
    (fun a => Some (foldl remap_codespec a (codeSpecRemapSelect (source env)), Ok tt)).

(** Lines 740-752: the remapper, when it is asked for. *)
Definition make_remapper (returnRemapper : bool) (w : World) : option Remapper :=
  if returnRemapper
  then Some {| findTargetElementId := makeGetter (remapTables w RemapType.element);
               findTargetCodeSpecId := makeGetter (remapTables w RemapType.codespec) |}
  else None.

(** Lines 502-538: the remap tables are made and seeded, the fonts that
    were imported are filled in, the source is attached, and the bootstrap
    elements are remapped to themselves. *)
Definition prepare_remap_tables (env : Env) : M World unit :=
  for_each RemapType.all seed ;;
  for_each (fontRemaps env) (fun r => remap RemapType.font (r.1) (r.2)) ;;
  step AttachSource ;;
  remap RemapType.element 1 1 ;;
  remap RemapType.element 0xe 0xe ;;
  remap RemapType.element 0x10 0x10.

(** Lines 502-562: the tables are prepared, foreign keys are deferred, and
    the triggers of the target are gathered and dropped. *)
Definition suspend_triggers (env : Env) : M World (list (string * Trigger)) :=
  prepare_remap_tables env ;;
  step (DeferForeignKeys true) ;;
  modify (set_defer_foreign_keys true) ;;
  let! triggers := gets (fun w => capture_triggers (writeableTarget w)) in
  for_each triggers (fun t => on_target (drop_trigger (t.1)) "no such trigger") ;;
  ret triggers.

(** [rawEmulatedPolymorphicInsertTransform] (lines 474-766), from the point
    where the target is open for writing.  No [try] is around any of its
    statements.  The call of line 724 passes the string ["process-all"]
    where [bulkInsertTransform] expects its options. *)
Definition rawEmulatedPolymorphicInsertTransform (env : Env) (returnRemapper : bool)
    : M World (option Remapper) :=
  let! triggers := suspend_triggers env in
  allocate_identifiers env ;;
  for_each RemapType.all load_table ;;
  bulkInsertTransform ;;
  step (DeferForeignKeys false) ;;
  modify (set_defer_foreign_keys false) ;;
  for_each triggers (fun t => on_target (create_trigger (t.2)) "trigger already exists") ;;
  gets (make_remapper returnRemapper).

(** The world a run starts in: the target as it is, a new connection, the
    statement cache of the process, and a store that serves the statements
    of the set-up. *)
Definition start (target : IModel) (cache : gmap string (gmap string CachedClassStatements))
    : World :=
  {| writeableTarget := target;
     defer_foreign_keys := false;
     remapTables := fun _ => CompactRemapTable.empty;
     temp := ∅;
     statementCache := cache;
     refused := fun _ => None |}.

End RunCompressed.

(* ===================================================================== *)
(** ** The two-pass revision (JsPolymorphicInserter.ts, lines 767-1350) *)
(* ===================================================================== *)

Module JsonTwoPhase.

Record PropInfo : Type := mkProp {
  name : string;
  propertyType : PropertyType.t;
  (** [isReadOnly?]: absent is [false] *)
  isReadOnly : bool;
}.

(** A value of a column or of a SQL expression. *)
Inductive SqlValue : Type :=
| NULL
| Integer (z : Z)
| Text (s : string).

#[global] Instance SqlValue_eq_dec : EqDecision SqlValue.
Proof. solve_decision. Defined.

(** The JSON form of a row (the [$] column). *)
#[local] Set Warnings "-register-all".
Inductive Json : Type :=
| JNull
| JNumber (z : Z)
| JString (s : string)
| JObject (members : list (string * Json)).

Definition member (key : string) (members : list (string * Json)) : option Json :=
  snd <$> List.find (fun m => String.eqb (fst m) key) members.

Fixpoint json_get (path : list string) (j : Json) : option Json :=
  match path with
  | [] => Some j
  | key :: rest =>
      match j with
      | JObject members =>
          match member key members with
          | Some j' => json_get rest j'
          | None => None
          end
      | _ => None
      end
  end.

(** [JSON_EXTRACT(:x, '$.<accessStr>')].  An object comes out as its JSON
    text, which no statement here reads; it is not spelled out. *)
Definition JSON_EXTRACT (x : Json) (accessStr : string) : SqlValue :=
  match json_get (Js.split "." accessStr) x with
  | Some (JString s) => Text s
  | Some (JNumber z) => Integer z
  | Some (JObject _) => Text "{}"
  | Some JNull | None => NULL
  end.

(** SQLite's [lower], on ASCII. *)
Definition lower_char (c : ascii) : ascii :=
  let n := N_of_ascii c in
  if ((65 <=? n) && (n <=? 90))%N then ascii_of_N (n + 32) else c.

Fixpoint lower (s : string) : string :=
  match s with
  | EmptyString => EmptyString
  | String c rest => String (lower_char c) (lower rest)
  end.

(** [instr('123456789abcdef', c)]: the place of [c], from 1, or 0. *)
Definition instr_hex (c : ascii) : Z :=
  match index 0 (String c EmptyString) "123456789abcdef" with
  | Some i => Z.of_nat i + 1
  | None => 0
  end.

(** A result of SQLite's 64-bit integer arithmetic. *)
Definition wrap64 (z : Z) : Z := (z + 2 ^ 63) mod 2 ^ 64 - 2 ^ 63.

(** The value of the sixteen-term expression of [readHexFromJson] (lines
    840-860) on a text: term [k] is
    [instr('123456789abcdef', substr('0000000000000000' || lower(v), -k, 1)) << 4*(k-1)]. *)
Definition hex_terms (v : string) : list Z :=
  imap (fun k c => wrap64 (Z.shiftl (instr_hex c) (4 * Z.of_nat k)))
    (take 16 (reverse (list_ascii_of_string ("0000000000000000" ++ lower v)))).

Definition text_of (v : SqlValue) : option string :=
  match v with
  | NULL => None
  | Integer z => Some (pretty z)
  | Text s => Some s
  end.

(** [readHexFromJson(p, accessStr)] evaluated on the row [x]. *)
Definition readHexFromJson (x : Json) (p : PropInfo) (accessStr : option string) : option Z :=
  let navProp := bool_decide (propertyType p = PropertyType.Navigation) in
  let path := default (name p ++ (if navProp then ".Id" else ""))%string accessStr in
  match text_of (JSON_EXTRACT x path) with
  | Some v => Some (foldr Z.lor 0 (hex_terms v))
  | None => None
  end.

(** A row of the target's element table. *)
Record Row : Type := mkRow {
  row_id : Z;
  row_class : string;
  row_values : list (string * SqlValue);
}.

(** The column of a row; a column that was never written is [NULL]. *)
Definition column (row : Row) (name : string) : SqlValue :=
  default NULL (snd <$> List.find (fun c => String.eqb (fst c) name) (row_values row)).

(** What the transform changes. *)
Record World : Type := mkWorld {
  (** the element rows of the target *)
  elements : list Row;
  (** [main.bis_CodeSpec] *)
  codeSpecs : list CodeSpecRow;
  (** the identifier the next row gets that an ECSQL [INSERT] adds without
      naming one ([stepForInsert]): the store draws the identifiers of code
      specs and of elements from one sequence *)
  next_instance_id : Z;
  (** [temp.element_remap] and [temp.codespec_remap]:
      [SourceId INTEGER NOT NULL PRIMARY KEY, TargetId INTEGER NOT NULL] *)
  element_remap : gmap Z Z;
  codespec_remap : gmap Z Z;
}.

Definition set_elements (rows : list Row) (w : World) : World :=
  mkWorld rows (codeSpecs w) (next_instance_id w) (element_remap w) (codespec_remap w).

Definition set_element_remap (table : gmap Z Z) (w : World) : World :=
  mkWorld (elements w) (codeSpecs w) (next_instance_id w) table (codespec_remap w).

Definition set_codespec_remap (table : gmap Z Z) (w : World) : World :=
  mkWorld (elements w) (codeSpecs w) (next_instance_id w) (element_remap w) table.

(** [INSERT INTO temp.<table>_remap VALUES(?,?)]: refused on a key that is
    there. *)
Definition remap_insert (table : gmap Z Z) (sourceId targetId : Z) : option (gmap Z Z) :=
  match table !! sourceId with
  | Some _ => None
  | None => Some (<[sourceId := targetId]> table)
  end.

(** [(SELECT TargetId FROM temp.<table>_remap WHERE SourceId=<id>)] *)
Definition remap_select (table : gmap Z Z) (id : option Z) : SqlValue :=
  match id with
  | Some sourceId =>
      match table !! sourceId with
      | Some targetId => Integer targetId
      | None => NULL
      end
  | None => NULL
  end.

(** [populateQuery] (lines 906-939): the columns it names for a property. *)
Definition populate_columns (p : PropInfo) : list string :=
  match propertyType p with
  | PropertyType.Navigation => [name p ++ ".Id"]
  | PropertyType.Point2d => [name p ++ ".x"; name p ++ ".y"]
  | PropertyType.Point3d => [name p ++ ".x"; name p ++ ".y"; name p ++ ".z"]
  | _ => [name p]
  end%string.

(** [populateQuery]: the values it gives them; [0x1] stands in for every
    reference, [NULL] for the code value. *)
Definition populate_exprs (x : Json) (p : PropInfo) : list SqlValue :=
  if String.eqb (name p) "CodeValue" then [NULL]
  else match propertyType p with
  | PropertyType.Navigation | PropertyType.Long => [Integer 0x1]
  | PropertyType.Point2d =>
      [JSON_EXTRACT x (name p ++ ".x"); JSON_EXTRACT x (name p ++ ".y")]
  | PropertyType.Point3d =>
      [JSON_EXTRACT x (name p ++ ".x"); JSON_EXTRACT x (name p ++ ".y");
       JSON_EXTRACT x (name p ++ ".z")]
  | _ => [JSON_EXTRACT x (name p)]
  end%string.

Definition populate_values (x : Json) (p : PropInfo) : list (string * SqlValue) :=
  zip (populate_columns p) (populate_exprs x p).

(** The row [populateQuery] inserts for [x], under the identifier the store
    gives it. *)
Definition populate_row (id : Z) (classFullName : string) (properties : list PropInfo)
    (x : Json) : Row :=
  mkRow id classFullName (flat_map (populate_values x) properties).

(** [populate] (lines 1005-1020): the row goes in under a new identifier,
    which is returned. *)
Definition populate (classFullName : string) (properties : list PropInfo) (x : Json)
    : M World Z :=
  fun w =>
    let id := next_instance_id w in
    if existsb (fun row => row_id row =? id) (elements w)
    then (w, Throw (StoreError "UNIQUE constraint failed"))
    else
      (mkWorld (elements w ++ [populate_row id classFullName properties x])
         (codeSpecs w) (id + 1) (element_remap w) (codespec_remap w),
       Ok id).

(** [updateProps] (lines 864-867) *)
Definition updateProps (properties : list PropInfo) : list PropInfo :=
  List.filter
    (fun p => negb (isReadOnly p) && bool_decide (propertyType p = PropertyType.Navigation)
              || String.eqb (name p) "CodeValue")
    properties.

(** One assignment of [updateQuery] (lines 873-896): its column ... *)
Definition update_column (p : PropInfo) : string :=
  if bool_decide (propertyType p = PropertyType.Navigation) then (name p ++ ".Id")%string
  else name p.

(** The native statement that [update] steps has two parameters.  The
    lookups of the references and of the row itself are injected
    expressions: in the ECSQL they are string literals, and their [:x]
    becomes a parameter only when the replacement of lines 1065-1071 turns
    the literals into SQL.  The [:x] of [JSON_EXTRACT(:x, '$.CodeValue')] is a
    parameter of the ECSQL, which the native statement has under a name of
    its own. *)
Inductive SqlParameter : Type := InjectedX | EcsqlX.

#[global] Instance SqlParameter_eq_dec : EqDecision SqlParameter.
Proof. solve_decision. Defined.

(** The parameter that the assignment of a property reads (lines 873-896). *)
Definition update_parameter (p : PropInfo) : SqlParameter :=
  if bool_decide (propertyType p = PropertyType.Navigation)
     || bool_decide (propertyType p = PropertyType.Long)
  then InjectedX else EcsqlX.

(** [targetStmt.bindString(1, jsonString)] (line 1076) binds the first
    parameter of the statement, which is the one its first assignment reads;
    the other parameter stays unbound and is [NULL]. *)
Definition bound_parameter (updateProps : list PropInfo) : SqlParameter :=
  match updateProps with
  | p :: _ => update_parameter p
  | [] => InjectedX
  end.

(** A lookup of an injected expression,
    [(SELECT TargetId FROM temp.<table>_remap WHERE SourceId=<readHexFromJson>)]. *)
Definition injected_select (bound : SqlParameter) (table : gmap Z Z) (x : Json) (p : PropInfo)
    : SqlValue :=
  match bound with
  | InjectedX => remap_select table (readHexFromJson x p None)
  | EcsqlX => NULL
  end.

(** ... and its value: the code spec table for a navigation property named
    [CodeSpec], the element table for any other reference, and
    [JSON_EXTRACT(:x, '$.CodeValue')] for the code value. *)
Definition update_value (w : World) (bound : SqlParameter) (x : Json) (p : PropInfo) : SqlValue :=
  if bool_decide (propertyType p = PropertyType.Navigation) && String.eqb (name p) "CodeSpec"
  then injected_select bound (codespec_remap w) x p
  else if bool_decide (propertyType p = PropertyType.Navigation)
  then injected_select bound (element_remap w) x p
  else if bool_decide (propertyType p = PropertyType.Long)
  then injected_select bound (element_remap w) x p
  else match bound with
       | EcsqlX => JSON_EXTRACT x "CodeValue"
       | InjectedX => NULL
       end.

(** [SET column = value] on the values of a row. *)
Definition assign (values : list (string * SqlValue)) (a : string * SqlValue)
    : list (string * SqlValue) :=
  map_set (a.1) (a.2) values.

(** [UPDATE <class> SET <assignments> WHERE ECInstanceId=<target>] on one
    row. *)
Definition update_row (target : SqlValue) (classFullName : string)
    (assignments : list (string * SqlValue)) (row : Row) : Row :=
  if bool_decide (Integer (row_id row) = target) && String.eqb (row_class row) classFullName
  then mkRow (row_id row) (row_class row) (foldl assign (row_values row) assignments)
  else row.

(** The identifier [updateQuery] looks for:
    [(SELECT TargetId FROM temp.element_remap WHERE SourceId=<ECInstanceId of x>)]
    (lines 899-903). *)
Definition update_target (w : World) (bound : SqlParameter) (x : Json) : SqlValue :=
  injected_select bound (element_remap w) x (mkProp "ECInstanceId" PropertyType.Long false).

(** What [updateQuery] of a class does to one row, for the row [x] of the
    source. *)
Definition hydrate_row (w : World) (classFullName : string) (properties : list PropInfo)
    (x : Json) (row : Row) : Row :=
  let bound := bound_parameter (updateProps properties) in
  update_row (update_target w bound x) classFullName
    ((fun p => (update_column p, update_value w bound x p)) <$> updateProps properties) row.

(** [update] (lines 1061-1086): an empty statement does nothing; otherwise
    the row of the class whose identifier is the remapped identifier of [x]
    gets the assignments. *)
Definition update (classFullName : string) (properties : list PropInfo) (x : Json)
    : M World unit :=
  match updateProps properties with
  | [] => ret tt
  | _ =>
      modify (fun w => set_elements (hydrate_row w classFullName properties x <$> elements w) w)
  end.

(** A class of a schema, as [createPolymorphicEntityQueryMap] reads it. *)
Record ECClass : Type := mkECClass {
  fullName : string;
  getProperties : list PropInfo;
  isRelationshipClass : bool;
}.

(** [classFullNameAndProps] (lines 808-829) *)
Definition classFullNameAndProps (classes : list ECClass) : list (string * list PropInfo) :=
  foldl
    (fun m c =>
       map_set (fullName c)
         (getProperties c ++
            (if isRelationshipClass c
             then [mkProp "SourceECInstanceId" PropertyType.Long false;
                   mkProp "TargetECInstanceId" PropertyType.Long false]
             else []))
         m)
    [] classes.

(** [queryMap.populate.get(classFullName)] and [queryMap.update.get(...)]:
    the properties the queries of the class were built from. *)
Definition queryMap_get (queryMap : list (string * list PropInfo)) (classFullName : string)
    : option (list PropInfo) :=
  snd <$> List.find (fun e => String.eqb (fst e) classFullName) queryMap.

(** A row of [sourceElemSelect]: [$], [ec_classname(ECClassId, 's.c')] and
    [ECInstanceId]. *)
Record SourceRow : Type := mkSourceRow {
  jsonString : Json;
  classFullName : string;
  sourceId : Z;
}.

(** [sourceElemSelect] (lines 1212-1220): the elements but the bootstrap
    ones, [ORDER BY ECInstanceId ASC]. *)
Definition by_sourceId (a b : SourceRow) : Prop := sourceId a <= sourceId b.

#[global] Instance by_sourceId_dec a b : Decision (by_sourceId a b).
Proof. unfold by_sourceId. apply _. Defined.

Definition sourceElemSelect (bis_Element : list SourceRow) : list SourceRow :=
  merge_sort by_sourceId (List.filter (fun r => not_bootstrap (sourceId r)) bis_Element).

Definition remap_element (sourceId targetId : Z) : M World unit :=
  fun w =>
    match remap_insert (element_remap w) sourceId targetId with
    | Some table => (set_element_remap table w, Ok tt)
    | None => (w, Throw (AssertionError "UNIQUE constraint failed"))
    end.

Definition remap_codespec (sourceId targetId : Z) : M World unit :=
  fun w =>
    match remap_insert (codespec_remap w) sourceId targetId with
    | Some table => (set_codespec_remap table w, Ok tt)
    | None => (w, Throw (AssertionError "UNIQUE constraint failed"))
    end.

(** One turn of the first pass (lines 1224-1241). *)
Definition first_pass_row (queryMap : list (string * list PropInfo)) (r : SourceRow)
    : M World unit :=
  match queryMap_get queryMap (classFullName r) with
  | None => throw (AssertionError "couldn't find insert query for class")
  | Some properties =>
      let! targetId := populate (classFullName r) properties (jsonString r) in
      remap_element (sourceId r) targetId
  end.

(** One turn of the second pass (lines 1245-1254). *)
Definition second_pass_row (queryMap : list (string * list PropInfo)) (r : SourceRow)
    : M World unit :=
  match queryMap_get queryMap (classFullName r) with
  | None => throw (AssertionError "couldn't find update query for class")
  | Some properties => update (classFullName r) properties (jsonString r)
  end.

(** One row of [sourceCodeSpecSelect] (lines 1173-1210):
    [SELECT s.Id, t.Id, s.Name, s.JsonProperties FROM source.bis_CodeSpec s
     LEFT JOIN main.bis_CodeSpec t ON s.Name=t.Name], prepared on the target
    connection, so [main] is the target; [Name] is unique in [bis_CodeSpec]. *)
Definition codespec_row (s : CodeSpecRow) : M World unit :=
  let! t := gets (fun w => List.find (fun t => String.eqb (Name s) (Name t)) (codeSpecs w)) in
  let! targetId :=
    match t with
    | Some t => ret (Id t)
    | None =>
        fun w =>
          let id := next_instance_id w in
          if existsb (fun t => Id t =? id) (codeSpecs w)
          then (w, Throw (StoreError "Expected BE_SQLITE_DONE"))
          else
            (mkWorld (elements w)
               (codeSpecs w ++ [mkCodeSpec id (Name s) (JsonProperties s)]) (id + 1)
               (element_remap w) (codespec_remap w),
             Ok id)
    end in
  remap_codespec (Id s) targetId.

(** What the transform reads. *)
Record Env : Type := mkEnv {
  (** the classes of the target's schemas, after [processSchemas] *)
  classes : list ECClass;
  (** [source.bis_CodeSpec] *)
  source_codeSpecs : list CodeSpecRow;
  (** the rows of [bis.Element] in the source *)
  source_elements : list SourceRow;
}.

(** The first pass populates, the second hydrates (lines 1222-1254). *)
Definition two_passes (queryMap : list (string * list PropInfo)) (rows : list SourceRow)
    : M World unit :=
  for_each rows (first_pass_row queryMap) ;;
  for_each rows (second_pass_row queryMap).

(** [rawEmulatedPolymorphicInsertTransform] (lines 1111-1254), from the new
    temp tables to the end of the second pass.  The triggers are gathered,
    dropped and created again as in the other revision; the aspects and the
    relationships are inserted after the second pass. *)
Definition rawEmulatedPolymorphicInsertTransform (env : Env) : M World unit :=
  let queryMap := classFullNameAndProps (classes env) in
  (* INSERT INTO temp.element_remap VALUES(0x1,0x1), (0xe,0xe), (0x10, 0x10) *)
  remap_element 0x1 0x1 ;;
  remap_element 0xe 0xe ;;
  remap_element 0x10 0x10 ;;
  for_each (source_codeSpecs env) codespec_row ;;
  two_passes queryMap (sourceElemSelect (source_elements env)).

(** The world a run starts in: the target as it is and new, empty temp
    tables. *)
Definition start (elements : list Row) (codeSpecs : list CodeSpecRow) (next_instance_id : Z)
    : World :=
  {| elements := elements; codeSpecs := codeSpecs; next_instance_id := next_instance_id;
     element_remap := ∅; codespec_remap := ∅ |}.

End JsonTwoPhase.

(* ===================================================================== *)
(** ** The clone context (IModelElementCloneContext) *)
(* ===================================================================== *)

Module CloneContext.

(** [Id64.invalid] *)
Definition Id64_invalid : string := "0".

(** The remap rules of a context: [_elementRemaps] and [_codeSpecRemaps],
    each a [Map<Id64String, Id64String>]. *)
Record IModelElementCloneContext : Type := mkContext {
  _elementRemaps : gmap string string;
  _codeSpecRemaps : gmap string string;
}.

Definition new : IModelElementCloneContext :=
  {| _elementRemaps := ∅; _codeSpecRemaps := ∅ |}.

(** [remapElement] *)
Definition remapElement (sourceId targetId : string) (ctx : IModelElementCloneContext)
    : IModelElementCloneContext :=
  {| _elementRemaps := <[sourceId := targetId]> (_elementRemaps ctx);
     _codeSpecRemaps := _codeSpecRemaps ctx |}.

(** [removeElement] *)
Definition removeElement (sourceId : string) (ctx : IModelElementCloneContext)
    : IModelElementCloneContext :=
  {| _elementRemaps := delete sourceId (_elementRemaps ctx);
     _codeSpecRemaps := _codeSpecRemaps ctx |}.

(** The effect of [remapCodeSpec] on the rules, once both code specs were
    found by name: [this._codeSpecRemaps.set(sourceCodeSpec.id, targetCodeSpec.id)]. *)
Definition remapCodeSpecIds (sourceId targetId : string) (ctx : IModelElementCloneContext)
    : IModelElementCloneContext :=
  {| _elementRemaps := _elementRemaps ctx;
     _codeSpecRemaps := <[sourceId := targetId]> (_codeSpecRemaps ctx) |}.

(** [findTargetCodeSpecId] *)
Definition findTargetCodeSpecId (ctx : IModelElementCloneContext) (sourceId : string) : string :=
  if String.eqb Id64_invalid sourceId then Id64_invalid
  else default Id64_invalid (_codeSpecRemaps ctx !! sourceId).

(** [findTargetElementId] *)
Definition findTargetElementId (ctx : IModelElementCloneContext) (sourceElementId : string)
    : string :=
  if String.eqb Id64_invalid sourceElementId then Id64_invalid
  else default Id64_invalid (_elementRemaps ctx !! sourceElementId).

End CloneContext.


(* ===================================================================== *)
(** ** Helpers of JsPolymorphicInserter.ts outside the transforms *)
(* ===================================================================== *)

Module Injection.

(** [escapeForSqlStr] (lines 44 and 777): [s.replace(/'/g, "''")], every
    quote is doubled. *)
Fixpoint escapeForSqlStr (s : string) : string :=
  match s with
  | EmptyString => EmptyString
  | String c rest =>
      if Ascii.eqb c "'" then String "'" (String "'" (escapeForSqlStr rest))
      else String c (escapeForSqlStr rest)
  end.

(** [unescapeSqlStr] (lines 45 and 778): [s.replace(/''/g, "'")]; the
    matches are found from left to right and do not overlap, so of a run of
    quotes each pair becomes one quote and a last single quote stays. *)
Fixpoint unescapeSqlStr (s : string) : string :=
  match s with
  | EmptyString => EmptyString
  | String c rest =>
      if Ascii.eqb c "'" then
        match rest with
        | String c' rest' =>
            if Ascii.eqb c' "'" then String "'" (unescapeSqlStr rest')
            else String c (unescapeSqlStr rest)
        | EmptyString => String c EmptyString
        end
      else String c (unescapeSqlStr rest)
  end.

Local Open Scope string_scope.

(** [injectionString] (lines 20 and 774). *)
Definition injectionString : string := "Inject_1243yu1".

(** [injectExpr] of the second revision (line 775): the text is quoted and
    put behind the injection string in a SQL string literal. *)
Definition injectExpr (s : string) : string :=
  "(SELECT '" ++ injectionString ++ " " ++ escapeForSqlStr s ++ "')".

(** [injectExpr] of the first revision (line 21), which wraps the same
    expression in a cast to [type] (["Integer"] when it is not given). *)
Definition injectExprCast (s type : string) : string :=
  "(CAST (" ++ injectExpr s ++ " AS " ++ type ++ "))".

(** The replacement of [getInjectedSqlite] (lines 26-29, and again at
    1030-1033 and 1067-1070):
    [nativeSql.replace(re, (_, p1) => unescapeSqlStr(p1))], where the regular
    expression [re], with the flags [g] and [s], is [\(SELECT 'Inject_1243yu1 ]
    followed by the group [p1], which is [.*?[^']('')*], and by ['\)].
    The matcher below follows the backtracking order of the expression, one
    function for each of its parts; a text is the list of its characters. *)

(** [s] without [prefix] in front, when it starts with it. *)
Fixpoint strip_prefix (prefix s : string) : option string :=
  match prefix with
  | EmptyString => Some s
  | String p prefix' =>
      match s with
      | String c s' => if Ascii.eqb c p then strip_prefix prefix' s' else None
      | EmptyString => None
      end
  end.

(** ['\)], the end of the pattern. *)
Definition closing (s : string) : option string := strip_prefix "')" s.

(** [('')*'\)]: the star is greedy, so one more pair of quotes is tried
    before the end is; what is returned is the text of the pairs and what
    follows the match. *)
Fixpoint pairs_then_closing (s : string) : option (string * string) :=
  match s with
  | String c1 rest1 =>
      if Ascii.eqb c1 "'" then
        match rest1 with
        | String c2 rest =>
            if Ascii.eqb c2 "'" then
              match pairs_then_closing rest with
              | Some (pairs, after) => Some (String c1 (String c2 pairs), after)
              | None => option_map (pair EmptyString) (closing s)
              end
            else option_map (pair EmptyString) (closing s)
        | EmptyString => option_map (pair EmptyString) (closing s)
        end
      else option_map (pair EmptyString) (closing s)
  | EmptyString => option_map (pair EmptyString) (closing s)
  end.

(** [.*?[^']('')*'\)]: the first star is lazy, so at every character the end
    of the group is tried before the character is given to [.] (which, with
    the flag [s], takes every character).  The first component is the text
    of the group [p1]. *)
Fixpoint group_then_closing (s : string) : option (string * string) :=
  match s with
  | EmptyString => None
  | String c rest =>
      match (if Ascii.eqb c "'" then None else pairs_then_closing rest) with
      | Some (pairs, after) => Some (String c pairs, after)
      | None =>
          match group_then_closing rest with
          | Some (p1, after) => Some (String c p1, after)
          | None => None
          end
      end
  end.

(** The whole pattern, tried at the start of [s]. *)
Definition match_here (s : string) : option (string * string) :=
  match strip_prefix ("(SELECT '" ++ injectionString ++ " ") s with
  | Some rest => group_then_closing rest
  | None => None
  end.

(** [replace] with the flag [g]: the text is scanned from the left; a match
    is replaced by its unquoted group and the scan goes on behind it ([skip]
    counts the characters of the match still to pass), a character at which
    nothing matches is kept. *)
Fixpoint replace_from (s : string) (skip : nat) : string :=
  match s with
  | EmptyString => EmptyString
  | String c rest =>
      match skip with
      | S skip' => replace_from rest skip'
      | O =>
          match match_here s with
          | Some (p1, after) =>
              unescapeSqlStr p1 ++ replace_from rest (String.length rest - String.length after)
          | None => String c (replace_from rest 0)
          end
      end
  end.

Definition replaceInjected (nativeSql : string) : string := replace_from nativeSql 0.

(** Is the text made of quotes only (the empty text is)? *)
Fixpoint all_quotes (s : string) : bool :=
  match s with
  | EmptyString => true
  | String c rest => Ascii.eqb c "'" && all_quotes rest
  end.

(** Does the text begin with the letter that follows the parenthesis of the
    pattern? *)
Definition starts_with_S (s : string) : bool :=
  match s with
  | String c _ => Ascii.eqb c "S"
  | EmptyString => false
  end.

(** No place of the text holds an opening parenthesis followed by [S]. *)
Fixpoint no_select_start (s : string) : bool :=
  match s with
  | EmptyString => true
  | String c rest => negb (Ascii.eqb c "(" && starts_with_S rest) && no_select_start rest
  end.

End Injection.

(** [_createTransformFunction] (lines 184-217).  The function it registers
    is called by SQLite once per column; it keeps the count of its calls and
    the row it transformed last.  What a row is, is left to [transform]: a
    [Record<string, any>] is used through [{}], assignment and lookup only. *)
Module TransformFunction.
Section impl.
Context {V Row : Type}.
Context (empty_row : Row) (row_set : string -> V -> Row -> Row)
        (row_get : Row -> string -> option V).
Context (transform : Row -> Row).

(** [callCount] and [outputRow], the variables the closure holds. *)
Record State : Type := mkState { callCount : nat; outputRow : Row }.

(** [let callCount = 0; let outputRow = {}] *)
Definition initial : State := mkState 0 empty_row.

(** How a call ends. *)
Inductive Outcome : Type :=
| Returns (value : option V)          (* [outputRow[key]]; [None] is [undefined] *)
| AssertionFailed                     (* [assert(classData !== undefined)] *)
| TypeError.                          (* [prop.name] of an [undefined] [prop] *)

(** The loop of lines 200-204: [inputRow[classData.properties[i].name] = allValues[i]]
    for every [i] below [allValues.length]; a value beyond the properties
    makes [prop] undefined. *)
Fixpoint inputRow (properties : list RunCompressed.PropInfo) (allValues : list V)
    (row : Row) : option Row :=
  match allValues with
  | [] => Some row
  | val :: values =>
      match properties with
      | prop :: rest => inputRow rest values (row_set (RunCompressed.name prop) val row)
      | [] => None
      end
  end.

(** [impl(key, classId, allValues)] *)
Definition impl (classDatas : list (string * RunCompressed.ClassData))
    (key classId : string) (allValues : list V) (st : State) : State * Outcome :=
  match snd <$> List.find (fun e => String.eqb (fst e) classId) classDatas with
  | None => (st, AssertionFailed)
  | Some classData =>
      let fresh :=
        if Nat.eqb (callCount st) 0
        then option_map transform (inputRow (RunCompressed.properties classData) allValues empty_row)
        else Some (outputRow st) in
      match fresh with
      | None => (st, TypeError)
      | Some row =>
          let count := S (callCount st) in
          let count' :=
            if Nat.leb (Datatypes.length (RunCompressed.properties classData)) count
            then 0%nat else count in
          (mkState count' row, Returns (row_get row key))
      end
  end.

(** The calls SQLite makes one after the other, as long as none throws. *)
Fixpoint impl_all (classDatas : list (string * RunCompressed.ClassData))
    (calls : list (string * string * list V)) (st : State) : State * list Outcome :=
  match calls with
  | [] => (st, [])
  | (key, classId, allValues) :: rest =>
      match impl classDatas key classId allValues st with
      | (st', Returns v) =>
          let r := impl_all classDatas rest st' in (r.1, Returns v :: r.2)
      | (st', thrown) => (st', [thrown])
      end
  end.

End impl.
End TransformFunction.

(** The databases of a clone context (part_000, lines 16-56 and 143-155).
    An [IModelDb] is an object, compared with [!==] by identity: it is its
    handle here.  What [codeSpecs.getById] and [codeSpecs.insert] of
    [@itwin/core-backend] do to the iModels is not in the sources; they are
    left open, as steps over the state [S] of the iModels. *)
Module CloneContextDbs.
Section databases.
Context {S CodeSpec : Type}.
Context (getById : nat -> string -> M S CodeSpec).
Context (insert : nat -> CodeSpec -> M S unit).
(** [delete (sourceCodeSpec as any).id] *)
Context (delete_id : CodeSpec -> CodeSpec).

Record Context_ : Type := mkContext {
  sourceDb : nat;
  targetDb : nat;
  rules : CloneContext.IModelElementCloneContext;
}.

(** The constructor (lines 28-32): [targetDb] is [sourceDb] when it is not
    given. *)
Definition constructor (sourceDb : nat) (targetDb : option nat) : Context_ :=
  {| sourceDb := sourceDb;
     targetDb := default sourceDb targetDb;
     rules := CloneContext.new |}.




End databases.
End CloneContextDbs.

(** Hexadecimal digits, for the identifier strings the source reads and
    writes: the value of the digits of [toString16] read from the left, and
    the value of a list of characters read as SQLite's
    [instr('123456789abcdef', c)] reads them, a character that is no digit
    counting as 0. *)
Module HexDigits.

Fixpoint uint_value (d : Hexadecimal.uint) (acc : Z) : Z :=
  match d with
  | Hexadecimal.Nil => acc
  | Hexadecimal.D0 l => uint_value l (16 * acc)
  | Hexadecimal.D1 l => uint_value l (16 * acc + 1)
  | Hexadecimal.D2 l => uint_value l (16 * acc + 2)
  | Hexadecimal.D3 l => uint_value l (16 * acc + 3)
  | Hexadecimal.D4 l => uint_value l (16 * acc + 4)
  | Hexadecimal.D5 l => uint_value l (16 * acc + 5)
  | Hexadecimal.D6 l => uint_value l (16 * acc + 6)
  | Hexadecimal.D7 l => uint_value l (16 * acc + 7)
  | Hexadecimal.D8 l => uint_value l (16 * acc + 8)
  | Hexadecimal.D9 l => uint_value l (16 * acc + 9)
  | Hexadecimal.Da l => uint_value l (16 * acc + 10)
  | Hexadecimal.Db l => uint_value l (16 * acc + 11)
  | Hexadecimal.Dc l => uint_value l (16 * acc + 12)
  | Hexadecimal.Dd l => uint_value l (16 * acc + 13)
  | Hexadecimal.De l => uint_value l (16 * acc + 14)
  | Hexadecimal.Df l => uint_value l (16 * acc + 15)
  end.

(** The least significant digit first. *)
Definition le_value (l : list ascii) : Z :=
  foldr (fun c r => JsonTwoPhase.instr_hex c + 16 * r) 0 l.

(** The most significant digit first, after [acc]. *)
Definition be_value (acc : Z) (l : list ascii) : Z :=
  foldl (fun acc c => 16 * acc + JsonTwoPhase.instr_hex c) acc l.

End HexDigits.

(** The remapper the two-pass revision returns (lines 1097-1101 and
    1315-1336). *)
Module TwoPassRemapper.

(** [format('0x%x', n)] of SQLite: the 64-bit integer as an unsigned number
    in lower-case hexadecimal digits. *)
Definition format_x (n : Z) : string := ("0x" ++ Js.toString16 (n mod 2 ^ 64))%string.

Definition by_key (a b : Z * Z) : Prop := a.1 <= b.1.

#[global] Instance by_key_dec a b : Decision (by_key a b).
Proof. unfold by_key. apply _. Defined.

(** [SELECT ... FROM temp.<type>_remap]: the rows of a table whose
    [SourceId] is the integer primary key, in key order. *)
Definition rows_of (table : gmap Z Z) : list (Z * Z) := merge_sort by_key (map_to_list table).

(** The [Map<string, string>] filled from a table (lines 1317-1328):
    [remaps.set(format('0x%x', SourceId), format('0x%x', TargetId))] row by
    row. *)
Definition remaps (table : gmap Z Z) : list (string * string) :=
  foldl (fun m row => map_set (format_x (row.1)) (format_x (row.2)) m) [] (rows_of table).

(** [remaps.get(id) ?? Id64.invalid] *)
Definition lookup_or_invalid (m : list (string * string)) (id : string) : string :=
  default CloneContext.Id64_invalid
    (snd <$> List.find (fun e => String.eqb (fst e) id) m).

Record Remapper : Type := mkRemapper {
  findTargetElementId : string -> string;
  findTargetCodeSpecId : string -> string;
  findTargetAspectId : string -> string;
}.

(** Lines 1316-1335:
    [const [elemRemaps, codeSpecRemaps, aspectRemaps] = ["codespec", "element", "aspect"].map(...)],
    the first map is filled from [temp.codespec_remap] and the second from
    [temp.element_remap]. *)
Definition make_remapper (element_remap codespec_remap aspect_remap : gmap Z Z) : Remapper :=
  let loaded := remaps <$> [codespec_remap; element_remap; aspect_remap] in
  let elemRemaps := default [] (loaded !! 0%nat) in
  let codeSpecRemaps := default [] (loaded !! 1%nat) in
  let aspectRemaps := default [] (loaded !! 2%nat) in
  {| findTargetElementId := lookup_or_invalid elemRemaps;
     findTargetAspectId := lookup_or_invalid aspectRemaps;
     findTargetCodeSpecId := lookup_or_invalid codeSpecRemaps |}.

End TwoPassRemapper.

(** The column [_j] of the class's select that an expression of the
    remapping select reads (lines 294-327): the argument of the property
    transform, the [idExpr] of [remapSql], the [sc.Id=[_j]] of the class
    lookup, or the column that is copied. *)
Module Synthesized.

Definition read_column (e : RunCompressed.RemappedExpr) : option nat :=
  match e with
  | RunCompressed.Transformed _ j | RunCompressed.TargetClassId j | RunCompressed.Copied j =>
      Some j
  | RunCompressed.Remapped q =>
      match Sql.where_ q with
      | Sql.Between (Sql.Outer j) _ _ => Some j
      | _ => None
      end
  end.

End Synthesized.

(* ===================================================================== *)
(** ** Concrete inputs, for the examples below *)
(* ===================================================================== *)

Module Examples.

Definition empty_iModel : IModel := mkIModel [] [] [] [] [] ∅ [].

(** A world whose element table is {0 -> 0, 5..7 -> 0x41..0x43} and whose
    [temp.element_remap] was just created. *)
Definition table_world : RunCompressed.World :=
  RunCompressed.set_table RemapType.element
    (CompactRemapTable.remap 7 0x43
       (CompactRemapTable.remap 6 0x42
          (CompactRemapTable.remap 5 0x41
             (CompactRemapTable.remap 0 0 CompactRemapTable.empty))))
    (RunCompressed.set_temp (insert "element_remap"%string [])
       (RunCompressed.start empty_iModel ∅)).

(** An allocation about to walk the readers [[5; 9]], [[7]] and [[6]]: the
    table was seeded with 0 -> 0 and the counter stands at 0x41. *)
Definition seeded_alloc : RunCompressed.Alloc :=
  RunCompressed.mkAlloc 0x41 (CompactRemapTable.remap 0 0 CompactRemapTable.empty).

(** A clone context with a rule for an element, a rule for a code spec, and
    a rule recorded under the invalid identifier in each map. *)
Definition clone_context : CloneContext.IModelElementCloneContext :=
  CloneContext.remapElement CloneContext.Id64_invalid "0x5"
    (CloneContext.remapElement "0x1" "0x2"
       (CloneContext.remapCodeSpecIds CloneContext.Id64_invalid "0x6"
          (CloneContext.remapCodeSpecIds "0x3" "0x4" CloneContext.new))).

(** A source with three elements beside the root, aspects and a
    relationship, and two code specs. *)
Definition source_iModel : IModel :=
  {| bis_Element :=
       [mkInstance 0x1 "BisCore.Subject"; mkInstance 0x20 "Generic.PhysicalObject";
        mkInstance 0x11 "Generic.PhysicalObject"; mkInstance 0x10 "BisCore.DefinitionPartition"];
     bis_ElementMultiAspect := [mkInstance 5 "Test.MultiAspect"; mkInstance 9 "Test.MultiAspect"];
     bis_ElementUniqueAspect := [mkInstance 7 "Test.UniqueAspect"];
     bis_ElementRefersToElements := [mkInstance 6 "Test.Refers"];
     bis_CodeSpec := [mkCodeSpec 1 "bis:NullCodeSpec" "{}"; mkCodeSpec 5 "X" "{}"];
     be_Local := ∅;
     sqlite_master := [] |}.


(** A target with the root element, the code spec "X" under another
    identifier than in the source, and two triggers. *)
Definition target_iModel : IModel :=
  {| bis_Element := [mkInstance 0x1 "BisCore.Subject"];
     bis_ElementMultiAspect := [];
     bis_ElementUniqueAspect := [];
     bis_ElementRefersToElements := [];
     bis_CodeSpec := [mkCodeSpec 1 "bis:NullCodeSpec" "{}"; mkCodeSpec 9 "X" "{}"];
     be_Local := <["bis_elementidsequence"%string := 0x30]>
                   (<["ec_instanceidsequence"%string := 0x40]> ∅);
     sqlite_master :=
       [mkTrigger "dgn_fts_ai" "CREATE TRIGGER dgn_fts_ai AFTER INSERT ON ...";
        mkTrigger "dgn_rtree_upd" "CREATE TRIGGER dgn_rtree_upd AFTER UPDATE ON ..."] |}.

(** A concrete class with an array-valued property among others. *)
Definition physicalObject : RunCompressed.ECClass :=
  RunCompressed.mkECClass "PhysicalObject" "Generic.PhysicalObject"
    SchemaItemType.EntityClass ECClassModifier.None_
    [RunCompressed.mkProp "Parent" PropertyType.Navigation None;
     RunCompressed.mkProp "Tags" PropertyType.String_Array None;
     RunCompressed.mkProp "UserLabel" PropertyType.String_ None]
    false.

Definition env : RunCompressed.Env :=
  {| RunCompressed.source := source_iModel;
     RunCompressed.fontRemaps := [(1, 3)];
     RunCompressed.schemas := [RunCompressed.mkSchema "Generic" "1.0.0" [physicalObject]] |}.


(** A store that cannot attach the source file. *)
Definition unattached_start : RunCompressed.World :=
  RunCompressed.set_refused
    (fun statement =>
       match statement with
       | RunCompressed.AttachSource => Some (StoreError "unable to open database file")
       | _ => None
       end)
    (RunCompressed.start target_iModel ∅).

(** A class of the two-pass revision: [Model] is a navigation property that
    is read-only, [Parent] and [CodeSpec] are navigation properties that can
    be written. *)
Definition node : JsonTwoPhase.ECClass :=
  JsonTwoPhase.mkECClass "Test.Node"
    [JsonTwoPhase.mkProp "Model" PropertyType.Navigation true;
     JsonTwoPhase.mkProp "Parent" PropertyType.Navigation false;
     JsonTwoPhase.mkProp "CodeSpec" PropertyType.Navigation false;
     JsonTwoPhase.mkProp "CodeValue" PropertyType.String_ false;
     JsonTwoPhase.mkProp "UserLabel" PropertyType.String_ false]
    false.

Definition idref (id : string) : JsonTwoPhase.Json :=
  JsonTwoPhase.JObject [("Id"%string, JsonTwoPhase.JString id)].

(** Two elements of the dictionary model 0x10, each the parent of the
    other. *)
Definition node_A : JsonTwoPhase.SourceRow :=
  JsonTwoPhase.mkSourceRow
    (JsonTwoPhase.JObject
       [("ECInstanceId", JsonTwoPhase.JString "0x20"); ("Model", idref "0x10");
        ("Parent", idref "0x21"); ("CodeSpec", idref "0x5");
        ("CodeValue", JsonTwoPhase.JString "a"); ("UserLabel", JsonTwoPhase.JString "A")]%string)
    "Test.Node" 0x20.

Definition node_B : JsonTwoPhase.SourceRow :=
  JsonTwoPhase.mkSourceRow
    (JsonTwoPhase.JObject
       [("ECInstanceId", JsonTwoPhase.JString "0x21"); ("Model", idref "0x10");
        ("Parent", idref "0x20"); ("CodeSpec", idref "0x5");
        ("CodeValue", JsonTwoPhase.JString "b"); ("UserLabel", JsonTwoPhase.JString "B")]%string)
    "Test.Node" 0x21.

Definition two_pass_env : JsonTwoPhase.Env :=
  {| JsonTwoPhase.classes := [node];
     JsonTwoPhase.source_codeSpecs := [mkCodeSpec 5 "X" "{}"; mkCodeSpec 6 "Y" "{}"];
     JsonTwoPhase.source_elements :=
       [node_B; node_A; JsonTwoPhase.mkSourceRow JsonTwoPhase.JNull "BisCore.Subject" 0x1] |}.

(** The target before a run of the two-pass revision: the root element, the
    code spec "X", and 0x30 the next identifier of the store's sequence. *)
Definition two_pass_start : JsonTwoPhase.World :=
  JsonTwoPhase.start [JsonTwoPhase.mkRow 0x1 "BisCore.Subject" []] [mkCodeSpec 9 "X" "{}"] 0x30.

(** The world of that run when the first pass begins: the code spec "Y" was
    inserted as 0x30. *)
Definition two_pass_world : JsonTwoPhase.World :=
  {| JsonTwoPhase.elements := [JsonTwoPhase.mkRow 0x1 "BisCore.Subject" []];
     JsonTwoPhase.codeSpecs := [mkCodeSpec 9 "X" "{}"; mkCodeSpec 0x30 "Y" "{}"];
     JsonTwoPhase.next_instance_id := 0x31;
     JsonTwoPhase.element_remap := <[0x10 := 0x10]> (<[0xe := 0xe]> (<[0x1 := 0x1]> ∅));
     JsonTwoPhase.codespec_remap := <[6 := 0x30]> (<[5 := 9]> ∅) |}.

(** The class data of a class of two properties, as [getClassDatas] keys it. *)
Definition keyed_classDatas : list (string * RunCompressed.ClassData) :=
  [("Generic.PhysicalObject"%string,
    RunCompressed.mkClassData "Generic@1.0.0"
      [RunCompressed.mkProp "ECInstanceId" PropertyType.Long None;
       RunCompressed.mkProp "Weight" PropertyType.Double None]
      RootType.element)].

(** A class with a point, a navigation property and the geometry stream,
    which [bulkInsertTransform] is asked to transform. *)
Definition placed_properties : list RunCompressed.PropInfo :=
  [RunCompressed.mkProp "ECInstanceId" PropertyType.Long None;
   RunCompressed.mkProp "Origin" PropertyType.Point3d None;
   RunCompressed.mkProp "Category" PropertyType.Navigation None;
   RunCompressed.mkProp "GeometryStream" PropertyType.Binary None].



End Examples.

(* ===================================================================== *)
(** * Properties *)
(* ===================================================================== *)

(* ===================================================================== *)
(** ** The remap table behaves as a finite map *)
(* ===================================================================== *)

Section RemapTableFacts.
Import CompactRemapTable.

Lemma wf_from_weaken lo lo' T : lo' <= lo -> wf_from lo T -> wf_from lo' T.
Proof. destruct T as [|r rest]; simpl; [done|]. intros ? (? & ? & ?). repeat split; [lia|done..]. Qed.

Lemma get_below lo T x : wf_from lo T -> x < lo -> get T x = None.
Proof.
  destruct T as [|r rest]; simpl; [done|]. intros (Hlo & _ & _) Hx.
  destruct (Z.ltb_spec x (from r)); [done|lia].
Qed.

Lemma get_cons r rest x :
  0 < length r -> wf_from (from r + length r) rest ->
  get (r :: rest) x = if covers r x then Some (image r x) else get rest x.
Proof.
  intros Hlen Hwf. simpl. unfold covers.
  destruct (Z.ltb_spec x (from r)), (Z.leb_spec (from r) x); try lia; simpl.
  - symmetry. apply (get_below _ _ _ Hwf). lia.
  - done.
Qed.

Lemma get_coalesce a T x :
  0 < length a -> wf_from (from a + length a) T ->
  get (coalesce a T) x = if covers a x then Some (image a x) else get T x.
Proof.
  intros Hlen Hwf. destruct T as [|b rest]; cbn [coalesce]; [by rewrite get_cons|]. destruct (continues a b) eqn:Hc; [|by rewrite get_cons].
  apply andb_true_iff in Hc as [Hf Ht]. apply Z.eqb_eq in Hf, Ht.
  destruct Hwf as (_ & Hb & Hrest).
  rewrite get_cons; cbn [from to length]; [|lia|by rewrite Z.add_assoc, <- Hf].
  rewrite (get_cons b) by done. unfold covers, image; simpl.
  destruct (Z.leb_spec (from a) x), (Z.ltb_spec x (from a + length a)),
    (Z.ltb_spec x (from a + (length a + length b))), (Z.leb_spec (from b) x),
    (Z.ltb_spec x (from b + length b)); simpl; try lia; try done.
  f_equal. lia.
Qed.

Lemma wf_coalesce lo a T :
  lo <= from a -> 0 < length a -> wf_from (from a + length a) T ->
  wf_from lo (coalesce a T).
Proof.
  intros Hlo Hlen Hwf. destruct T as [|b rest]; cbn [coalesce]; [done|].
  destruct (continues a b) eqn:Hc; [|done].
  apply andb_true_iff in Hc as [Hf Ht]. apply Z.eqb_eq in Hf, Ht.
  destruct Hwf as (_ & Hb & Hrest). simpl. repeat split; [done|lia|].
  by rewrite Z.add_assoc, <- Hf.
Qed.

Lemma get_cons_run a T x :
  0 <= length a -> wf_from (from a + length a) T ->
  get (cons_run a T) x = if covers a x then Some (image a x) else get T x.
Proof.
  intros Hlen Hwf. unfold cons_run. destruct (Z.leb_spec (length a) 0).
  - unfold covers. destruct (Z.leb_spec (from a) x), (Z.ltb_spec x (from a + length a)); simpl; try done; lia.
  - apply get_coalesce; [lia|done].
Qed.

Lemma wf_cons_run lo a T :
  lo <= from a -> 0 <= length a -> wf_from (from a + length a) T ->
  wf_from lo (cons_run a T).
Proof.
  intros Hlo Hlen Hwf. unfold cons_run. destruct (Z.leb_spec (length a) 0).
  - eapply wf_from_weaken; [|done]. lia.
  - apply wf_coalesce; [done|lia|done].
Qed.

Lemma wf_overwrite lo r s t rest :
  lo <= from r -> from r <= s < from r + length r ->
  wf_from (from r + length r) rest ->
  wf_from lo (overwrite r s t rest).
Proof.
  intros Hlo Hs Hwf. unfold overwrite.
  apply wf_cons_run; simpl; [done|lia|].
  apply wf_cons_run; simpl; [lia|lia|].
  apply wf_cons_run; simpl; [lia|lia|].
  eapply wf_from_weaken; [|done]. lia.
Qed.

Lemma get_overwrite r s t rest x :
  from r <= s < from r + length r ->
  wf_from (from r + length r) rest ->
  get (overwrite r s t rest) x = if x =? s then Some t else get (r :: rest) x.
Proof.
  intros Hs Hwf. unfold overwrite.
  assert (Hw3 : wf_from (s + 1 + (from r + length r - (s + 1))) rest)
    by (eapply wf_from_weaken; [|done]; lia).
  rewrite get_cons_run; cbn [from to length]; [|lia|].
  2:{ replace (from r + (s - from r)) with s by lia.
      apply wf_cons_run; cbn [from to length]; [lia|lia|].
      apply wf_cons_run; cbn [from to length]; [lia|lia|done]. }
  rewrite get_cons_run; cbn [from to length]; [|lia|apply wf_cons_run; cbn [from to length]; [lia|lia|done]].
  rewrite get_cons_run; cbn [from to length]; [|lia|done].
  rewrite (get_cons r) by (done || lia).
  unfold covers, image; simpl.
  destruct (Z.eqb_spec x s), (Z.leb_spec (from r) x), (Z.ltb_spec x (from r + (s - from r))),
    (Z.leb_spec s x), (Z.ltb_spec x (s + 1)), (Z.leb_spec (s + 1) x),
    (Z.ltb_spec x (s + 1 + (from r + length r - (s + 1)))),
    (Z.ltb_spec x (from r + length r)); cbn [from to length]; try lia; try done; f_equal; lia.
Qed.

Lemma remap_spec_from lo s t T :
  wf_from lo T ->
  wf_from (Z.min lo s) (remap s t T) /\
  forall x, get (remap s t T) x = if x =? s then Some t else get T x.
Proof.
  revert lo. induction T as [|r rest IH]; intros lo Hwf.
  - simpl. split; [lia|]. intros x.
    destruct (Z.eqb_spec x s), (Z.ltb_spec x s), (Z.ltb_spec x (s + 1)); try lia; try done.
    unfold image; simpl. f_equal. lia.
  - destruct Hwf as (Hlo & Hlen & Hrest). cbn [remap].
    destruct (Z.ltb_spec s (from r)); [|destruct (Z.ltb_spec s (from r + length r))].
    + split.
      * apply wf_coalesce; simpl; [lia|lia|]. repeat split; [lia|done..].
      * intros x. rewrite get_coalesce; simpl; [|lia|repeat split; [lia|done..]].
        unfold covers, image; simpl.
        destruct (Z.eqb_spec x s), (Z.leb_spec s x), (Z.ltb_spec x (s + 1)),
          (Z.ltb_spec x (from r)); simpl; try lia; try done. f_equal; lia.
    + split.
      * apply wf_overwrite; [lia|lia|done].
      * intros x. by apply get_overwrite.
    + destruct (IH _ Hrest) as [Hwf' Hget]. split.
      * apply wf_coalesce; [lia|done|]. eapply wf_from_weaken; [|done]. lia.
      * intros x. rewrite get_coalesce; [|done|eapply wf_from_weaken; [|done]; lia].
        rewrite Hget, (get_cons r) by done. unfold covers.
        destruct (Z.eqb_spec x s), (Z.leb_spec (from r) x), (Z.ltb_spec x (from r + length r));
          simpl; try lia; done.
Qed.

(** [remap] keeps the invariant. *)
Lemma wf_remap s t T : wf T -> wf (remap s t T).
Proof. intros [lo Hwf]. exists (Z.min lo s). by apply (remap_spec_from lo). Qed.

(** [remap] sets exactly one identifier. *)
Lemma get_remap s t T x :
  wf T -> get (remap s t T) x = if x =? s then Some t else get T x.
Proof. intros [lo Hwf]. by apply (remap_spec_from lo). Qed.

Lemma wf_empty : wf empty.
Proof. by exists 0. Qed.

End RemapTableFacts.

(* ===================================================================== *)
(** ** Lookup in a remap table, and through SQL *)
(* ===================================================================== *)

Section Lookup.
Import CompactRemapTable.

(** A run of the table answers for the identifiers it holds. *)
Lemma get_in_run lo T r x :
  wf_from lo T -> r ∈ T -> from r <= x < from r + length r ->
  get T x = Some (to r + (x - from r)).
Proof.
  revert lo. induction T as [|r0 rest IH]; intros lo Hwf Hin Hx.
  - by apply elem_of_nil in Hin.
  - destruct Hwf as (Hlo & Hlen & Hrest). rewrite get_cons by done.
    apply elem_of_cons in Hin as [->|Hin].
    + unfold covers. destruct (Z.leb_spec (from r0) x), (Z.ltb_spec x (from r0 + length r0));
        simpl; try lia. done.
    + assert (Hr : from r0 + length r0 <= from r).
      { clear IH Hx. revert Hrest Hin. generalize (from r0 + length r0).
        induction rest as [|r1 rest IH1]; intros lo1 Hwf1 Hin1.
        - by apply elem_of_nil in Hin1.
        - destruct Hwf1 as (? & ? & ?). apply elem_of_cons in Hin1 as [->|Hin1]; [done|].
          etrans; [|by eapply IH1]. lia. }
      unfold covers. destruct (Z.leb_spec (from r0) x), (Z.ltb_spec x (from r0 + length r0));
        simpl; try lia; by eapply IH.
Qed.

(** An identifier that no run holds is unmapped. *)
Lemma get_no_run T x :
  (forall r, r ∈ T -> ~ (from r <= x < from r + length r)) -> get T x = None.
Proof.
  induction T as [|r0 rest IH]; intros Hno; simpl; [done|].
  destruct (Z.ltb_spec x (from r0)); [done|].
  destruct (Z.ltb_spec x (from r0 + length r0)).
  - exfalso. apply (Hno r0); [left|lia].
  - apply IH. intros r Hr. apply Hno. by right.
Qed.

Lemma get_Some_run T x y :
  get T x = Some y -> exists r, r ∈ T /\ from r <= x < from r + length r /\ y = to r + (x - from r).
Proof.
  induction T as [|r0 rest IH]; simpl; [done|].
  destruct (Z.ltb_spec x (from r0)); [done|].
  destruct (Z.ltb_spec x (from r0 + length r0)).
  - intros [= <-]. exists r0. split; [left|]. done.
  - intros Hg. destruct (IH Hg) as (r & ? & ? & ?). exists r. split; [by right|done].
Qed.

Lemma eval_remapSql_where outer row idExpr ty v :
  (forall row', Sql.eval outer row' idExpr = v) ->
  Sql.truthy (Sql.eval outer row (Sql.where_ (RunCompressed.remapSql idExpr ty))) =
  match v with
  | Some x => (Sql.SourceId row <=? x) && (x <=? Sql.SourceId row + Sql.Length row - 1)
  | None => false
  end.
Proof.
  intros Hv. cbn. rewrite Hv. destruct v as [x|]; cbn; [|done].
  destruct (Z.leb_spec (Sql.SourceId row) x), (Z.leb_spec x (Sql.SourceId row + Sql.Length row - 1));
    done.
Qed.

Lemma eval_remapSql_result outer row idExpr ty v :
  (forall row', Sql.eval outer row' idExpr = v) ->
  Sql.eval outer row (Sql.result (RunCompressed.remapSql idExpr ty)) =
  (fun x => Sql.TargetId row + (x - Sql.SourceId row)) <$> v.
Proof. intros Hv. cbn. rewrite Hv. by destruct v. Qed.

(** The lookup statement over the loaded rows of a table is [get]. *)
Lemma eval_scalar_remapSql lo T temp outer idExpr ty x :
  wf_from lo T ->
  temp !! (RemapType.name ty ++ "_remap")%string = Some (RunCompressed.row_of_run <$> T) ->
  (forall row, Sql.eval outer row idExpr = Some x) ->
  Sql.eval_scalar temp outer (RunCompressed.remapSql idExpr ty) = get T x.
Proof.
  intros Hwf Htemp Hv. unfold Sql.eval_scalar.
  change (Sql.from_table (RunCompressed.remapSql idExpr ty))
    with (RemapType.name ty ++ "_remap")%string.
  rewrite Htemp. cbn [default from_option id]. clear Htemp. revert lo Hwf.
  induction T as [|r rest IH]; intros lo Hwf; [done|].
  destruct Hwf as (Hlo & Hlen & Hrest). rewrite fmap_cons. cbn [List.find].
  rewrite (eval_remapSql_where _ _ _ _ _ Hv). cbn [RunCompressed.row_of_run Sql.SourceId Sql.Length get].
  destruct (Z.ltb_spec x (from r)).
  - destruct (Z.leb_spec (from r) x); [lia|]. cbn [andb].
    erewrite IH by done. apply (get_below _ _ _ Hrest). lia.
  - destruct (Z.leb_spec (from r) x); [|lia]. cbn [andb].
    destruct (Z.ltb_spec x (from r + length r)), (Z.leb_spec x (from r + length r - 1)); try lia.
    + by rewrite (eval_remapSql_result _ _ _ _ _ Hv).
    + by eapply IH.
Qed.

Lemma eval_scalar_remapSql_null temp outer idExpr ty :
  (forall row, Sql.eval outer row idExpr = None) ->
  Sql.eval_scalar temp outer (RunCompressed.remapSql idExpr ty) = None.
Proof.
  intros Hv. unfold Sql.eval_scalar.
  induction (default [] (temp !! Sql.from_table (RunCompressed.remapSql idExpr ty)))
    as [|r rest IH]; [done|].
  cbn [List.find]. by rewrite (eval_remapSql_where _ _ _ _ _ Hv).
Qed.

(** Rows of ascending runs go to the end of the table, one after the other. *)
Lemma insert_row_last rows r :
  (forall r', r' ∈ rows -> Sql.SourceId r' < Sql.SourceId r) ->
  Sql.insert_row r rows = Some (rows ++ [r]).
Proof.
  induction rows as [|r0 rest IH]; intros Hlt; [done|]. simpl.
  assert (Sql.SourceId r0 < Sql.SourceId r) by (apply Hlt; left).
  destruct (Z.ltb_spec (Sql.SourceId r) (Sql.SourceId r0)); [lia|].
  destruct (Z.eqb_spec (Sql.SourceId r) (Sql.SourceId r0)); [lia|].
  rewrite IH; [done|]. intros r' Hr'. apply Hlt. by right.
Qed.

End Lookup.

(* ===================================================================== *)
(** ** Steps of a run: what a sequence leaves *)
(* ===================================================================== *)

Section Steps.
Context {W : Type}.

Lemma bind_Ok {A B} (m : M W A) (k : A -> M W B) w w' a :
  m w = (w', Ok a) -> bind m k w = k a w'.
Proof. unfold bind. by intros ->. Qed.

Lemma bind_Throw {A B} (m : M W A) (k : A -> M W B) w w' e :
  m w = (w', Throw e) -> bind m k w = (w', Throw e).
Proof. unfold bind. by intros ->. Qed.

(** A property of the world that every step keeps is kept by a sequence. *)
Lemma bind_keeps {A B} (P : W -> Prop) (m : M W A) (k : A -> M W B) w :
  P w -> (forall w, P w -> P (m w).1) -> (forall a w, P w -> P (k a w).1) ->
  P (bind m k w).1.
Proof.
  intros Hw Hm Hk. unfold bind. specialize (Hm w Hw).
  destruct (m w) as [w' [a|e]]; simpl in *; [by apply Hk|done].
Qed.

Lemma for_each_keeps {A} (P : W -> Prop) (xs : list A) (body : A -> M W unit) w :
  P w -> (forall x w, x ∈ xs -> P w -> P (body x w).1) -> P (for_each xs body w).1.
Proof.
  revert w. induction xs as [|x xs IH]; intros w Hw Hbody; simpl; [done|].
  apply bind_keeps; [done| |].
  - intros w1. apply Hbody. left.
  - intros _ w1 Hw1. apply IH; [done|]. intros x' w2 Hx'. apply Hbody. by right.
Qed.

(** A loop whose turns all end well ends well. *)
Lemma for_each_Ok {A} (P : W -> Prop) (xs : list A) (body : A -> M W unit) w :
  P w -> (forall x w, x ∈ xs -> P w -> P (body x w).1 /\ (body x w).2 = Ok tt) ->
  P (for_each xs body w).1 /\ (for_each xs body w).2 = Ok tt.
Proof.
  revert w. induction xs as [|x xs IH]; intros w Hw Hbody; simpl; [done|].
  destruct (Hbody x w) as [H1 H2]; [left|done|].
  unfold bind. destruct (body x w) as [w1 r1]; simpl in *. subst r1.
  apply IH; [done|]. intros x' w2 Hx'. apply Hbody. by right.
Qed.

End Steps.

(* ===================================================================== *)
(** ** C2: lookup in a loaded remap table *)
(* ===================================================================== *)

Section LoadedTable.
Import CompactRemapTable RunCompressed.

Lemma insert_runs ty T : forall lo rows w,
  wf_from lo T ->
  temp w !! (RemapType.name ty ++ "_remap")%string = Some rows ->
  (forall r, r ∈ rows -> Sql.SourceId r < lo) ->
  (for_each T (insert_run ty) w).2 = Ok tt /\
  temp (for_each T (insert_run ty) w).1 !! (RemapType.name ty ++ "_remap")%string
    = Some (rows ++ (row_of_run <$> T)) /\
  remapTables (for_each T (insert_run ty) w).1 = remapTables w.
Proof.
  induction T as [|r rest IH]; intros lo rows w Hwf Htemp Hrows.
  - simpl. by rewrite app_nil_r.
  - destruct Hwf as (Hlo & Hlen & Hrest). cbn [for_each].
    assert (Hstep : insert_run ty r w =
      (set_temp (insert (RemapType.name ty ++ "_remap")%string (rows ++ [row_of_run r])) w, Ok tt)).
    { unfold insert_run. rewrite Htemp, insert_row_last; [done|].
      intros r' Hr'. specialize (Hrows r' Hr'). simpl. lia. }
    rewrite (bind_Ok _ _ _ _ _ Hstep).
    destruct (IH (from r + length r) (rows ++ [row_of_run r])
                (set_temp (insert (RemapType.name ty ++ "_remap")%string (rows ++ [row_of_run r])) w))
      as (H1 & H2 & H3); [done|by cbn [temp set_temp]; rewrite lookup_insert_eq| |].
    + intros r' [Hr'| ->%list_elem_of_singleton]%elem_of_app.
      * specialize (Hrows r' Hr'). lia.
      * simpl. lia.
    + split; [done|]. split; [|done]. by rewrite H2, <- app_assoc.
Qed.

(** Loading a table (lines 709-722) gives SQL the rows of its runs. *)
Lemma load_table_rows ty w :
  wf (remapTables w ty) ->
  temp w !! (RemapType.name ty ++ "_remap")%string = Some [] ->
  (load_table ty w).2 = Ok tt /\
  temp (load_table ty w).1 !! (RemapType.name ty ++ "_remap")%string
    = Some (row_of_run <$> remapTables w ty) /\
  remapTables (load_table ty w).1 = remapTables w.
Proof.
  intros [lo Hwf] Htemp. unfold load_table, bind, gets, runs.
  apply (insert_runs ty _ lo [] w Hwf Htemp). intros r Hr. by apply elem_of_nil in Hr.
Qed.

(** C2 (lookup correctness).  Let the table [remapTables[ty]] satisfy the
    data-model invariant and be loaded into [temp.<ty>_remap] as the run
    does.  For every run (from, to, length) of the table and every
    [sourceId] in [from, from+length), [get], the SQL lookup [remapSql] and
    the getter of the remapper give [to + (sourceId - from)]; for a
    [sourceId] that no run holds they give "unmapped" ([undefined], [NULL],
    and the getter's ["0"]). *)
Theorem C2_lookup_correctness (ty : RemapType.t) (w : World) :
  wf (remapTables w ty) ->
  temp w !! (RemapType.name ty ++ "_remap")%string = Some [] ->
  let T := remapTables w ty in
  let loaded := load_table ty w in
  loaded.2 = Ok tt /\
  forall (sourceId : Z) (outer : nat -> Sql.value) (idExpr : Sql.expr) (id : string),
    (forall row, Sql.eval outer row idExpr = Some sourceId) ->
    Js.parseInt16 id = Some sourceId ->
    (forall r, r ∈ runs T -> from r <= sourceId < from r + length r ->
       get T sourceId = Some (to r + (sourceId - from r)) /\
       Sql.eval_scalar (temp loaded.1) outer (remapSql idExpr ty)
         = Some (to r + (sourceId - from r)) /\
       makeGetter T id =
         (if to r + (sourceId - from r) =? 0 then "0"%string
          else ("0x" ++ Js.toString16 (to r + (sourceId - from r)))%string)) /\
    ((forall r, r ∈ runs T -> ~ (from r <= sourceId < from r + length r)) ->
       get T sourceId = None /\
       Sql.eval_scalar (temp loaded.1) outer (remapSql idExpr ty) = None /\
       makeGetter T id = "0"%string).
Proof.
  intros Hwf Htemp T loaded.
  destruct (load_table_rows ty w Hwf Htemp) as (Hok & Hrows & _).
  split; [done|]. intros sourceId outer idExpr id Hid Hparse.
  destruct Hwf as [lo Hwf].
  assert (Hsql : Sql.eval_scalar (temp loaded.1) outer (remapSql idExpr ty) = get T sourceId)
    by (by eapply eval_scalar_remapSql).
  split.
  - intros r Hr Hx. assert (Hget := get_in_run lo T r sourceId Hwf Hr Hx).
    rewrite Hsql. repeat split; [done..|].
    unfold makeGetter. rewrite Hparse. fold T. rewrite Hget.
    by destruct (to r + (sourceId - from r)).
  - intros Hno. assert (Hget := get_no_run T sourceId Hno).
    rewrite Hsql. repeat split; [done..|].
    unfold makeGetter. rewrite Hparse. fold T. by rewrite Hget.
Qed.

(** C2 at the table {0 -> 0, 5..7 -> 0x41..0x43}: 6 is in the second run,
    3 in none. *)
Lemma C2_lookup_correctness_witness :
  (load_table RemapType.element Examples.table_world).2 = Ok tt /\
  Sql.eval_scalar (temp (load_table RemapType.element Examples.table_world).1)
    (fun _ => Some 6) (remapSql (Sql.Outer 1) RemapType.element) = Some 0x42 /\
  makeGetter (remapTables Examples.table_world RemapType.element) "0x6" = "0x42"%string /\
  makeGetter (remapTables Examples.table_world RemapType.element) "0x3" = "0"%string.
Proof.
  assert (Hwf : wf (remapTables Examples.table_world RemapType.element)).
  { repeat apply wf_remap. apply wf_empty. }
  destruct (C2_lookup_correctness RemapType.element Examples.table_world Hwf eq_refl)
    as [Hok Hall].
  split; [exact Hok|].
  destruct (Hall 6 (fun _ => Some 6) (Sql.Outer 1) "0x6"%string (fun _ => eq_refl) eq_refl)
    as [Hin _].
  destruct (Hin (mkRun 5 0x41 3)) as (_ & Hsql & Hget);
    [right; left|simpl; lia|].
  destruct (Hall 3 (fun _ => Some 3) (Sql.Outer 1) "0x3"%string (fun _ => eq_refl) eq_refl)
    as [_ Hout].
  destruct Hout as (_ & _ & Hget3).
  { intros r Hr. vm_compute in Hr.
    apply elem_of_cons in Hr as [->|Hr]; [simpl; lia|].
    apply list_elem_of_singleton in Hr as ->. simpl; lia. }
  split; [exact Hsql|]. split; [exact Hget|exact Hget3].
Defined.

End LoadedTable.

(* ===================================================================== *)
(** ** JavaScript numbers *)
(* ===================================================================== *)

Section Numbers.

(** Up to [2^53] an integer is a number. *)
Lemma toNumber_exact n : - 2 ^ 53 <= n <= 2 ^ 53 -> Js.toNumber n = n.
Proof.
  intros Hn. unfold Js.toNumber. destruct (Z.ltb_spec (Z.abs n) (2 ^ 53)) as [|Habs]; [done|].
  assert (n = 2 ^ 53 \/ n = - 2 ^ 53) as [->| ->] by lia; reflexivity.
Qed.

Lemma increment_exact n : - 2 ^ 53 <= n < 2 ^ 53 -> Js.increment n = n + 1.
Proof. intros Hn. unfold Js.increment. apply toNumber_exact. lia. Qed.

(** Beyond, the number it becomes is as large. *)
Lemma toNumber_large n : 2 ^ 53 <= Z.abs n -> 2 ^ 53 <= Z.abs (Js.toNumber n).
Proof.
  intros Hn. unfold Js.toNumber. destruct (Z.ltb_spec (Z.abs n) (2 ^ 53)) as [|_]; [lia|].
  set (a := Z.abs n) in *. set (e := Z.log2 a - 52).
  assert (Ha : 0 < a) by lia.
  assert (Hlog : 53 <= Z.log2 a).
  { change 53 with (Z.log2 (2 ^ 53)). by apply Z.log2_le_mono. }
  assert (He : 1 <= e) by (unfold e; lia).
  assert (Hulp : 2 <= 2 ^ e).
  { change 2 with (2 ^ 1) at 1. apply Z.pow_le_mono_r; lia. }
  assert (Hq : 2 ^ 52 <= a / 2 ^ e).
  { apply Z.div_le_lower_bound; [lia|].
    rewrite Z.mul_comm, <- Z.pow_add_r by lia.
    replace (52 + e) with (Z.log2 a) by (unfold e; lia).
    by apply Z.log2_spec. }
  set (q := a / 2 ^ e) in *. set (r := a mod 2 ^ e).
  set (q' := if 2 * r <? 2 ^ e then q
             else if 2 ^ e <? 2 * r then q + 1 else if Z.even q then q else q + 1).
  assert (Hq' : q <= q') by (unfold q'; repeat case_match; lia).
  assert (Hprod : 2 ^ 53 <= q' * 2 ^ e).
  { change (2 ^ 53) with (2 ^ 52 * 2). apply Z.mul_le_mono_nonneg; lia. }
  set (X := q' * 2 ^ e) in *. clearbody X. clear -Ha Hprod. unfold a in Ha.
  destruct n as [|pn|pn]; cbn [Z.sgn]; lia.
Qed.

(** So a small number comes from itself only. *)
Lemma toNumber_small n k : Z.abs k < 2 ^ 53 -> Js.toNumber n = k -> n = k.
Proof.
  intros Hk <-. symmetry. apply toNumber_exact.
  destruct (Z.le_gt_cases (2 ^ 53) (Z.abs n)) as [Hn|Hn]; [|lia].
  apply toNumber_large in Hn. lia.
Qed.

Lemma as_numbers_exact (ids : list Z) :
  (forall s, s ∈ ids -> - 2 ^ 53 <= s <= 2 ^ 53) -> Js.toNumber <$> ids = ids.
Proof.
  induction ids as [|s ids IH]; intros Hids; [done|]. cbn [fmap list_fmap].
  rewrite toNumber_exact by (apply Hids; left).
  f_equal. apply IH. intros s' Hs'. apply Hids. by right.
Qed.

End Numbers.

(* ===================================================================== *)
(** ** Allocation: a counter feeding a table *)
(* ===================================================================== *)

Section Allocation.
Import CompactRemapTable RunCompressed.

Lemma remap_elements_snoc xs x a :
  remap_elements (xs ++ [x]) a = remap_next x (remap_elements xs a).
Proof. unfold remap_elements. by rewrite foldl_app. Qed.

(** While the counter stays below [2^53] it advances by one a visit. *)
Lemma next_remap_elements xs a :
  - 2 ^ 53 <= next a -> next a + Z.of_nat (Datatypes.length xs) <= 2 ^ 53 ->
  next (remap_elements xs a) = next a + Z.of_nat (Datatypes.length xs).
Proof.
  revert a. induction xs as [|x xs IH]; intros a Hlo Hhi; simpl; [lia|].
  cbn [Datatypes.length] in Hhi.
  change (remap_elements (x :: xs) a) with (remap_elements xs (remap_next x a)).
  assert (Hnext : next (remap_next x a) = next a + 1).
  { cbn [remap_next next]. apply increment_exact. lia. }
  rewrite IH; rewrite Hnext; lia.
Qed.

Lemma wf_remap_elements xs a : wf (table a) -> wf (table (remap_elements xs a)).
Proof.
  revert a. induction xs as [|x xs IH]; intros a Hwf; [done|].
  apply IH. simpl. by apply wf_remap.
Qed.

(** An identifier that was not visited keeps its mapping. *)
Lemma get_remap_elements_other xs a s :
  wf (table a) -> s ∉ xs -> get (table (remap_elements xs a)) s = get (table a) s.
Proof.
  revert a. induction xs as [|x xs IH]; intros a Hwf Hs; [done|].
  apply not_elem_of_cons in Hs as [Hne Hs].
  change (remap_elements (x :: xs) a) with (remap_elements xs (remap_next x a)).
  rewrite IH; [|by apply wf_remap|done]. simpl. rewrite get_remap by done.
  destruct (Z.eqb_spec s x); [done|done].
Qed.

(** While the counter stays below [2^53], a visited identifier is mapped
    to the counter value of its last visit. *)
Lemma get_remap_elements_visited xs a s :
  wf (table a) ->
  - 2 ^ 53 <= next a -> next a + Z.of_nat (Datatypes.length xs) <= 2 ^ 53 ->
  s ∈ xs ->
  exists i : nat,
    xs !! i = Some s /\
    get (table (remap_elements xs a)) s = Some (next a + Z.of_nat i).
Proof.
  revert a. induction xs as [|x xs IH]; intros a Hwf Hlo Hhi Hs.
  - by apply elem_of_nil in Hs.
  - change (remap_elements (x :: xs) a) with (remap_elements xs (remap_next x a)).
    cbn [Datatypes.length] in Hhi.
    assert (Hnext : next (remap_next x a) = next a + 1).
    { cbn [remap_next next]. apply increment_exact. lia. }
    destruct (decide (s ∈ xs)) as [Hin|Hnin].
    + destruct (IH (remap_next x a)) as (i & Hi & Hget);
        [by apply wf_remap|rewrite Hnext; lia|rewrite Hnext; lia|done|].
      exists (S i). split; [done|]. rewrite Hget, Hnext. f_equal. lia.
    + apply elem_of_cons in Hs as [->|Hs]; [|done].
      exists 0%nat. split; [done|].
      rewrite get_remap_elements_other; [|by apply wf_remap|done].
      cbn [remap_next table]. rewrite get_remap by done. rewrite Z.eqb_refl. f_equal. lia.
Qed.

(** Without repeated visits the mapping follows the order of the visits. *)
Lemma get_remap_elements_NoDup xs a (i : nat) s :
  wf (table a) ->
  - 2 ^ 53 <= next a -> next a + Z.of_nat (Datatypes.length xs) <= 2 ^ 53 ->
  NoDup xs -> xs !! i = Some s ->
  get (table (remap_elements xs a)) s = Some (next a + Z.of_nat i).
Proof.
  intros Hwf Hlo Hhi Hnd Hi.
  destruct (get_remap_elements_visited xs a s Hwf Hlo Hhi) as (j & Hj & Hget).
  { by eapply list_elem_of_lookup_2. }
  by rewrite (NoDup_lookup _ _ _ _ Hnd Hi Hj).
Qed.

(** Two identifiers that were visited never share a target. *)
Lemma remap_elements_injective xs a s1 s2 :
  wf (table a) ->
  - 2 ^ 53 <= next a -> next a + Z.of_nat (Datatypes.length xs) <= 2 ^ 53 ->
  s1 ∈ xs -> s2 ∈ xs -> s1 <> s2 ->
  exists t1 t2,
    get (table (remap_elements xs a)) s1 = Some t1 /\
    get (table (remap_elements xs a)) s2 = Some t2 /\
    t1 <> t2 /\ next a <= t1 < next (remap_elements xs a) /\
    next a <= t2 < next (remap_elements xs a).
Proof.
  intros Hwf Hlo Hhi H1 H2 Hne.
  destruct (get_remap_elements_visited xs a s1 Hwf Hlo Hhi H1) as (i1 & Hi1 & Hg1).
  destruct (get_remap_elements_visited xs a s2 Hwf Hlo Hhi H2) as (i2 & Hi2 & Hg2).
  exists (next a + Z.of_nat i1), (next a + Z.of_nat i2).
  apply lookup_lt_Some in Hi1 as Hl1. apply lookup_lt_Some in Hi2 as Hl2.
  rewrite next_remap_elements by done. repeat split; try done; try lia.
  intros Heq. assert (i1 = i2) by lia. subst i2. congruence.
Qed.

End Allocation.

(* ===================================================================== *)
(** ** The sorted multiwalk *)
(* ===================================================================== *)

Section Multiwalk.
Import CompactRemapTable RunCompressed.

Ltac heads :=
  repeat match goal with
    | |- context [?a =? ?b] => destruct (Z.eqb_spec a b)
    | H : context [?a =? ?b] |- _ => destruct (Z.eqb_spec a b)
    end; simpl in *; try done; try lia.

(** One turn of the walk whose heads pass the check: the least head is
    remapped and its reader advances. *)
Lemma merge_loop_turn fuel m u r a :
  all_pairs_ok [head_of u; head_of r; head_of m] = true ->
  m ++ u ++ r <> [] ->
  exists x m' u' r',
    merge_loop (S fuel) m u r a = merge_loop fuel m' u' r' (remap_next x a) /\
    ((m = x :: m' /\ u' = u /\ r' = r) \/
     (u = x :: u' /\ m' = m /\ r' = r) \/
     (r = x :: r' /\ m' = m /\ u' = u)) /\
    Forall (Z.le x) (take 1 m ++ take 1 u ++ take 1 r).
Proof.
  intros Hok Hne.
  destruct m as [|x m], u as [|y u], r as [|z r]; try done;
    cbn [merge_loop head_of head_eqb head_min andb negb] in *; rewrite Hok; cbn [negb];
    cbn in Hok; heads;
    (eexists _, _, _, _; split; [reflexivity|]; split;
     [first [left; done | right; left; done | right; right; done]
     |repeat constructor; lia]).
Qed.

(** Two readers that report the same head stop the walk where it stands. *)
Lemma merge_loop_clash fuel m u r a :
  all_pairs_ok [head_of u; head_of r; head_of m] = false ->
  merge_loop (S fuel) m u r a = Some (a, Throw (AssertionError "id1 !== id2")).
Proof.
  intros Hbad. cbn [merge_loop]. rewrite Hbad. cbn [negb].
  destruct m, u, r; try done.
Qed.

(** The walk ends within its fuel, having remapped a part of the rows in
    some order; all of them when it ends well. *)
Lemma merge_loop_ends fuel : forall m u r a,
  (Datatypes.length m + Datatypes.length u + Datatypes.length r < fuel)%nat ->
  exists visited res,
    merge_loop fuel m u r a = Some (remap_elements visited a, res) /\
    visited ⊆+ m ++ u ++ r /\
    (res = Ok tt -> visited ≡ₚ m ++ u ++ r).
Proof.
  induction fuel as [|fuel IH]; intros m u r a Hfuel; [lia|].
  destruct (all_pairs_ok [head_of u; head_of r; head_of m]) eqn:Hok.
  - destruct (decide (m ++ u ++ r = [])) as [Hnil|Hne].
    + apply app_eq_nil in Hnil as [-> [-> ->]%app_eq_nil].
      exists [], (Ok tt). done.
    + destruct (merge_loop_turn fuel m u r a Hok Hne) as (x & m' & u' & r' & Heq & Hpick & _).
      assert (Hperm : m ++ u ++ r ≡ₚ x :: (m' ++ u' ++ r')).
      { destruct Hpick as [(-> & -> & ->)|[(-> & -> & ->)|(-> & -> & ->)]]; [done| |].
        - symmetry. apply (Permutation_middle m (u' ++ r) x).
        - rewrite !app_assoc. symmetry. apply (Permutation_middle (m ++ u) r' x). }
      destruct (IH m' u' r' (remap_next x a)) as (visited & res & Hrun & Hsub & Hall).
      { apply Permutation_length in Hperm. rewrite !length_app in Hperm.
        simpl in Hperm. rewrite !length_app in Hperm. lia. }
      exists (x :: visited), res. rewrite Heq, Hrun. split; [done|]. split.
      * rewrite Hperm. by constructor.
      * intros Hres. rewrite Hperm. constructor. by apply Hall.
  - exists [], (Throw (AssertionError "id1 !== id2")).
    rewrite merge_loop_clash by done. split; [done|]. split; [|done].
    apply submseteq_nil_l.
Qed.

Lemma Forall_le_sorted x l :
  Forall (Z.le x) (take 1 l) -> StronglySorted Z.lt l -> Forall (Z.le x) l.
Proof.
  destruct l as [|y l]; [done|]. intros [Hxy _]%Forall_cons [Hl Hy]%StronglySorted_inv.
  constructor; [done|]. eapply Forall_impl; [done|]. simpl. lia.
Qed.

Lemma StronglySorted_lt l : Sorted Z.le l -> NoDup l -> StronglySorted Z.lt l.
Proof.
  intros Hs%Sorted_StronglySorted; [|intros ???; lia].
  induction Hs as [|x l Hl IH Hx]; intros Hnd; [constructor|].
  apply NoDup_cons in Hnd as [Hnin Hnd]. constructor; [by apply IH|].
  apply Forall_forall. intros y Hy.
  assert (x <> y) by (intros ->; done).
  rewrite Forall_forall in Hx. specialize (Hx y Hy). lia.
Qed.

Lemma all_pairs_ok_NoDup m u r :
  NoDup (m ++ u ++ r) -> all_pairs_ok [head_of u; head_of r; head_of m] = true.
Proof.
  destruct m as [|x m], u as [|y u], r as [|z r]; try done; cbn;
    intros Hnd; heads; subst; exfalso; revert Hnd; clear;
    rewrite ?NoDup_cons, ?NoDup_app, ?NoDup_cons; set_solver.
Qed.

(** Ascending readers without a common row: the walk ends well and its
    visits ascend. *)
Lemma merge_loop_sorted fuel : forall m u r a,
  (Datatypes.length m + Datatypes.length u + Datatypes.length r < fuel)%nat ->
  StronglySorted Z.lt m -> StronglySorted Z.lt u -> StronglySorted Z.lt r ->
  NoDup (m ++ u ++ r) ->
  exists visited,
    merge_loop fuel m u r a = Some (remap_elements visited a, Ok tt) /\
    visited ≡ₚ m ++ u ++ r /\
    StronglySorted Z.lt visited.
Proof.
  induction fuel as [|fuel IH]; intros m u r a Hfuel Hm Hu Hr Hnd; [lia|].
  destruct (decide (m ++ u ++ r = [])) as [Hnil|Hne].
  { apply app_eq_nil in Hnil as [-> [-> ->]%app_eq_nil]. exists []. repeat split; constructor. }
  destruct (merge_loop_turn fuel m u r a (all_pairs_ok_NoDup m u r Hnd) Hne)
    as (x & m' & u' & r' & Heq & Hpick & Hmin).
  apply Forall_app in Hmin as [Hminm [Hminu Hminr]%Forall_app].
  apply Forall_le_sorted in Hminm; [|done].
  apply Forall_le_sorted in Hminu; [|done].
  apply Forall_le_sorted in Hminr; [|done].
  assert (Hperm : m ++ u ++ r ≡ₚ x :: (m' ++ u' ++ r')).
  { destruct Hpick as [(-> & -> & ->)|[(-> & -> & ->)|(-> & -> & ->)]]; [done| |].
    - symmetry. apply (Permutation_middle m (u' ++ r) x).
    - rewrite !app_assoc. symmetry. apply (Permutation_middle (m ++ u) r' x). }
  assert (Hsorted' : StronglySorted Z.lt m' /\ StronglySorted Z.lt u' /\ StronglySorted Z.lt r').
  { destruct Hpick as [(-> & -> & ->)|[(-> & -> & ->)|(-> & -> & ->)]];
      repeat split; try done;
      match goal with H : StronglySorted _ (_ :: _) |- _ =>
        by apply StronglySorted_inv in H as [? _] end. }
  destruct Hsorted' as (Hm' & Hu' & Hr').
  assert (Hnd' : NoDup (x :: (m' ++ u' ++ r'))) by (by rewrite <- Hperm).
  apply NoDup_cons in Hnd' as [Hx Hnd'].
  destruct (IH m' u' r' (remap_next x a)) as (visited & Hrun & Hvis & Hsort); try done.
  { apply Permutation_length in Hperm. rewrite !length_app in Hperm.
    simpl in Hperm. rewrite !length_app in Hperm. lia. }
  exists (x :: visited). rewrite Heq, Hrun. split; [done|]. split.
  - rewrite Hperm. by constructor.
  - constructor; [done|]. apply Forall_forall. intros y Hy.
    rewrite Hvis in Hy. assert (x <> y) by (intros ->; done).
    assert (Hall : Forall (Z.le x) (m ++ u ++ r)) by (by rewrite !Forall_app).
    rewrite Forall_forall in Hall.
    assert (x <= y); [|lia]. apply Hall. rewrite Hperm. by right.
Qed.

(** An identifier that two ascending readers both hold stops the walk. *)
Lemma merge_loop_shared fuel : forall m u r a v,
  (Datatypes.length m + Datatypes.length u + Datatypes.length r < fuel)%nat ->
  StronglySorted Z.lt m -> StronglySorted Z.lt u -> StronglySorted Z.lt r ->
  (v ∈ m /\ v ∈ u) \/ (v ∈ m /\ v ∈ r) \/ (v ∈ u /\ v ∈ r) ->
  exists a', merge_loop fuel m u r a = Some (a', Throw (AssertionError "id1 !== id2")).
Proof.
  induction fuel as [|fuel IH]; intros m u r a v Hfuel Hm Hu Hr Hv; [lia|].
  destruct (all_pairs_ok [head_of u; head_of r; head_of m]) eqn:Hok.
  2:{ exists a. by apply merge_loop_clash. }
  assert (Hne : m ++ u ++ r <> []).
  { intros Hnil. apply app_eq_nil in Hnil as [-> [-> ->]%app_eq_nil]. set_solver. }
  destruct (merge_loop_turn fuel m u r a Hok Hne) as (x & m' & u' & r' & Heq & Hpick & Hmin).
  apply Forall_app in Hmin as [Hminm [Hminu Hminr]%Forall_app].
  apply Forall_le_sorted in Hminm; [|done].
  apply Forall_le_sorted in Hminu; [|done].
  apply Forall_le_sorted in Hminr; [|done].
  rewrite Forall_forall in Hminm, Hminu, Hminr.
  rewrite Heq. apply (IH m' u' r' (remap_next x a) v).
  - destruct Hpick as [(-> & -> & ->)|[(-> & -> & ->)|(-> & -> & ->)]]; simpl in *; lia.
  - destruct Hpick as [(-> & -> & ->)|[(-> & -> & ->)|(-> & -> & ->)]]; try done;
      by apply StronglySorted_inv in Hm as [? _].
  - destruct Hpick as [(-> & -> & ->)|[(-> & -> & ->)|(-> & -> & ->)]]; try done;
      by apply StronglySorted_inv in Hu as [? _].
  - destruct Hpick as [(-> & -> & ->)|[(-> & -> & ->)|(-> & -> & ->)]]; try done;
      by apply StronglySorted_inv in Hr as [? _].
  - (* the shared identifier is not the one that was taken: its second
       holder would have reported it as well *)
    assert (Hx : forall l, StronglySorted Z.lt l -> (forall y, y ∈ l -> x <= y) -> x ∈ l ->
                 head_of l = Finite x).
    { intros [|y l] Hl Hle Hin; [by apply elem_of_nil in Hin|]. simpl. f_equal.
      apply StronglySorted_inv in Hl as [_ Hl]. rewrite Forall_forall in Hl.
      apply elem_of_cons in Hin as [->|Hin]; [done|].
      specialize (Hl x Hin). assert (x <= y) by (apply Hle; left). lia. }
    destruct (decide (v = x)) as [->|Hvx].
    + exfalso. revert Hok. cbn [all_pairs_ok forallb].
      destruct Hv as [[H1 H2]|[[H1 H2]|[H1 H2]]].
      * rewrite (Hx m Hm Hminm H1), (Hx u Hu Hminu H2). cbn [pair_ok].
        rewrite Z.eqb_refl. by destruct (head_of r) as [y|]; cbn; rewrite ?andb_false_r.
      * rewrite (Hx m Hm Hminm H1), (Hx r Hr Hminr H2). cbn [pair_ok].
        rewrite Z.eqb_refl. by destruct (head_of u) as [y|]; cbn; rewrite ?andb_false_r.
      * rewrite (Hx u Hu Hminu H1), (Hx r Hr Hminr H2). cbn [pair_ok].
        rewrite Z.eqb_refl. by destruct (head_of m) as [y|]; cbn; rewrite ?andb_false_r.
    + destruct Hpick as [(-> & -> & ->)|[(-> & -> & ->)|(-> & -> & ->)]];
        set_solver.
Qed.

End Multiwalk.

(* ===================================================================== *)
(** ** C3 and C4: what the multiwalk allocates *)
(* ===================================================================== *)

Section Allocator.
Import CompactRemapTable RunCompressed.

Lemma merge_fuel (m u r : list Z) :
  (Datatypes.length m + Datatypes.length u + Datatypes.length r
   < S (Datatypes.length m + Datatypes.length u + Datatypes.length r))%nat.
Proof. lia. Qed.

Lemma readers_exact (multi unique rel : list Z) :
  (forall s, s ∈ multi ++ unique ++ rel -> - 2 ^ 53 <= s <= 2 ^ 53) ->
  as_numbers multi = multi /\ as_numbers unique = unique /\ as_numbers rel = rel.
Proof.
  intros Hids. unfold as_numbers.
  repeat split; apply as_numbers_exact; intros s Hs; apply Hids; set_solver.
Qed.

(** C3 (namespace uniqueness), amended.  Let the identifiers of the three
    selects lie within [2^53] and let the counter stay within it to the last
    row.  The walk always ends; whatever its result, the identifiers it
    visited, which it remapped one by one to the values of the counter, are
    mapped to pairwise distinct targets.  Whenever two readers report the
    same head, the turn throws the assertion error and leaves counter and
    table as they were; for ascending readers every identifier held by two
    of them leads to that error. *)
Theorem C3_allocator_uniqueness (multi unique rel : list Z) (a : Alloc) :
  wf (table a) ->
  (forall s, s ∈ multi ++ unique ++ rel -> - 2 ^ 53 <= s <= 2 ^ 53) ->
  0 <= next a ->
  next a + Z.of_nat (Datatypes.length (multi ++ unique ++ rel)) <= 2 ^ 53 ->
  (exists visited res,
     multiwalk multi unique rel a = Some (remap_elements visited a, res) /\
     forall s1 s2, s1 ∈ visited -> s2 ∈ visited -> s1 <> s2 ->
       exists t1 t2,
         get (table (remap_elements visited a)) s1 = Some t1 /\
         get (table (remap_elements visited a)) s2 = Some t2 /\
         t1 <> t2) /\
  (forall fuel x,
     (head_of (as_numbers multi) = Finite x /\ head_of (as_numbers unique) = Finite x) \/
     (head_of (as_numbers multi) = Finite x /\ head_of (as_numbers rel) = Finite x) \/
     (head_of (as_numbers unique) = Finite x /\ head_of (as_numbers rel) = Finite x) ->
     merge_loop (S fuel) (as_numbers multi) (as_numbers unique) (as_numbers rel) a
       = Some (a, Throw (AssertionError "id1 !== id2"))) /\
  (forall v,
     Sorted Z.lt multi -> Sorted Z.lt unique -> Sorted Z.lt rel ->
     (v ∈ multi /\ v ∈ unique) \/ (v ∈ multi /\ v ∈ rel) \/ (v ∈ unique /\ v ∈ rel) ->
     exists a',
       multiwalk multi unique rel a = Some (a', Throw (AssertionError "id1 !== id2"))).
Proof.
  intros Hwf Hids Hlo Hhi. unfold multiwalk.
  destruct (readers_exact multi unique rel Hids) as (-> & -> & ->).
  split; [|split].
  - destruct (merge_loop_ends _ multi unique rel a (merge_fuel multi unique rel))
      as (visited & res & Hrun & Hsub & _).
    exists visited, res. split; [done|]. intros s1 s2 H1 H2 Hne.
    apply submseteq_length in Hsub.
    destruct (remap_elements_injective visited a s1 s2 Hwf) as (t1 & t2 & ? & ? & ? & _);
      [lia|lia|done..|].
    by exists t1, t2.
  - intros fuel x Hx. apply merge_loop_clash. cbn [all_pairs_ok forallb].
    destruct Hx as [[-> ->]|[[-> ->]|[-> ->]]]; cbn [pair_ok]; rewrite Z.eqb_refl.
    + by destruct (head_of rel); cbn; rewrite ?andb_false_r.
    + by destruct (head_of unique); cbn; rewrite ?andb_false_r.
    + by destruct (head_of multi); cbn; rewrite ?andb_false_r.
  - intros v Hm Hu Hr Hv.
    apply (merge_loop_shared _ multi unique rel a v (merge_fuel multi unique rel));
      try done; apply Sorted_StronglySorted; try done; intros ???; lia.
Qed.

(** C3 amended, at the readers [[5; 9]], [[7]], [[6]] and a seeded table. *)
Lemma C3_allocator_uniqueness_witness :
  (exists visited res,
     multiwalk [5; 9] [7] [6] Examples.seeded_alloc
       = Some (remap_elements visited Examples.seeded_alloc, res) /\
     forall s1 s2, s1 ∈ visited -> s2 ∈ visited -> s1 <> s2 ->
       exists t1 t2,
         get (table (remap_elements visited Examples.seeded_alloc)) s1 = Some t1 /\
         get (table (remap_elements visited Examples.seeded_alloc)) s2 = Some t2 /\
         t1 <> t2).
Proof.
  apply (C3_allocator_uniqueness [5; 9] [7] [6] Examples.seeded_alloc).
  - apply wf_remap, wf_empty.
  - intros s Hs. repeat (apply elem_of_cons in Hs as [->|Hs]);
      [split; by vm_compute..|by apply elem_of_nil in Hs].
  - by vm_compute.
  - by vm_compute.
Defined.

(** C3 as the spec states it fails once the counter has reached [2^53]:
    [_nextInstanceId++] leaves it where it is, and the identifiers 5 and 7,
    which the walk visits one after the other, are both remapped to
    [2^53]. *)
Lemma C3_counter_stops_at_2_53 :
  exists a',
    multiwalk [5] [7] []
      (mkAlloc (2 ^ 53) (CompactRemapTable.remap 0 0 CompactRemapTable.empty))
      = Some (a', Ok tt) /\
    next a' = 2 ^ 53 /\
    get (table a') 5 = Some (2 ^ 53) /\
    get (table a') 7 = Some (2 ^ 53).
Proof. eexists. split; [vm_compute; reflexivity|]. by vm_compute. Qed.

Lemma StronglySorted_lt_lookup (l : list Z) (i j : nat) x y :
  StronglySorted Z.lt l -> l !! i = Some x -> l !! j = Some y -> x < y -> (i < j)%nat.
Proof.
  intros Hl. revert i j. induction Hl as [|z l Hl IH Hz]; intros i j Hi Hj Hxy; [done|].
  rewrite Forall_forall in Hz.
  destruct i as [|i], j as [|j]; simpl in *.
  - simplify_eq. lia.
  - lia.
  - simplify_eq. apply list_elem_of_lookup_2 in Hi. specialize (Hz _ Hi). lia.
  - apply (IH i j) in Hxy; [lia|done..].
Qed.

(** C4 (monotonicity), amended.  Let the identifiers of the three selects
    lie within [2^53] and let the counter stay within it to the last row.
    For selects that are each ascending and hold no identifier twice between
    them, the walk ends well; it visits all their identifiers in ascending
    order, the [i]-th visit getting the counter's start plus [i]; so of two
    identifiers of the namespace the greater one has the greater target. *)
Theorem C4_allocator_monotonic (multi unique rel : list Z) (a : Alloc) :
  wf (table a) ->
  (forall s, s ∈ multi ++ unique ++ rel -> - 2 ^ 53 <= s <= 2 ^ 53) ->
  0 <= next a ->
  next a + Z.of_nat (Datatypes.length (multi ++ unique ++ rel)) <= 2 ^ 53 ->
  Sorted Z.le multi -> Sorted Z.le unique -> Sorted Z.le rel ->
  NoDup (multi ++ unique ++ rel) ->
  exists visited,
    multiwalk multi unique rel a = Some (remap_elements visited a, Ok tt) /\
    visited ≡ₚ multi ++ unique ++ rel /\
    StronglySorted Z.lt visited /\
    (forall (i : nat) s, visited !! i = Some s ->
       get (table (remap_elements visited a)) s = Some (next a + Z.of_nat i)) /\
    (forall s1 s2,
       s1 ∈ multi ++ unique ++ rel -> s2 ∈ multi ++ unique ++ rel -> s1 < s2 ->
       exists t1 t2,
         get (table (remap_elements visited a)) s1 = Some t1 /\
         get (table (remap_elements visited a)) s2 = Some t2 /\
         t1 < t2).
Proof.
  intros Hwf Hids Hlo Hhi Hm Hu Hr Hnd. unfold multiwalk.
  destruct (readers_exact multi unique rel Hids) as (-> & -> & ->).
  assert (Hnd' := Hnd). apply NoDup_app in Hnd' as (Hndm & _ & [Hndu [_ Hndr]]%NoDup_app).
  destruct (merge_loop_sorted _ multi unique rel a (merge_fuel multi unique rel))
    as (visited & Hrun & Hperm & Hsorted); try done; try (by apply StronglySorted_lt).
  exists visited. split; [done|]. split; [done|]. split; [done|].
  assert (Hndv : NoDup visited) by (by rewrite Hperm).
  assert (Hlen : Datatypes.length visited = Datatypes.length (multi ++ unique ++ rel))
    by (by apply Permutation_length).
  assert (Hget : forall (i : nat) s, visited !! i = Some s ->
            get (table (remap_elements visited a)) s = Some (next a + Z.of_nat i)).
  { intros i s Hi. apply get_remap_elements_NoDup; try done; lia. }
  split; [done|]. intros s1 s2 H1 H2 Hlt.
  rewrite <- Hperm in H1, H2.
  apply list_elem_of_lookup_1 in H1 as [i1 Hi1]. apply list_elem_of_lookup_1 in H2 as [i2 Hi2].
  exists (next a + Z.of_nat i1), (next a + Z.of_nat i2).
  rewrite (Hget _ _ Hi1), (Hget _ _ Hi2). repeat split.
  assert (i1 < i2)%nat by (by eapply StronglySorted_lt_lookup). lia.
Qed.

(** C4 amended, at the readers [[5; 9]], [[7]], [[6]] and a seeded table. *)
Lemma C4_allocator_monotonic_witness :
  exists visited,
    multiwalk [5; 9] [7] [6] Examples.seeded_alloc
      = Some (remap_elements visited Examples.seeded_alloc, Ok tt) /\
    visited ≡ₚ [5; 9] ++ [7] ++ [6] /\
    StronglySorted Z.lt visited /\
    (forall (i : nat) s, visited !! i = Some s ->
       get (table (remap_elements visited Examples.seeded_alloc)) s
         = Some (next Examples.seeded_alloc + Z.of_nat i)) /\
    (forall s1 s2,
       s1 ∈ [5; 9] ++ [7] ++ [6] -> s2 ∈ [5; 9] ++ [7] ++ [6] -> s1 < s2 ->
       exists t1 t2,
         get (table (remap_elements visited Examples.seeded_alloc)) s1 = Some t1 /\
         get (table (remap_elements visited Examples.seeded_alloc)) s2 = Some t2 /\
         t1 < t2).
Proof.
  apply (C4_allocator_monotonic [5; 9] [7] [6] Examples.seeded_alloc).
  - apply wf_remap, wf_empty.
  - intros s Hs. repeat (apply elem_of_cons in Hs as [->|Hs]);
      [split; by vm_compute..|by apply elem_of_nil in Hs].
  - by vm_compute.
  - by vm_compute.
  - repeat constructor; lia.
  - repeat constructor.
  - repeat constructor.
  - apply (bool_decide_unpack _). vm_compute. exact I.
Defined.

(** C4 as the spec states it fails beyond [2^53]: the multi aspect
    [2^53] and the unique aspect [2^53 + 1] are two identifiers, each select
    is ascending, but the readers hand both over as the number [2^53]; the
    walk stops at the assertion with neither of them remapped. *)
Lemma C4_distinct_identifiers_read_as_one_number :
  Sorted Z.le [2 ^ 53] /\ Sorted Z.le [2 ^ 53 + 1] /\
  NoDup ([2 ^ 53] ++ [2 ^ 53 + 1] ++ []) /\
  as_numbers [2 ^ 53 + 1] = [2 ^ 53] /\
  multiwalk [2 ^ 53] [2 ^ 53 + 1] [] Examples.seeded_alloc
    = Some (Examples.seeded_alloc, Throw (AssertionError "id1 !== id2")).
Proof.
  split; [repeat constructor|]. split; [repeat constructor|].
  split; [apply (bool_decide_unpack _); vm_compute; exact I|].
  split; reflexivity.
Qed.

End Allocator.

(* ===================================================================== *)
(** ** C10: the clone context *)
(* ===================================================================== *)

Section CloneContextFacts.
Import CloneContext.

(** C10 (invalid-input short circuit).  For [Id64.invalid] both lookups
    answer [Id64.invalid] whatever the maps hold, also when a rule is
    recorded under [Id64.invalid]; for any identifier without a rule they
    answer [Id64.invalid] as well. *)
Theorem C10_invalid_short_circuit :
  (forall ctx, findTargetElementId ctx Id64_invalid = Id64_invalid) /\
  (forall ctx, findTargetCodeSpecId ctx Id64_invalid = Id64_invalid) /\
  (forall ctx targetId,
     _elementRemaps (remapElement Id64_invalid targetId ctx) !! Id64_invalid = Some targetId /\
     findTargetElementId (remapElement Id64_invalid targetId ctx) Id64_invalid = Id64_invalid) /\
  (forall ctx targetId,
     _codeSpecRemaps (remapCodeSpecIds Id64_invalid targetId ctx) !! Id64_invalid = Some targetId /\
     findTargetCodeSpecId (remapCodeSpecIds Id64_invalid targetId ctx) Id64_invalid = Id64_invalid) /\
  (forall ctx sourceElementId,
     _elementRemaps ctx !! sourceElementId = None ->
     findTargetElementId ctx sourceElementId = Id64_invalid) /\
  (forall ctx sourceId,
     _codeSpecRemaps ctx !! sourceId = None ->
     findTargetCodeSpecId ctx sourceId = Id64_invalid).
Proof.
  repeat split.
  - apply lookup_insert_eq.
  - apply lookup_insert_eq.
  - intros ctx id Hnone. unfold findTargetElementId. rewrite Hnone.
    by destruct (String.eqb Id64_invalid id).
  - intros ctx id Hnone. unfold findTargetCodeSpecId. rewrite Hnone.
    by destruct (String.eqb Id64_invalid id).
Qed.

(** C10 at a context with rules, for an identifier that has none. *)
Lemma C10_invalid_short_circuit_witness :
  findTargetElementId Examples.clone_context "0x7" = Id64_invalid /\
  findTargetCodeSpecId Examples.clone_context "0x7" = Id64_invalid /\
  findTargetElementId Examples.clone_context "0x1" = "0x2"%string /\
  findTargetCodeSpecId Examples.clone_context "0x3" = "0x4"%string.
Proof.
  destruct C10_invalid_short_circuit as (_ & _ & _ & _ & Helem & Hspec).
  split; [apply (Helem Examples.clone_context "0x7"%string); reflexivity|].
  split; [apply (Hspec Examples.clone_context "0x7"%string); reflexivity|].
  split; reflexivity.
Defined.

End CloneContextFacts.

(* ===================================================================== *)
(** ** The run, step by step *)
(* ===================================================================== *)

Section RunFacts.
Import CompactRemapTable RunCompressed.

Lemma for_each_modify {A} (f : A -> World -> World) (xs : list A) w :
  for_each xs (fun x => modify (f x)) w = (foldl (fun w x => f x w) w xs, Ok tt).
Proof.
  revert w. induction xs as [|x xs IH]; intros w; [done|].
  cbn [for_each foldl]. unfold bind at 1. cbn [modify]. apply IH.
Qed.

Lemma for_each_frame {A B} (proj : World -> B) (xs : list A) (body : A -> M World unit) w :
  (forall x w, proj (body x w).1 = proj w) -> proj (for_each xs body w).1 = proj w.
Proof.
  intros Hbody. apply (for_each_keeps (fun w' => proj w' = proj w)); [done|].
  intros x w1 _ Hw1. by rewrite Hbody.
Qed.


Lemma step_world statement w : (step statement w).1 = w.
Proof. unfold step. by destruct (refused w statement). Qed.

Lemma read_sequence_world seq w : (read_sequence seq w).1 = w.
Proof. unfold read_sequence. by case_match. Qed.

(** *** The call of [bulkInsertTransform] ends every run *)

(** A run is its set-up, the allocation and the loading of the temp tables;
    when these end well, the [ReferenceError] of [bulkInsertTransform] is the
    result.  The statements after the call are reached by no run. *)
Lemma run_stops_at_bulk_insert (env : Env) (returnRemapper : bool) w :
  rawEmulatedPolymorphicInsertTransform env returnRemapper w =
  match (suspend_triggers env ;; allocate_identifiers env ;;
         for_each RemapType.all load_table) w with
  | (w', Ok _) => (w', Throw (ReferenceError "transformType is not defined"))
  | (w', Throw e) => (w', Throw e)
  end.
Proof.
  unfold rawEmulatedPolymorphicInsertTransform, bind, bulkInsertTransform, throw.
  destruct (suspend_triggers env w) as [w1 [triggers|e]]; [|done].
  destruct (allocate_identifiers env w1) as [w2 [[]|e]]; [|done].
  by destruct (for_each RemapType.all load_table w2) as [w3 [[]|e]].
Qed.


(** *** What the steps of a run leave alone *)

Section TablesFrame.
Context {B : Type} (proj : World -> B).
Hypothesis proj_table : forall ty T w, proj (set_table ty T w) = proj w.
Hypothesis proj_temp : forall f w, proj (set_temp f w) = proj w.








Section RunFrame.
Hypothesis proj_defer : forall b w, proj (set_defer_foreign_keys b w) = proj w.
Hypothesis proj_drop : forall name db w,
  drop_trigger name (writeableTarget w) = Some db -> proj (set_target (fun _ => db) w) = proj w.



End RunFrame.
End TablesFrame.

Lemma insert_run_frame ty run w :
  remapTables (insert_run ty run w).1 = remapTables w /\
  writeableTarget (insert_run ty run w).1 = writeableTarget w.
Proof. unfold insert_run. by repeat case_match. Qed.

Lemma load_table_frame ty w :
  remapTables (load_table ty w).1 = remapTables w /\
  writeableTarget (load_table ty w).1 = writeableTarget w.
Proof.
  unfold load_table, bind, gets. cbn.
  split; apply for_each_frame; intros; apply insert_run_frame.
Qed.

Lemma on_target_tables step msg w : remapTables (on_target step msg w).1 = remapTables w.
Proof. unfold on_target. by destruct (step (writeableTarget w)). Qed.

(** *** The statements of the set-up *)






(** With a store that serves the statements of the set-up, preparing the
    tables does not fail.  It leaves every table well formed with 0 remapped
    to 0, the element table with the bootstrap elements remapped to
    themselves, the temp tables new, and the target untouched. *)
Lemma prepare_remap_tables_spec env target cache :
  exists w,
    prepare_remap_tables env (start target cache) = (w, Ok tt) /\
    writeableTarget w = target /\
    (forall ty, wf (remapTables w ty)) /\
    (forall ty, ty <> RemapType.font -> get (remapTables w ty) 0 = Some 0) /\
    get (remapTables w RemapType.element) 0x1 = Some 0x1 /\
    get (remapTables w RemapType.element) 0xe = Some 0xe /\
    get (remapTables w RemapType.element) 0x10 = Some 0x10 /\
    (forall ty, temp w !! (RemapType.name ty ++ "_remap")%string = Some []).
Proof.
  unfold prepare_remap_tables.
  assert (Hseed : exists w1, for_each RemapType.all seed (start target cache) = (w1, Ok tt) /\
            writeableTarget w1 = target /\
            (forall ty, remapTables w1 ty = CompactRemapTable.remap 0 0 empty) /\
            (forall ty, temp w1 !! (RemapType.name ty ++ "_remap")%string = Some []) /\
            refused w1 AttachSource = None).
  { eexists. split; [reflexivity|]. split; [reflexivity|].
    split; [intros []; reflexivity|]. split; [intros []; reflexivity|reflexivity]. }
  destruct Hseed as (w1 & Hw1 & Ht1 & HT1 & Htemp1 & Hserved1).
  rewrite (bind_Ok _ _ _ _ _ Hw1).
  set (fonts := fontRemaps env).
  assert (Hfont : forall (fs : list (Z * Z)) w,
            writeableTarget (foldl (fun w r => set_table RemapType.font
                (CompactRemapTable.remap (r.1) (r.2) (remapTables w RemapType.font)) w) w fs)
              = writeableTarget w /\
            temp (foldl (fun w r => set_table RemapType.font
                (CompactRemapTable.remap (r.1) (r.2) (remapTables w RemapType.font)) w) w fs)
              = temp w /\
            refused (foldl (fun w r => set_table RemapType.font
                (CompactRemapTable.remap (r.1) (r.2) (remapTables w RemapType.font)) w) w fs)
              = refused w /\
            (forall ty, ty <> RemapType.font ->
               remapTables (foldl (fun w r => set_table RemapType.font
                 (CompactRemapTable.remap (r.1) (r.2) (remapTables w RemapType.font)) w) w fs) ty
               = remapTables w ty) /\
            (wf (remapTables w RemapType.font) ->
             wf (remapTables (foldl (fun w r => set_table RemapType.font
                 (CompactRemapTable.remap (r.1) (r.2) (remapTables w RemapType.font)) w) w fs)
                   RemapType.font))).
  { induction fs as [|r fs IH]; intros w; [done|]. cbn [foldl].
    destruct (IH (set_table RemapType.font
                    (CompactRemapTable.remap (r.1) (r.2) (remapTables w RemapType.font)) w))
      as (IH1 & IH2 & IH2' & IH3 & IH4).
    split; [by rewrite IH1|]. split; [by rewrite IH2|]. split; [by rewrite IH2'|]. split.
    - intros ty Hty. rewrite IH3 by done. simpl. by destruct (decide (ty = RemapType.font)).
    - intros Hwf. apply IH4. simpl. apply wf_remap, Hwf. }
  unfold remap at 1. rewrite (bind_Ok _ _ _ _ _ (for_each_modify _ fonts w1)).
  destruct (Hfont fonts w1) as (Hf1 & Hf2 & Hf2' & Hf3 & Hf4).
  set (w2 := foldl _ w1 fonts) in *.
  assert (Hattach : step AttachSource w2 = (w2, Ok tt)).
  { unfold step. by rewrite Hf2', Hserved1. }
  rewrite (bind_Ok _ _ _ _ _ Hattach).
  eexists. split; [reflexivity|].
  assert (Hwf0 : wf (CompactRemapTable.remap 0 0 empty)) by apply wf_remap, wf_empty.
  assert (He : remapTables w2 RemapType.element = CompactRemapTable.remap 0 0 empty)
    by (by rewrite Hf3, HT1).
  split; [by simpl; rewrite Hf1|]. split; [|split; [|split; [|split; [|split]]]].
  - intros ty. destruct (decide (ty = RemapType.element)) as [->|Hne].
    + simpl. rewrite He. repeat apply wf_remap. apply wf_empty.
    + destruct (decide (ty = RemapType.font)) as [->|Hne'].
      * simpl. apply Hf4. rewrite HT1. done.
      * destruct ty; try done; simpl; rewrite Hf3, HT1; done.
  - intros ty Hty. destruct ty; try done; simpl; rewrite ?Hf3, ?HT1 by done; reflexivity.
  - simpl. rewrite He. reflexivity.
  - simpl. rewrite He. reflexivity.
  - simpl. rewrite He. reflexivity.
  - intros ty. simpl. rewrite Hf2. apply Htemp1.
Qed.

(** *** What allocation does to the tables *)

Lemma remap_elements_keeps (Q : CompactRemapTable.t -> Prop) xs a :
  (forall s t T, s ∈ xs -> Q T -> Q (CompactRemapTable.remap s t T)) ->
  Q (table a) -> Q (table (remap_elements xs a)).
Proof.
  revert a. induction xs as [|x xs IH]; intros a Hstep Ha; [done|].
  apply IH.
  - intros s t T Hs. apply Hstep. by right.
  - simpl. apply Hstep; [left|done].
Qed.

(** Every row of the name join of a file with itself carries two code spec
    identifiers of that file. *)
Lemma codeSpecRemapSelect_ids main row :
  row ∈ codeSpecRemapSelect main -> row.1 ∈ Id <$> bis_CodeSpec main.
Proof.
  unfold codeSpecRemapSelect. rewrite list_elem_of_In, in_flat_map.
  intros (s & Hs%list_elem_of_In & Hrow%list_elem_of_In).
  assert (row.1 = Id s); [|rewrite H; by apply list_elem_of_fmap_2].
  destruct (List.filter _ _) as [|t ts].
  - apply list_elem_of_singleton in Hrow. by subst.
  - apply list_elem_of_fmap in Hrow as (t' & -> & _). done.
Qed.

Lemma remap_codespec_keeps (Q : CompactRemapTable.t -> Prop) rows a :
  (forall s t T, s ∈ rows.*1 -> Q T -> Q (CompactRemapTable.remap s t T)) ->
  Q (table a) -> Q (table (foldl remap_codespec a rows)).
Proof.
  revert a. induction rows as [|[s [t|]] rows IH]; intros a Hstep Ha; [done|..];
    cbn [foldl]; apply IH; try (intros s' t' T Hs'; apply Hstep; by right);
    simpl; apply Hstep; try done; left.
Qed.

(** Allocation keeps a property of the element table that remapping an
    element the select reads keeps, and a property of the code spec table
    that remapping a code spec of the source keeps. *)
Lemma allocate_identifiers_keeps env (Qe Qc : CompactRemapTable.t -> Prop) w :
  (forall s t T, s ∈ sourceElemRemapSelect (source env) -> Qe T ->
     Qe (CompactRemapTable.remap (Js.toNumber s) t T)) ->
  (forall s t T, s ∈ Id <$> bis_CodeSpec (source env) -> Qc T ->
     Qc (CompactRemapTable.remap s t T)) ->
  Qe (remapTables w RemapType.element) /\ Qc (remapTables w RemapType.codespec) ->
  Qe (remapTables (allocate_identifiers env w).1 RemapType.element) /\
  Qc (remapTables (allocate_identifiers env w).1 RemapType.codespec).
Proof.
  intros He Hc Hw. unfold allocate_identifiers.
  apply (bind_keeps (fun w => Qe (remapTables w RemapType.element) /\
                              Qc (remapTables w RemapType.codespec))); [done|..].
  { intros w1 Hw1. by rewrite read_sequence_world. }
  intros n1 w1 Hw1. apply bind_keeps; [done|..].
  { intros w2 Hw2. by rewrite read_sequence_world. }
  intros n2 w2 Hw2. apply bind_keeps; [done|..].
  { intros w3 [H1 H2]. unfold allocate, element_pass. simpl. split; [|done].
    apply (remap_elements_keeps Qe _ (mkAlloc n1 _)); [|done].
    intros s t T (s' & -> & Hs')%list_elem_of_fmap. by apply He. }
  intros _ w3 Hw3. apply bind_keeps; [done|..].
  { intros w4 [H1 H2]. unfold allocate. by repeat case_match. }
  intros _ w4 Hw4. apply bind_keeps; [done|..].
  { done. }
  intros n3 w5 [H1 H2]. unfold allocate. simpl. split; [done|].
  apply (remap_codespec_keeps Qc _ (mkAlloc n3 _)); [|done].
  intros s t T Hs. apply Hc. apply list_elem_of_fmap in Hs as (row & -> & Hrow).
  by apply codeSpecRemapSelect_ids.
Qed.

(** *** The triggers *)





End RunFacts.

(* ===================================================================== *)
(** ** C7: the triggers of the target *)
(* ===================================================================== *)

Section Triggers.
Import CompactRemapTable RunCompressed.


(** A store that cannot attach the source file: the set-up fails at that
    statement, before the triggers are gathered, and the target keeps them. *)
Lemma attach_refused_keeps_triggers :
  let run := rawEmulatedPolymorphicInsertTransform Examples.env false
               Examples.unattached_start in
  run.2 = Throw (StoreError "unable to open database file") /\
  sqlite_master (writeableTarget run.1) = sqlite_master Examples.target_iModel /\
  defer_foreign_keys run.1 = false.
Proof. vm_compute. done. Qed.



End Triggers.

(* ===================================================================== *)
(** ** C5 and C9: what the run leaves in the element and code spec tables *)
(* ===================================================================== *)

Section FinalTables.
Import CompactRemapTable RunCompressed.

Lemma sourceElemRemapSelect_spec src id :
  id ∈ sourceElemRemapSelect src <->
  id ∈ ECInstanceId <$> bis_Element src /\ id ∉ bootstrap_ids.
Proof.
  unfold sourceElemRemapSelect. rewrite merge_sort_Permutation.
  rewrite list_elem_of_In, filter_In, <- list_elem_of_In. unfold not_bootstrap.
  rewrite negb_true_iff, bool_decide_eq_false. done.
Qed.

(** A property of the element table and one of the code spec table that hold
    once the tables are prepared and that allocation keeps hold when the
    transform ends, however it ends. *)
Lemma run_tables (env : Env) (returnRemapper : bool) (target : IModel)
    (cache : gmap string (gmap string CachedClassStatements))
    (Qe Qc : CompactRemapTable.t -> Prop) :
  (forall s t T, s ∈ sourceElemRemapSelect (source env) -> Qe T ->
     Qe (CompactRemapTable.remap (Js.toNumber s) t T)) ->
  (forall s t T, s ∈ Id <$> bis_CodeSpec (source env) -> Qc T ->
     Qc (CompactRemapTable.remap s t T)) ->
  (forall Te Tc, wf Te -> wf Tc -> get Te 0 = Some 0 -> get Te 0x1 = Some 0x1 ->
     get Te 0xe = Some 0xe -> get Te 0x10 = Some 0x10 -> get Tc 0 = Some 0 ->
     Qe Te /\ Qc Tc) ->
  Qe (remapTables
        (rawEmulatedPolymorphicInsertTransform env returnRemapper (start target cache)).1
        RemapType.element) /\
  Qc (remapTables
        (rawEmulatedPolymorphicInsertTransform env returnRemapper (start target cache)).1
        RemapType.codespec).
Proof.
  intros He Hc Hinit. rewrite run_stops_at_bulk_insert.
  set (P := fun w : World => Qe (remapTables w RemapType.element) /\
                             Qc (remapTables w RemapType.codespec)).
  assert (H : P ((suspend_triggers env ;; allocate_identifiers env ;;
                  for_each RemapType.all load_table) (start target cache)).1).
  { destruct (prepare_remap_tables_spec env target cache)
      as (w0 & Hprep & _ & Hwf & H0 & H1 & H14 & H16 & _).
    assert (Hw0 : P w0).
    { apply Hinit; try done; by apply H0. }
    assert (Hsusp : P (suspend_triggers env (start target cache)).1).
    { unfold suspend_triggers. rewrite (bind_Ok _ _ _ _ _ Hprep).
      apply (bind_keeps P); [done|..].
      { intros w1 Hw1. by rewrite step_world. }
      intros _ w1 Hw1. apply bind_keeps; [done|done|].
      intros _ w2 Hw2. apply bind_keeps; [done|done|].
      intros triggers w3 Hw3. apply bind_keeps; [done| |done].
      intros w4 Hw4. unfold P.
      by rewrite (for_each_frame remapTables triggers _ w4
                    (fun t w => on_target_tables _ _ w)). }
    unfold bind at 1.
    destruct (suspend_triggers env (start target cache)) as [w1 [triggers|e]];
      [|exact Hsusp].
    apply (bind_keeps P); [exact Hsusp|..].
    { intros w2 Hw2. by apply allocate_identifiers_keeps. }
    intros _ w2 Hw2. unfold P.
    by rewrite (for_each_frame remapTables RemapType.all load_table w2
                  (fun ty w => proj1 (load_table_frame ty w))). }
  by destruct ((suspend_triggers env ;; allocate_identifiers env ;;
                for_each RemapType.all load_table) (start target cache)) as [w' [[]|e]].
Qed.

(** C5 (bootstrap identifiers).  However the transform ends, its element
    table remaps 0x1, 0xe and 0x10 to themselves; and the queries that select
    elements for migration never yield one of them: neither the select that
    feeds the allocation of element identifiers, nor the select statement of
    a class whose root type is ["element"], nor the element select of the
    two-pass revision. *)
Theorem C5_bootstrap_identifiers (env : Env) (returnRemapper : bool) (target : IModel)
    (cache : gmap string (gmap string CachedClassStatements)) :
  (forall id, id ∈ bootstrap_ids ->
     get (remapTables
            (rawEmulatedPolymorphicInsertTransform env returnRemapper (start target cache)).1
            RemapType.element) id = Some id) /\
  (forall id, id ∈ sourceElemRemapSelect (source env) -> id ∉ bootstrap_ids) /\
  (forall classFullName props id,
     id ∈ select_rows (selectSql classFullName RootType.element props) (source env) ->
     id ∉ bootstrap_ids) /\
  (forall bis_Element r,
     r ∈ JsonTwoPhase.sourceElemSelect bis_Element ->
     JsonTwoPhase.sourceId r ∉ bootstrap_ids).
Proof.
  split; [|split; [|split]].
  - destruct (run_tables env returnRemapper target cache
                (fun T => wf T /\ get T 0x1 = Some 0x1 /\ get T 0xe = Some 0xe /\
                          get T 0x10 = Some 0x10)
                (fun _ => True)) as [(_ & H1 & H14 & H16) _]; [| |done|].
    + intros s t T [_ Hs]%sourceElemRemapSelect_spec (Hwf & H1 & H14 & H16).
      split; [by apply wf_remap|]. rewrite !get_remap by done.
      assert (Js.toNumber s <> 0x1 /\ Js.toNumber s <> 0xe /\ Js.toNumber s <> 0x10)
        as (? & ? & ?).
      { unfold bootstrap_ids in Hs.
        repeat split; intros Heq; apply toNumber_small in Heq; try (by vm_compute);
          subst s; set_solver. }
      destruct (Z.eqb_spec 0x1 (Js.toNumber s)), (Z.eqb_spec 0xe (Js.toNumber s)),
        (Z.eqb_spec 0x10 (Js.toNumber s)); done.
    + done.
    + intros id. unfold bootstrap_ids. rewrite !elem_of_cons, elem_of_nil.
      intros [->|[->|[->|[]]]]; done.
  - intros id Hid. by apply sourceElemRemapSelect_spec in Hid as [_ ?].
  - intros cls props id. unfold select_rows. cbn [selectSql not_in].
    destruct (decide (RootType.element = RootType.element)); [|done].
    rewrite list_elem_of_In, filter_In, negb_true_iff, bool_decide_eq_false. tauto.
  - intros rows r. unfold JsonTwoPhase.sourceElemSelect. rewrite merge_sort_Permutation.
    rewrite list_elem_of_In, filter_In. unfold not_bootstrap.
    rewrite negb_true_iff, bool_decide_eq_false. tauto.
Qed.



End FinalTables.

(* ===================================================================== *)
(** ** C8: classes with array or struct properties *)
(* ===================================================================== *)

Section ExcludedProperties.
Import RunCompressed.



End ExcludedProperties.

(* ===================================================================== *)
(** ** C6: code specs matched by name *)
(* ===================================================================== *)

Section CodeSpecsByName.
Import CompactRemapTable RunCompressed.


(** The two-pass revision prepares its name join on the target connection:
    a code spec whose name the target holds is remapped to the row of the
    target, and no row is inserted. *)
Lemma codespec_row_matches_by_name (s t : CodeSpecRow) (w : JsonTwoPhase.World) :
  List.find (fun t => String.eqb (Name s) (Name t)) (JsonTwoPhase.codeSpecs w) = Some t ->
  JsonTwoPhase.codespec_remap w !! Id s = None ->
  JsonTwoPhase.codespec_row s w
  = (JsonTwoPhase.set_codespec_remap (<[Id s := Id t]> (JsonTwoPhase.codespec_remap w)) w,
     Ok tt).
Proof.
  intros Hfind Hnew. unfold JsonTwoPhase.codespec_row, bind, gets. rewrite Hfind.
  unfold ret, JsonTwoPhase.remap_codespec, JsonTwoPhase.remap_insert. by rewrite Hnew.
Qed.

(** C6 at the example: the source holds the code spec "X" as 0x5, the target
    holds "X" as 0x9.  The code spec pass of the run-compressed transform
    remaps 0x5 to 0x5, the identifier of the source, and not to 0x9, the
    identifier of the row of that name in the target: so the code spec table
    has it when the run ends, and so does [temp.codespec_remap], through
    which the statements of the target were to look identifiers up. *)
Lemma C6_name_join_runs_on_source :
  let run := rawEmulatedPolymorphicInsertTransform Examples.env true
               (start Examples.target_iModel ∅) in
  mkCodeSpec 0x5 "X" "{}" ∈ bis_CodeSpec (source Examples.env) /\
  mkCodeSpec 0x9 "X" "{}" ∈ bis_CodeSpec Examples.target_iModel /\
  get (remapTables run.1 RemapType.codespec) 0x5 = Some 0x5 /\
  Sql.eval_scalar (temp run.1) (fun _ => None)
    (remapSql (Sql.Lit (Some 0x5)) RemapType.codespec) = Some 0x5.
Proof.
  intros run. split; [right; left|]. split; [right; left|].
  split; vm_compute; reflexivity.
Qed.

End CodeSpecsByName.

(* ===================================================================== *)
(** ** The two passes of the two-pass revision *)
(* ===================================================================== *)

Section TwoPasses.
Import JsonTwoPhase.

(** The first pass inserts the rows in order under consecutive identifiers
    and records each of them in [temp.element_remap]. *)
Lemma first_pass_spec queryMap rows : forall w,
  NoDup (sourceId <$> rows) ->
  (forall r, r ∈ rows -> element_remap w !! sourceId r = None) ->
  (forall r, r ∈ rows -> is_Some (queryMap_get queryMap (classFullName r))) ->
  (forall row, row ∈ elements w -> row_id row < next_instance_id w) ->
  exists w' new,
    for_each rows (first_pass_row queryMap) w = (w', Ok tt) /\
    codespec_remap w' = codespec_remap w /\
    elements w' = elements w ++ new /\
    Datatypes.length new = Datatypes.length rows /\
    (forall (i : nat) r props,
       rows !! i = Some r -> queryMap_get queryMap (classFullName r) = Some props ->
       element_remap w' !! sourceId r = Some (next_instance_id w + Z.of_nat i) /\
       new !! i = Some (populate_row (next_instance_id w + Z.of_nat i) (classFullName r) props
                          (jsonString r))) /\
    (forall s, s ∉ sourceId <$> rows -> element_remap w' !! s = element_remap w !! s).
Proof.
  induction rows as [|r rows IH]; intros w Hnd Hnew Hcls Hfresh.
  - exists w, []. rewrite app_nil_r. repeat split; done.
  - apply NoDup_cons in Hnd as [Hr Hnd].
    destruct (Hcls r) as [props Hprops]; [left|].
    assert (Hex : existsb (fun row => row_id row =? next_instance_id w) (elements w) = false).
    { apply not_true_is_false. intros (row & Hrow%list_elem_of_In & Heq)%existsb_exists.
      apply Z.eqb_eq in Heq. specialize (Hfresh row Hrow). lia. }
    set (row0 := populate_row (next_instance_id w) (classFullName r) props (jsonString r)).
    set (w1 := set_element_remap (<[sourceId r := next_instance_id w]> (element_remap w))
                 (mkWorld (elements w ++ [row0]) (codeSpecs w) (next_instance_id w + 1)
                    (element_remap w) (codespec_remap w))).
    assert (Hstep : first_pass_row queryMap r w = (w1, Ok tt)).
    { unfold first_pass_row. rewrite Hprops. unfold bind, populate. rewrite Hex.
      unfold remap_element, remap_insert. cbn [element_remap].
      rewrite Hnew by left. done. }
    cbn [for_each]. rewrite (bind_Ok _ _ _ _ _ Hstep).
    destruct (IH w1) as (w' & new & Hrun & Hcs & Hels & Hlen & Hrows & Hother); [done| | | |].
    + intros r' Hr'. cbn. rewrite lookup_insert_ne.
      * apply Hnew. by right.
      * intros Heq. apply Hr. rewrite Heq. by apply list_elem_of_fmap_2.
    + intros r' Hr'. apply Hcls. by right.
    + intros row. cbn. rewrite elem_of_app, list_elem_of_singleton.
      intros [Hrow| ->]; [specialize (Hfresh row Hrow); lia|simpl; lia].
    + exists w', (row0 :: new). split; [done|]. split; [by rewrite Hcs|].
      split; [by rewrite Hels; cbn; rewrite <- app_assoc|].
      split; [by simpl; rewrite Hlen|]. split.
      * intros [|i] r' props' Hi Hprops'.
        -- simpl in Hi. injection Hi as <-. rewrite Hprops in Hprops'. injection Hprops' as <-.
           split; [|by rewrite Z.add_0_r].
           rewrite Hother by done. cbn. rewrite lookup_insert_eq. f_equal. lia.
        -- simpl in Hi. destruct (Hrows i r' props' Hi Hprops') as [H1 H2]. split.
           ++ rewrite H1. cbn. f_equal. lia.
           ++ change ((row0 :: new) !! S i) with (new !! i). rewrite H2.
              cbn [next_instance_id w1 set_element_remap]. do 2 f_equal. lia.
      * intros s Hs. apply not_elem_of_cons in Hs as [Hne Hs]. rewrite Hother by done.
        cbn. by rewrite lookup_insert_ne.
Qed.

Lemma update_row_nil target cls row : update_row target cls [] row = row.
Proof. unfold update_row. destruct row. by case_match. Qed.

Lemma set_elements_same w : set_elements (elements w) w = w.
Proof. by destruct w. Qed.

(** One turn of the second pass rewrites the rows by [hydrate_row]. *)
Lemma second_pass_row_spec queryMap r props w :
  queryMap_get queryMap (classFullName r) = Some props ->
  second_pass_row queryMap r w
  = (set_elements (hydrate_row w (classFullName r) props (jsonString r) <$> elements w) w,
     Ok tt).
Proof.
  intros Hprops. unfold second_pass_row, update. rewrite Hprops.
  destruct (updateProps props) eqn:Hup; [|done].
  unfold ret. f_equal.
  assert (Hsame : hydrate_row w (classFullName r) props (jsonString r) <$> elements w
                  = elements w).
  { rewrite <- (list_fmap_id (elements w)) at 2. apply list_fmap_ext.
    intros i row _. unfold hydrate_row. rewrite Hup. apply update_row_nil. }
  by rewrite Hsame, set_elements_same.
Qed.













(** The run of the example reaches its first pass in [two_pass_world], with
    the rows of [sourceElemSelect] in the order of their identifiers. *)
Lemma two_pass_world_reached :
  rawEmulatedPolymorphicInsertTransform Examples.two_pass_env Examples.two_pass_start
  = two_passes (classFullNameAndProps [Examples.node]) [Examples.node_A; Examples.node_B]
      Examples.two_pass_world.
Proof. vm_compute. reflexivity. Qed.



End TwoPasses.

(* ===================================================================== *)
(** * Further properties of the code *)
(* ===================================================================== *)

(** Membership in a list that is written out, element by element. *)
Ltac by_cases_on_member H :=
  repeat (apply elem_of_cons in H as [->|H]); [..|by apply elem_of_nil in H].

(* ===================================================================== *)
(** ** Quoting of injected SQL *)
(* ===================================================================== *)

Section Quoting.
Import Injection.
Local Open Scope string_scope.

Lemma unescapeSqlStr_escapeForSqlStr s : unescapeSqlStr (escapeForSqlStr s) = s.
Proof.
  induction s as [|c s IH]; [done|]. cbn [escapeForSqlStr].
  destruct (Ascii.eqb_spec c "'") as [->|Hc].
  - cbn. by rewrite IH.
  - cbn [unescapeSqlStr]. destruct (Ascii.eqb_spec c "'"); [done|]. by rewrite IH.
Qed.

(** X1 (quoting round trip).  [unescapeSqlStr] undoes [escapeForSqlStr] on
    every string; the other way round it does not: a single quote is
    unescaped to itself and escaped to two. *)
Theorem unescape_escape :
  (forall s, unescapeSqlStr (escapeForSqlStr s) = s) /\
  escapeForSqlStr (unescapeSqlStr "'") <> "'".
Proof.
  split; [exact unescapeSqlStr_escapeForSqlStr|discriminate].
Qed.

(** *** The replacement of the injected expressions *)

Lemma pairs_then_closing_escaped r post :
  pairs_then_closing (escapeForSqlStr r ++ "')" ++ post)
  = if all_quotes r then Some (escapeForSqlStr r, post) else None.
Proof.
  change ("')" ++ post) with (String "'" (String ")" post)).
  induction r as [|c r IH]; [reflexivity|].
  cbn [escapeForSqlStr all_quotes]. destruct (Ascii.eqb_spec c "'") as [->|Hc].
  - cbn [andb].
    change (String "'" (String "'" (escapeForSqlStr r)) ++ String "'" (String ")" post))
      with (String "'" (String "'" (escapeForSqlStr r ++ String "'" (String ")" post)))).
    change (pairs_then_closing (String "'" (String "'" ?t)))
      with (match pairs_then_closing t with
            | Some (pairs, after) => Some (String "'" (String "'" pairs), after)
            | None => None
            end).
    rewrite IH. by destruct (all_quotes r).
  - change (String c (escapeForSqlStr r) ++ String "'" (String ")" post))
      with (String c (escapeForSqlStr r ++ String "'" (String ")" post))).
    cbn [pairs_then_closing andb]. apply Ascii.eqb_neq in Hc. rewrite Hc.
    unfold closing. cbn [strip_prefix]. by rewrite Hc.
Qed.

Lemma group_then_closing_quote t :
  group_then_closing (String "'" t)
  = match group_then_closing t with
    | Some (p1, after) => Some (String "'" p1, after)
    | None => None
    end.
Proof. reflexivity. Qed.

Lemma group_then_closing_escaped s post :
  all_quotes s = false ->
  group_then_closing (escapeForSqlStr s ++ "')" ++ post) = Some (escapeForSqlStr s, post).
Proof.
  induction s as [|c s IH]; [done|].
  cbn [escapeForSqlStr all_quotes]. destruct (Ascii.eqb_spec c "'") as [->|Hc].
  - cbn [andb]. intros Hs. specialize (IH Hs).
    change ((String "'" (String "'" (escapeForSqlStr s))) ++ "')" ++ post)
      with (String "'" (String "'" (escapeForSqlStr s ++ "')" ++ post))).
    by rewrite !group_then_closing_quote, IH.
  - intros _.
    change ((String c (escapeForSqlStr s)) ++ "')" ++ post)
      with (String c (escapeForSqlStr s ++ "')" ++ post)).
    cbn [group_then_closing]. apply Ascii.eqb_neq in Hc. rewrite Hc.
    rewrite pairs_then_closing_escaped. destruct (all_quotes s) eqn:Hs; [done|].
    by rewrite IH.
Qed.

Lemma group_then_closing_quotes s :
  all_quotes s = true -> group_then_closing (escapeForSqlStr s ++ "')") = None.
Proof.
  induction s as [|c s IH]; [reflexivity|].
  cbn [escapeForSqlStr all_quotes]. destruct (Ascii.eqb_spec c "'") as [->|Hc]; [|done].
  cbn [andb]. intros Hs. specialize (IH Hs).
  change ((String "'" (String "'" (escapeForSqlStr s))) ++ "')")
    with (String "'" (String "'" (escapeForSqlStr s ++ "')"))).
  by rewrite !group_then_closing_quote, IH.
Qed.

Lemma string_app_cons c (s t : string) : String c s ++ t = String c (s ++ t).
Proof. reflexivity. Qed.

Lemma string_app_assoc (s1 s2 s3 : string) : (s1 ++ s2) ++ s3 = s1 ++ (s2 ++ s3).
Proof. induction s1 as [|c s1 IH]; [done|]. by rewrite !string_app_cons, IH. Qed.

Lemma string_app_nil (s : string) : s ++ "" = s.
Proof. induction s as [|c s IH]; [done|]. by rewrite string_app_cons, IH. Qed.

Lemma string_length_app (s1 s2 : string) :
  String.length (s1 ++ s2) = (String.length s1 + String.length s2)%nat.
Proof.
  induction s1 as [|c s1 IH]; [done|]. rewrite string_app_cons. cbn [String.length].
  by rewrite IH.
Qed.

Lemma match_here_None c rest :
  Ascii.eqb c "(" && starts_with_S rest = false -> match_here (String c rest) = None.
Proof.
  intros H. unfold match_here.
  change ("(SELECT '" ++ injectionString ++ " ") with (String "(" (String "S" "ELECT 'Inject_1243yu1 ")).
  cbn [strip_prefix]. destruct (Ascii.eqb c "("); [|done].
  destruct rest as [|c2 rest]; [done|]. cbn in H. cbn [strip_prefix]. by rewrite H.
Qed.

Lemma replace_from_before pre t :
  no_select_start pre = true -> starts_with_S t = false ->
  replace_from (pre ++ t) 0 = pre ++ replace_from t 0.
Proof.
  intros Hpre Ht. induction pre as [|c pre IH]; [done|].
  cbn [no_select_start] in Hpre. apply andb_true_iff in Hpre as [Hc Hpre].
  apply negb_true_iff in Hc.
  change (String c pre ++ t) with (String c (pre ++ t)).
  change (String c pre ++ replace_from t 0) with (String c (pre ++ replace_from t 0)).
  cbn [replace_from]. rewrite match_here_None, IH; [done|done|].
  destruct pre as [|c2 pre]; [|exact Hc].
  change ("" ++ t) with t. rewrite Ht. apply andb_false_r.
Qed.

Lemma replace_from_unmatched t :
  no_select_start t = true -> replace_from t 0 = t.
Proof.
  induction t as [|c t IH]; [done|]. cbn [no_select_start]. intros Ht.
  apply andb_true_iff in Ht as [Hc Ht]. apply negb_true_iff in Hc.
  cbn [replace_from]. by rewrite match_here_None, IH.
Qed.

Lemma replace_from_skip m t :
  replace_from (m ++ t) (String.length m) = replace_from t 0.
Proof.
  induction m as [|c m IH]; [by destruct t|]. exact IH.
Qed.

Lemma injectExpr_app s post :
  injectExpr s ++ post
  = String "(" (("SELECT '" ++ injectionString ++ " " ++ escapeForSqlStr s ++ "')") ++ post).
Proof. reflexivity. Qed.

Lemma match_here_injectExpr s post :
  match_here (injectExpr s ++ post) = group_then_closing (escapeForSqlStr s ++ "')" ++ post).
Proof.
  rewrite <- (string_app_assoc (escapeForSqlStr s) "')" post). reflexivity.
Qed.

(** X16 (injected SQL comes back).  In a text that holds [injectExpr s]
    behind a part without an opening parenthesis followed by [S], the
    replacement of [getInjectedSqlite] puts [s] itself in the place of the
    expression, whatever quotes [s] holds, and goes on behind it, as long as
    [s] has a character that is not a quote. *)
Theorem replaceInjected_injectExpr (pre s post : string) :
  no_select_start pre = true ->
  all_quotes s = false ->
  replaceInjected (pre ++ injectExpr s ++ post) = pre ++ s ++ replaceInjected post.
Proof.
  intros Hpre Hs. unfold replaceInjected.
  rewrite replace_from_before by done. f_equal.
  pose proof (match_here_injectExpr s post) as Hmatch.
  rewrite group_then_closing_escaped in Hmatch by done.
  rewrite injectExpr_app in *. cbn [replace_from]. rewrite Hmatch.
  rewrite unescapeSqlStr_escapeForSqlStr. f_equal.
  rewrite string_length_app, Nat.add_sub. apply replace_from_skip.
Qed.

Lemma replaceInjected_injectExpr_witness :
  replaceInjected (injectExprCast "a'b" "Integer")
  = "(CAST (" ++ "a'b" ++ replaceInjected " AS Integer))".
Proof.
  apply (replaceInjected_injectExpr "(CAST (" "a'b" " AS Integer))"); reflexivity.
Defined.

Lemma no_select_start_quotes s t :
  all_quotes s = true -> no_select_start t = true ->
  no_select_start (escapeForSqlStr s ++ t) = true.
Proof.
  intros Hs Ht. induction s as [|c s IH]; [done|].
  cbn [all_quotes] in Hs. apply andb_true_iff in Hs as [Hc Hs].
  apply Ascii.eqb_eq in Hc as ->. exact (IH Hs).
Qed.

Lemma replace_from_unmatched_here c rest :
  match_here (String c rest) = None ->
  replace_from (String c rest) 0 = String c (replace_from rest 0).
Proof. intros H. cbn [replace_from]. by rewrite H. Qed.

Lemma starts_with_S_quotes s :
  all_quotes s = true -> starts_with_S (escapeForSqlStr s ++ "')") = false.
Proof.
  destruct s as [|c s]; [reflexivity|]. cbn [escapeForSqlStr all_quotes].
  by destruct (Ascii.eqb_spec c "'") as [->|Hc].
Qed.

Lemma injectExpr_cons s :
  injectExpr s
  = String "(" (("SELECT '" ++ injectionString ++ " ") ++ (escapeForSqlStr s ++ "')")).
Proof. reflexivity. Qed.

(** X17 (an injected text of quotes only is not found).  When [s] is empty
    or holds nothing but quotes, the pattern does not match [injectExpr s]:
    the group asks for a character that is not a quote, and the text is
    returned as it was. *)
Theorem replaceInjected_quotes_only (s : string) :
  all_quotes s = true -> replaceInjected (injectExpr s) = injectExpr s.
Proof.
  intros Hs. unfold replaceInjected.
  pose proof (match_here_injectExpr s "") as Hmatch.
  rewrite string_app_nil, group_then_closing_quotes in Hmatch by done.
  rewrite injectExpr_cons in *.
  rewrite (replace_from_unmatched_here _ _ Hmatch). f_equal.
  rewrite replace_from_before.
  - rewrite replace_from_unmatched; [done|]. by apply no_select_start_quotes.
  - reflexivity.
  - by apply starts_with_S_quotes.
Qed.

Lemma replaceInjected_quotes_only_witness :
  replaceInjected (injectExpr "") = injectExpr "".
Proof. apply replaceInjected_quotes_only. reflexivity. Defined.

End Quoting.

(* ===================================================================== *)
(** ** The transform function registered with SQLite *)
(* ===================================================================== *)

Section TransformOnce.
Import TransformFunction.
Context {V Row : Type}.
Context (empty_row : Row) (row_set : string -> V -> Row -> Row)
        (row_get : Row -> string -> option V).
Context (transform : Row -> Row).

Local Abbreviation impl := (impl empty_row row_set row_get transform).
Local Abbreviation impl_all := (impl_all empty_row row_set row_get transform).
Local Abbreviation inputRow := (inputRow row_set).

(** The calls after the first one of a row answer from the row that was
    kept, whatever values they are given. *)
Lemma impl_all_rest classDatas classId cd out :
  snd <$> List.find (fun e => String.eqb (fst e) classId) classDatas = Some cd ->
  forall (rest : list (string * list V)) (c : nat),
    (1 <= c)%nat ->
    (c + Datatypes.length rest)%nat = Datatypes.length (RunCompressed.properties cd) ->
    rest <> [] ->
    impl_all classDatas ((fun call => (call.1, classId, call.2)) <$> rest) (mkState c out)
    = (mkState 0 out, (fun call => Returns (row_get out (call.1))) <$> rest).
Proof.
  intros Hcd. induction rest as [|[key values] rest IH]; intros c Hc Hn Hne; [done|]. clear Hne.
  cbn [fmap list_fmap impl_all fst snd]. unfold TransformFunction.impl.
  rewrite Hcd. cbn [callCount outputRow].
  destruct (Nat.eqb_spec c 0) as [->|_]; [lia|].
  destruct rest as [|call rest].
  - cbn [Datatypes.length] in Hn.
    destruct (Nat.leb_spec (Datatypes.length (RunCompressed.properties cd)) (S c)); [|lia].
    done.
  - cbn [Datatypes.length] in Hn.
    destruct (Nat.leb_spec (Datatypes.length (RunCompressed.properties cd)) (S c)); [lia|].
    rewrite (IH (S c)) by (cbn [Datatypes.length]; first [lia | done]). done.
Qed.

(** X2 (one transform per row).  Let the class have [n >= 1] properties and
    the count stand at 0.  Over the [n] calls SQLite makes for a row, the
    row built from the values of the FIRST call is transformed, every call
    answers with the field of that one transformed row that its key names,
    the values handed to the later calls are not looked at, and the count is
    back at 0 afterwards. *)
Theorem transform_once_per_row classDatas classId cd key values
    (rest : list (string * list V)) row st :
  snd <$> List.find (fun e => String.eqb (fst e) classId) classDatas = Some cd ->
  Datatypes.length (RunCompressed.properties cd) = S (Datatypes.length rest) ->
  callCount st = 0%nat ->
  inputRow (RunCompressed.properties cd) values empty_row = Some row ->
  impl_all classDatas
    ((key, classId, values) :: ((fun call => (call.1, classId, call.2)) <$> rest)) st
  = (mkState 0 (transform row),
     Returns (row_get (transform row) key)
       :: ((fun call => Returns (row_get (transform row) (call.1))) <$> rest)).
Proof.
  intros Hcd Hn Hcount Hrow. cbn [impl_all]. unfold TransformFunction.impl.
  rewrite Hcd, Hcount, Hrow. cbn [Nat.eqb option_map].
  destruct rest as [|call rest].
  - cbn [Datatypes.length] in Hn. rewrite Hn. done.
  - cbn [Datatypes.length] in Hn. rewrite Hn. cbn [Nat.leb].
    rewrite (impl_all_rest classDatas classId cd (transform row) Hcd (call :: rest) 1)
      by (cbn [Datatypes.length]; first [lia | done]).
    done.
Qed.

End TransformOnce.

(** X2 at a class of two properties: the second call is handed the values
    of another row and still answers from the first. *)
Lemma transform_once_per_row_witness :
  TransformFunction.impl_all [] (fun k v row => map_set k v row)
    (fun row k => snd <$> List.find (fun e => String.eqb (fst e) k) row)
    (fmap (fun e => (e.1, e.2 + 1)))
    Examples.keyed_classDatas
    [("ECInstanceId"%string, "Generic.PhysicalObject"%string, [5; 7]);
     ("Weight"%string, "Generic.PhysicalObject"%string, [9; 9])]
    (TransformFunction.initial [])
  = (TransformFunction.mkState 0 [("ECInstanceId"%string, 6); ("Weight"%string, 8)],
     [TransformFunction.Returns (Some 6); TransformFunction.Returns (Some 8)]).
Proof.
  exact (transform_once_per_row [] (fun k v row => map_set k v row)
           (fun row k => snd <$> List.find (fun e => String.eqb (fst e) k) row)
           (fmap (fun e => (e.1, e.2 + 1)))
           Examples.keyed_classDatas "Generic.PhysicalObject" _ "ECInstanceId" [5; 7]
           [("Weight"%string, [9; 9])] _ (TransformFunction.initial [])
           eq_refl eq_refl eq_refl eq_refl).
Defined.

(* ===================================================================== *)
(** ** The synthesized statements of a class *)
(* ===================================================================== *)

Section SelectAndRemap.
Import RunCompressed Synthesized.

(** One property reads as many columns as the select gives it, from the
    one after the last column read, unless it is transformed: a transform is
    handed one column whatever the type. *)
Lemma remapped_prop_reads transforms root p j :
  (name p ∈ transforms -> Datatypes.length (select_columns p) = 1%nat) ->
  read_column <$> (remapped_prop transforms root p j).1
    = Some <$> seq (S j) (Datatypes.length (select_columns p)) /\
  (remapped_prop transforms root p j).2 = (j + Datatypes.length (select_columns p))%nat.
Proof.
  intros Hone. unfold remapped_prop.
  destruct (bool_decide (name p ∈ transforms)) eqn:Hin.
  - apply bool_decide_eq_true in Hin. rewrite (Hone Hin). cbn. split; [done|lia].
  - unfold select_columns. destruct (propertyType p); cbn; (split; [done|lia]).
Qed.

(** X4 (the remapping select reads the select's columns in order).  When
    every transformed property has a type of one column, as the geometry
    stream has, the [k]-th expression of [remappedSql] reads the column
    [_k] of [selectSql]: every column of the class's select is read exactly
    once, in order, and there are as many expressions as columns. *)
Theorem remappedSql_reads_every_column transforms classFullName root props :
  (forall p, p ∈ props -> name p ∈ transforms ->
     Datatypes.length (select_columns p) = 1%nat) ->
  read_column <$> remappedSql transforms root props 0
    = Some <$> seq 1 (Datatypes.length (columns (selectSql classFullName root props))).
Proof.
  intros Hone. cbn [columns selectSql].
  assert (Hfrom : forall j,
            read_column <$> remappedSql transforms root props j
            = Some <$> seq (S j) (Datatypes.length (flat_map select_columns props)));
    [|apply Hfrom].
  induction props as [|p props IH]; intros j; [done|].
  cbn [remappedSql flat_map].
  destruct (remapped_prop_reads transforms root p j) as [Hreads Hnext].
  { apply Hone. left. }
  rewrite fmap_app, Hreads, Hnext, IH by (intros p' Hp'; apply Hone; by right).
  rewrite length_app, seq_app, fmap_app. done.
Qed.

(** X4 at a class with a point and a navigation property before the
    geometry stream. *)
Lemma remappedSql_reads_every_column_witness :
  read_column
    <$> remappedSql ["GeometryStream"%string] RootType.element Examples.placed_properties 0
  = Some <$> [1; 2; 3; 4; 5; 6; 7]%nat.
Proof.
  apply (remappedSql_reads_every_column ["GeometryStream"%string] "Generic.PhysicalObject"
           RootType.element Examples.placed_properties).
  intros p Hp Hin. by_cases_on_member Hp; first [reflexivity | exfalso; set_solver].
Defined.

End SelectAndRemap.

(* ===================================================================== *)
(** ** Identifiers of elements and code specs in the run-compressed revision *)
(* ===================================================================== *)

Section ElementsAndCodeSpecs.
Import CompactRemapTable RunCompressed.





(** X6 (identifiers of elements).  Let the identifiers of the elements lie
    within [2^53] and let the counter stay within it to the last row.  The
    element pass walks the elements of the source but the three bootstrap
    ones in ascending order of their identifier, and hands the [i]-th of them
    the [i]-th value of the counter [useElemIdRaw]: the new identifiers are
    consecutive, in the order of the old ones, and nothing else in the table
    is touched. *)
Theorem element_pass_consecutive (src : IModel) (a : Alloc) :
  wf (table a) ->
  NoDup (ECInstanceId <$> bis_Element src) ->
  (forall id, id ∈ ECInstanceId <$> bis_Element src -> - 2 ^ 53 <= id <= 2 ^ 53) ->
  0 <= next a ->
  next a + Z.of_nat (Datatypes.length (sourceElemRemapSelect src)) <= 2 ^ 53 ->
  let ids := sourceElemRemapSelect src in
  let a' := element_pass src a in
  StronglySorted Z.lt ids /\
  (forall id, id ∈ ids <-> id ∈ ECInstanceId <$> bis_Element src /\ id ∉ bootstrap_ids) /\
  next a' = next a + Z.of_nat (Datatypes.length ids) /\
  (forall (i : nat) s, ids !! i = Some s -> get (table a') s = Some (next a + Z.of_nat i)) /\
  (forall s, s ∉ ids -> get (table a') s = get (table a) s).
Proof.
  intros Hwf Hnd Hids Hlo Hhi ids a'.
  assert (Hnd' : NoDup ids).
  { unfold ids, sourceElemRemapSelect. rewrite merge_sort_Permutation.
    apply NoDup_ListNoDup, List.NoDup_filter, NoDup_ListNoDup, Hnd. }
  assert (Ha' : a' = remap_elements ids a).
  { unfold a', element_pass. fold ids. rewrite as_numbers_exact; [done|].
    intros s Hs. apply Hids. by apply sourceElemRemapSelect_spec in Hs as [? _]. }
  rewrite Ha'. split.
  { apply StronglySorted_lt; [|done]. apply Sorted_merge_sort. apply _. }
  split; [apply sourceElemRemapSelect_spec|].
  split; [apply next_remap_elements; [lia|done]|].
  split.
  - intros i s Hi. apply get_remap_elements_NoDup; try done. lia.
  - intros s Hs. by apply get_remap_elements_other.
Qed.

(** X6 at the source of the examples, from the counter 0x31. *)
Lemma element_pass_consecutive_witness :
  sourceElemRemapSelect Examples.source_iModel = [0x11; 0x20] /\
  get (table (element_pass Examples.source_iModel
                (mkAlloc 0x31 (CompactRemapTable.remap 0 0 empty)))) 0x20 = Some 0x32.
Proof.
  assert (Hnd : NoDup (ECInstanceId <$> bis_Element Examples.source_iModel)).
  { apply (bool_decide_unpack _). vm_compute. exact I. }
  assert (Hids : forall id, id ∈ ECInstanceId <$> bis_Element Examples.source_iModel ->
                   - 2 ^ 53 <= id <= 2 ^ 53).
  { intros id Hid. cbn in Hid.
    repeat (apply elem_of_cons in Hid as [->|Hid]);
      [split; by vm_compute..|by apply elem_of_nil in Hid]. }
  destruct (element_pass_consecutive Examples.source_iModel
              (mkAlloc 0x31 (CompactRemapTable.remap 0 0 empty))
              (wf_remap 0 0 empty wf_empty) Hnd Hids) as (_ & _ & _ & Hget & _).
  { by vm_compute. }
  { by vm_compute. }
  split; [vm_compute; reflexivity|].
  apply (Hget 1%nat 0x20). vm_compute. reflexivity.
Defined.

End ElementsAndCodeSpecs.

(* ===================================================================== *)
(** ** Identifier strings: hexadecimal digits *)
(* ===================================================================== *)

Section Hexadecimal.
Import HexDigits JsonTwoPhase.

Lemma uint_value_pos d : forall acc : positive,
  uint_value d (Z.pos acc) = Z.pos (Pos.of_hex_uint_acc d acc).
Proof.
  induction d; intros acc; cbn [uint_value Pos.of_hex_uint_acc]; try done;
    rewrite <- IHd; f_equal; lia.
Qed.

Lemma uint_value_0 d : uint_value d 0 = Z.of_N (Pos.of_hex_uint d).
Proof.
  induction d; cbn [uint_value Pos.of_hex_uint]; try done;
    rewrite ?Z.mul_0_r, ?Z.add_0_l; try done; apply uint_value_pos.
Qed.

Lemma parseDigits_uint d : forall acc,
  Js.parseDigits (NilEmpty.string_of_uint d) (Some acc) = Some (uint_value d acc).
Proof.
  induction d; intros acc; cbn [NilEmpty.string_of_uint Js.parseDigits uint_value]; try done;
    match goal with
    | |- context [Js.hexDigitValue ?c] =>
        let v := eval vm_compute in (Js.hexDigitValue c) in
        change (Js.hexDigitValue c) with v
    end;
    cbn [default from_option id]; rewrite IHd; do 2 f_equal; lia.
Qed.

Lemma parseInt16_0x s :
  Js.parseInt16 (String "0" (String "x" s))
  = match Js.parseDigits s None with Some m => Some (1 * m) | None => None end.
Proof. reflexivity. Qed.

Lemma parseDigits_uint_None d :
  d <> Hexadecimal.Nil ->
  Js.parseDigits (NilEmpty.string_of_uint d) None = Some (uint_value d 0).
Proof.
  destruct d; [done|..]; intros _; cbn [NilEmpty.string_of_uint Js.parseDigits uint_value];
    match goal with
    | |- context [Js.hexDigitValue ?c] =>
        let v := eval vm_compute in (Js.hexDigitValue c) in
        change (Js.hexDigitValue c) with v
    end;
    cbn [default from_option id]; rewrite parseDigits_uint; done.
Qed.

Lemma string_of_uint_nonnil d :
  d <> Hexadecimal.Nil -> NilZero.string_of_uint d = NilEmpty.string_of_uint d.
Proof. by destruct d. Qed.

Lemma parseInt16_hex (p : positive) :
  Js.parseInt16 ("0x" ++ Js.toString16 (Z.pos p)) = Some (Z.pos p).
Proof.
  unfold Js.toString16. cbn [Z.to_hex_int NilZero.string_of_int].
  pose proof (HexadecimalPos.Unsigned.to_uint_nonnil p) as Hnil.
  rewrite (string_of_uint_nonnil _ Hnil).
  change ("0x" ++ ?s)%string with (String "0" (String "x" s)).
  rewrite parseInt16_0x, (parseDigits_uint_None _ Hnil), uint_value_0, HexadecimalPos.Unsigned.of_to.
  reflexivity.
Qed.




Lemma instr_hex_range c : 0 <= instr_hex c < 16.
Proof. destruct c as [[] [] [] [] [] [] [] []]; vm_compute; split; congruence. Qed.

Lemma le_value_nonneg l : 0 <= le_value l.
Proof.
  induction l as [|c l IH]; cbn; [lia|]. pose proof (instr_hex_range c). unfold le_value in IH. lia.
Qed.


Lemma wrap64_small z : - 2 ^ 63 <= z < 2 ^ 63 -> wrap64 z = z.
Proof. intros Hz. unfold wrap64. rewrite Z.mod_small by lia. lia. Qed.

Lemma lor_digit d r : 0 <= d < 16 -> 0 <= r -> Z.lor d (16 * r) = d + 16 * r.
Proof.
  intros Hd Hr. rewrite <- Z.lxor_lor, <- Z.add_nocarry_lxor; try done.
  all: apply Z.bits_inj'; intros i Hi; rewrite Z.land_spec, Z.bits_0.
  all: change 16 with (2 ^ 4); rewrite Z.mul_comm, <- Z.shiftl_mul_pow2 by lia.
  all: destruct (Z.ltb_spec i 4).
  all: try (rewrite (Z.shiftl_spec_low r 4 i) by lia; apply andb_false_r).
  all: rewrite (Z.bits_above_log2 d i); [done|lia|].
  all: destruct (Z.eq_dec d 0) as [->|]; [cbn; lia|].
  all: apply Z.log2_lt_pow2; [lia|]; apply Z.lt_le_trans with (2 ^ 4); [lia|].
  all: apply Z.pow_le_mono_r; lia.
Qed.

(** The sum of the sixteen terms, as long as it stays below [2^63]. *)
Lemma lor_terms l : forall o : nat,
  le_value l * 16 ^ Z.of_nat o < 2 ^ 63 ->
  foldr Z.lor 0 (imap (fun k c => wrap64 (Z.shiftl (instr_hex c) (4 * Z.of_nat (k + o)))) l)
  = le_value l * 16 ^ Z.of_nat o.
Proof.
  induction l as [|c l IH]; intros o Hlt; [done|].
  cbn [imap foldr]. change (le_value (c :: l)) with (instr_hex c + 16 * le_value l) in *.
  pose proof (instr_hex_range c) as Hc. pose proof (le_value_nonneg l) as Hl.
  assert (Hpow : 0 < 16 ^ Z.of_nat o) by (apply Z.pow_pos_nonneg; lia).
  assert (Hshift : forall d, Z.shiftl d (4 * Z.of_nat o) = d * 16 ^ Z.of_nat o).
  { intros d. rewrite Z.shiftl_mul_pow2 by lia. f_equal.
    rewrite Z.pow_mul_r by lia. done. }
  cbn [Nat.add]. rewrite Hshift, wrap64_small by nia.
  rewrite (imap_ext _ (fun k c => wrap64 (Z.shiftl (instr_hex c) (4 * Z.of_nat (k + S o)))))
    by (intros k c' _; cbn; do 3 f_equal; lia).
  rewrite IH.
  2:{ rewrite Nat2Z.inj_succ, Z.pow_succ_r by lia. nia. }
  rewrite Nat2Z.inj_succ, Z.pow_succ_r by lia.
  replace (le_value l * (16 * 16 ^ Z.of_nat o)) with (16 * le_value l * 16 ^ Z.of_nat o) by lia.
  rewrite <- !Hshift, <- Z.shiftl_lor, lor_digit by lia. done.
Qed.

Lemma le_value_take (n : nat) : forall l,
  le_value l < 16 ^ Z.of_nat n -> le_value (take n l) = le_value l.
Proof.
  induction n as [|n IH]; intros l Hlt.
  - pose proof (le_value_nonneg l). rewrite take_0. cbn in *. lia.
  - destruct l as [|c l]; [done|]. cbn [take].
    change (le_value (c :: ?l)) with (instr_hex c + 16 * le_value l) in *.
    pose proof (instr_hex_range c). rewrite Nat2Z.inj_succ, Z.pow_succ_r in Hlt by lia.
    rewrite IH by lia. done.
Qed.

Lemma le_value_app l1 l2 :
  le_value (l1 ++ l2) = le_value l1 + 16 ^ Z.of_nat (Datatypes.length l1) * le_value l2.
Proof.
  induction l1 as [|c l1 IH]; [cbn [app Datatypes.length]; change (le_value []) with 0; lia|].
  cbn [app Datatypes.length]. change (le_value (c :: ?l)) with (instr_hex c + 16 * le_value l).
  rewrite IH, Nat2Z.inj_succ, Z.pow_succ_r by lia. lia.
Qed.

Lemma be_value_reverse l : forall acc,
  be_value acc l = acc * 16 ^ Z.of_nat (Datatypes.length l) + le_value (reverse l).
Proof.
  induction l as [|c l IH]; intros acc; [cbn; change (le_value []) with 0; lia|].
  cbn [be_value foldl]. fold (be_value (16 * acc + instr_hex c) l). rewrite IH.
  rewrite reverse_cons, le_value_app, length_reverse. cbn [Datatypes.length].
  change (le_value [c]) with (instr_hex c + 16 * 0).
  rewrite Nat2Z.inj_succ, Z.pow_succ_r by lia. lia.
Qed.

Lemma be_value_uint d : forall acc,
  be_value acc (list_ascii_of_string (NilEmpty.string_of_uint d)) = uint_value d acc.
Proof.
  induction d; intros acc; cbn [NilEmpty.string_of_uint list_ascii_of_string be_value foldl uint_value];
    try done;
    match goal with
    | |- context [instr_hex ?c] =>
        let v := eval vm_compute in (instr_hex c) in change (instr_hex c) with v
    end; rewrite ?Z.add_0_r; apply IHd.
Qed.

Lemma lower_uint d : lower (NilEmpty.string_of_uint d) = NilEmpty.string_of_uint d.
Proof. induction d; cbn [NilEmpty.string_of_uint lower]; try done; by rewrite IHd. Qed.


Lemma list_ascii_of_string_app s1 s2 :
  list_ascii_of_string (s1 ++ s2) = list_ascii_of_string s1 ++ list_ascii_of_string s2.
Proof. induction s1 as [|c s1 IH]; [done|]. simpl. by rewrite IH. Qed.

Lemma be_value_toString16 n :
  0 <= n -> be_value 0 (list_ascii_of_string (Js.toString16 n)) = n.
Proof.
  intros Hn. unfold Js.toString16. destruct n as [|p|p]; [done| |lia].
  cbn [Z.to_hex_int NilZero.string_of_int].
  rewrite (string_of_uint_nonnil _ (HexadecimalPos.Unsigned.to_uint_nonnil p)).
  by rewrite be_value_uint, uint_value_0, HexadecimalPos.Unsigned.of_to.
Qed.

Lemma lower_toString16 n : 0 <= n -> lower (Js.toString16 n) = Js.toString16 n.
Proof.
  intros Hn. unfold Js.toString16. destruct n as [|p|p]; [done| |lia].
  cbn [Z.to_hex_int NilZero.string_of_int].
  rewrite (string_of_uint_nonnil _ (HexadecimalPos.Unsigned.to_uint_nonnil p)). apply lower_uint.
Qed.

(** The sixteen terms of [readHexFromJson] add up to the number an
    identifier string denotes. *)
Lemma hex_terms_value v n :
  0 <= n < 2 ^ 63 ->
  lower v = ("0x" ++ Js.toString16 n)%string ->
  foldr Z.lor 0 (hex_terms v) = n.
Proof.
  intros Hn Hv. unfold hex_terms. rewrite Hv.
  set (L := list_ascii_of_string ("0000000000000000" ++ ("0x" ++ Js.toString16 n))).
  assert (Hbe : be_value 0 L = n).
  { unfold L. rewrite !list_ascii_of_string_app. unfold be_value. rewrite !foldl_app.
    apply (be_value_toString16 n). lia. }
  rewrite be_value_reverse in Hbe. cbn [Z.mul] in Hbe.
  assert (Htake : le_value (take 16 (reverse L)) = n).
  { rewrite le_value_take; [lia|]. change (16 ^ Z.of_nat 16) with (2 ^ 64). lia. }
  rewrite (imap_ext _ (fun k c => wrap64 (Z.shiftl (instr_hex c) (4 * Z.of_nat (k + 0)))))
    by (intros k c _; cbn; do 3 f_equal; lia).
  rewrite lor_terms; rewrite Htake; cbn; lia.
Qed.

(** X7 ([readHexFromJson] decodes identifier strings).  When the JSON of
    the row holds, at the place the expression reads, a text that is ["0x"]
    followed by the hexadecimal digits of a number below [2^63], in either
    case, the sixteen shifted [instr] terms of the expression add up to that
    number. *)
Theorem readHexFromJson_decodes x p accessStr v n :
  0 <= n < 2 ^ 63 ->
  JSON_EXTRACT x
    (default (name p ++ (if bool_decide (propertyType p = PropertyType.Navigation)
                         then ".Id" else ""))%string accessStr) = Text v ->
  lower v = ("0x" ++ Js.toString16 n)%string ->
  readHexFromJson x p accessStr = Some n.
Proof.
  intros Hn Hx Hv. unfold readHexFromJson. rewrite Hx. cbn [text_of].
  by rewrite (hex_terms_value v n).
Qed.


(** X7 at a navigation property whose identifier is written in capitals. *)
Lemma readHexFromJson_decodes_witness :
  readHexFromJson
    (JObject [("Parent"%string, JObject [("Id"%string, JString "0x1F")])])
    (mkProp "Parent" PropertyType.Navigation false) None = Some 0x1f.
Proof.
  apply (readHexFromJson_decodes _ _ None "0x1F" 0x1f); [lia|reflexivity|reflexivity].
Defined.

End Hexadecimal.

(* ===================================================================== *)
(** ** What the remappers answer *)
(* ===================================================================== *)

Section Remappers.
Import HexDigits.

(** X8 (the getters of the run-compressed remapper answer identifier
    strings).  For an identifier that [parseInt] cannot read the getter
    answers ["0"].  Otherwise its answer is again an identifier string:
    [parseInt(answer, 16)] is the target the table holds for the
    identifier, and 0 when it holds none, so the answer of one remapper can
    be handed to the getter of the next. *)
Theorem makeGetter_parses_back (T : CompactRemapTable.t) (id : string) :
  (Js.parseInt16 id = None -> RunCompressed.makeGetter T id = "0"%string) /\
  (forall n, Js.parseInt16 id = Some n ->
     (forall t, CompactRemapTable.get T n = Some t -> 0 <= t) ->
     Js.parseInt16 (RunCompressed.makeGetter T id)
     = Some (default 0 (CompactRemapTable.get T n))).
Proof.
  unfold RunCompressed.makeGetter. split; [by intros ->|].
  intros n -> Hpos. destruct (CompactRemapTable.get T n) as [[|t|t]|] eqn:Hget; try done.
  - apply parseInt16_hex.
  - specialize (Hpos _ eq_refl). lia.
Qed.








End Remappers.

(* ===================================================================== *)
(** ** The code spec pass of the two-pass revision *)
(* ===================================================================== *)

Section CodeSpecPass.
Import JsonTwoPhase.

Lemma find_app_Some {A} (f : A -> bool) (l1 l2 : list A) x :
  List.find f l1 = Some x -> List.find f (l1 ++ l2) = Some x.
Proof.
  induction l1 as [|y l1 IH]; [done|]. cbn [List.find app].
  destruct (f y); [done|apply IH].
Qed.

Lemma find_app_None {A} (f : A -> bool) (l1 l2 : list A) :
  List.find f l1 = None -> List.find f (l1 ++ l2) = List.find f l2.
Proof.
  induction l1 as [|y l1 IH]; [done|]. cbn [List.find app].
  destruct (f y); [done|apply IH].
Qed.

Lemma find_name_None (name : string) (rows : list CodeSpecRow) :
  List.find (fun t => String.eqb name (Name t)) rows = None <-> name ∉ Name <$> rows.
Proof.
  induction rows as [|t rows IH]; cbn [List.find fmap list_fmap].
  - split; [intros _ H; by apply elem_of_nil in H|done].
  - rewrite not_elem_of_cons. destruct (String.eqb_spec name (Name t)) as [->|Hne].
    + split; [done|]. by intros [? _].
    + rewrite IH. tauto.
Qed.

(** One turn of the pass: a code spec whose name the target holds is
    remapped to the row of that name; one whose name is new is inserted
    under the next identifier and remapped to it. *)
Lemma codespec_row_spec (s : CodeSpecRow) (w : World) :
  codespec_remap w !! Id s = None ->
  (forall t, t ∈ codeSpecs w -> Id t < next_instance_id w) ->
  exists w' added,
    codespec_row s w = (w', Ok tt) /\
    codeSpecs w' = codeSpecs w ++ added /\
    added = (if bool_decide (Name s ∈ Name <$> codeSpecs w) then []
             else [mkCodeSpec (next_instance_id w) (Name s) (JsonProperties s)]) /\
    (exists t, List.find (fun t => String.eqb (Name s) (Name t)) (codeSpecs w') = Some t /\
               codespec_remap w' = <[Id s := Id t]> (codespec_remap w)) /\
    (forall t, t ∈ codeSpecs w' -> Id t < next_instance_id w') /\
    elements w' = elements w /\ element_remap w' = element_remap w /\
    next_instance_id w' = next_instance_id w + Z.of_nat (Datatypes.length added).
Proof.
  intros Hnew Hids. unfold codespec_row, bind, gets.
  destruct (List.find (fun t => String.eqb (Name s) (Name t)) (codeSpecs w)) as [t|] eqn:Hfind.
  - unfold ret, remap_codespec, remap_insert. rewrite Hnew.
    exists (set_codespec_remap (<[Id s := Id t]> (codespec_remap w)) w), [].
    rewrite app_nil_r. split; [done|]. split; [done|]. split.
    { rewrite bool_decide_eq_true_2; [done|].
      destruct (decide (Name s ∈ Name <$> codeSpecs w)) as [|Hn]; [done|].
      apply find_name_None in Hn. congruence. }
    split; [by exists t|]. cbn [Datatypes.length]. rewrite Z.add_0_r. done.
  - assert (Hex : existsb (fun t => Id t =? next_instance_id w) (codeSpecs w) = false).
    { apply not_true_is_false. intros (t & Ht%list_elem_of_In & Heq)%existsb_exists.
      apply Z.eqb_eq in Heq. specialize (Hids t Ht). lia. }
    rewrite Hex. unfold remap_codespec, remap_insert. cbn [codespec_remap]. rewrite Hnew.
    set (row := mkCodeSpec (next_instance_id w) (Name s) (JsonProperties s)).
    eexists _, [row]. split; [reflexivity|].
    cbn [codeSpecs codespec_remap set_codespec_remap elements element_remap next_instance_id].
    split; [reflexivity|]. split.
    { rewrite bool_decide_eq_false_2; [done|]. by apply find_name_None. }
    split.
    { exists row. split; [|reflexivity]. rewrite (find_app_None _ _ _ Hfind).
      cbn [List.find row Name]. by rewrite String.eqb_refl. }
    split; [|done]. intros t [Ht|Ht%list_elem_of_singleton]%elem_of_app.
    + specialize (Hids t Ht). lia.
    + subst t. cbn [row Id]. lia.
Qed.

Lemma filter_new_names (s : CodeSpecRow) (src target extra : list CodeSpecRow) :
  Name s ∉ Name <$> src ->
  (forall e, e ∈ extra -> Name e = Name s) ->
  List.filter (fun s => negb (bool_decide (Name s ∈ Name <$> (target ++ extra)))) src
  = List.filter (fun s => negb (bool_decide (Name s ∈ Name <$> target))) src.
Proof.
  intros Hname Hextra. apply List.filter_ext_in. intros s' Hs'%list_elem_of_In.
  f_equal. apply bool_decide_ext. rewrite fmap_app, elem_of_app.
  split; [|by left]. intros [?|(e & Heq & He)%list_elem_of_fmap]; [done|].
  exfalso. apply Hname. rewrite <- (Hextra _ He), <- Heq. by apply list_elem_of_fmap_2.
Qed.

(** X10 (code specs are matched by name in the two-pass revision).  Let
    the code specs of the source have distinct identifiers and names, none
    of them remapped yet, and let the identifiers of the target lie below
    its sequence.  Then the pass ends well; it appends to the target one row
    for every code spec whose name the target did not hold, in the order of
    the source and under consecutive identifiers, and no other row; every
    code spec of the source is remapped to the row of its name in the
    target; and elements are not touched.  In particular a pass over code
    specs whose names the target holds already inserts nothing. *)
Theorem codespec_pass_matches_by_name (src : list CodeSpecRow) : forall (w : World),
  NoDup (Id <$> src) ->
  NoDup (Name <$> src) ->
  (forall s, s ∈ src -> codespec_remap w !! Id s = None) ->
  (forall t, t ∈ codeSpecs w -> Id t < next_instance_id w) ->
  exists w',
    for_each src codespec_row w = (w', Ok tt) /\
    codeSpecs w'
      = codeSpecs w ++
        imap (fun i s => mkCodeSpec (next_instance_id w + Z.of_nat i) (Name s) (JsonProperties s))
          (List.filter (fun s => negb (bool_decide (Name s ∈ Name <$> codeSpecs w))) src) /\
    (forall s, s ∈ src ->
       exists t, List.find (fun t => String.eqb (Name s) (Name t)) (codeSpecs w') = Some t /\
                 codespec_remap w' !! Id s = Some (Id t)) /\
    (forall id, id ∉ Id <$> src -> codespec_remap w' !! id = codespec_remap w !! id) /\
    (forall t, t ∈ codeSpecs w' -> Id t < next_instance_id w') /\
    elements w' = elements w /\ element_remap w' = element_remap w.
Proof.
  induction src as [|s src IH]; intros w Hids Hnames Hnew Hseq.
  - exists w. cbn [List.filter imap]. rewrite app_nil_r. repeat split; try done.
    intros s Hs. by apply elem_of_nil in Hs.
  - rewrite fmap_cons in Hids. rewrite fmap_cons in Hnames.
    apply NoDup_cons in Hids as [Hid Hids]. apply NoDup_cons in Hnames as [Hname Hnames].
    destruct (codespec_row_spec s w) as
      (w1 & added1 & Hstep & Hrows1 & Hadded1 & (t & Hfind & Hmap1) & Hseq1 & Hel1 & Her1 & Hnext1).
    { apply Hnew. left. } { done. }
    destruct (IH w1 Hids Hnames) as (w' & Hrun & Hrows & Hmap & Hother & Hseq' & Hel & Her).
    { intros s' Hs'. rewrite Hmap1, lookup_insert_ne.
      - apply Hnew. by right.
      - intros Heq. apply Hid. rewrite Heq. by apply list_elem_of_fmap_2. }
    { done. }
    exists w'. cbn [for_each]. rewrite (bind_Ok _ _ _ _ _ Hstep).
    split; [done|]. split.
    { rewrite Hrows, Hrows1, Hnext1, Hadded1. cbn [List.filter].
      destruct (bool_decide (Name s ∈ Name <$> codeSpecs w)) eqn:Hin;
        cbn [negb Datatypes.length imap].
      - rewrite app_nil_r, Z.add_0_r. done.
      - rewrite <- app_assoc. cbn [app]. do 2 f_equal; [by rewrite Z.add_0_r|].
        rewrite (filter_new_names s src) by
          (first [done | intros e He%list_elem_of_singleton; by subst e]).
        apply imap_ext. intros i s' _. cbn. f_equal. lia. }
    split.
    { intros s' [->|Hs']%elem_of_cons; [|by apply Hmap].
      exists t. split.
      - rewrite Hrows. by apply find_app_Some.
      - rewrite Hother by done. rewrite Hmap1. apply lookup_insert_eq. }
    split.
    { intros id Hid'. rewrite fmap_cons in Hid'. apply not_elem_of_cons in Hid' as [Hne Hid'].
      rewrite Hother by done. rewrite Hmap1. by apply lookup_insert_ne. }
    split; [done|]. split; congruence.
Qed.

(** X10 at the example: "X" is in the target as 9, "Y" is new. *)
Lemma codespec_pass_matches_by_name_witness :
  exists w',
    for_each (source_codeSpecs Examples.two_pass_env) codespec_row Examples.two_pass_start
      = (w', Ok tt) /\
    codeSpecs w' = [mkCodeSpec 9 "X" "{}"; mkCodeSpec 0x30 "Y" "{}"] /\
    (exists t, List.find (fun t => String.eqb "X" (Name t)) (codeSpecs w') = Some t /\
               codespec_remap w' !! 5 = Some (Id t)).
Proof.
  destruct (codespec_pass_matches_by_name (source_codeSpecs Examples.two_pass_env)
              Examples.two_pass_start) as (w' & Hrun & Hrows & Hmap & _).
  - apply (bool_decide_unpack _). vm_compute. exact I.
  - apply (bool_decide_unpack _). vm_compute. exact I.
  - intros s Hs. reflexivity.
  - intros t Ht. by_cases_on_member Ht. reflexivity.
  - exists w'. split; [exact Hrun|]. split; [exact Hrows|].
    apply (Hmap (mkCodeSpec 5 "X" "{}")). left.
Defined.

End CodeSpecPass.

(* ===================================================================== *)
(** ** Errors and repetition in the two passes *)
(* ===================================================================== *)

Section PassErrors.
Import JsonTwoPhase.

Lemma for_each_app {W A} (xs ys : list A) (body : A -> M W unit) (w : W) :
  for_each (xs ++ ys) body w = (for_each xs body ;; for_each ys body) w.
Proof.
  revert w. induction xs as [|x xs IH]; intros w; cbn [app for_each].
  - done.
  - unfold bind. destruct (body x w) as [w1 [[]|e]]; [|done]. rewrite IH. done.
Qed.

(** X11 (a row of a class without queries stops the first pass where it
    stands).  Let the rows before it be rows the first pass accepts.  Then
    the assertion that looks for the populate query of its class fails; the
    rows before it stay inserted, with their placeholders, and remapped;
    the row itself and the rows after it are neither inserted nor remapped;
    and the second pass does not run. *)
Theorem first_pass_stops_at_unknown_class queryMap before r after w :
  NoDup (sourceId <$> before) ->
  (forall r', r' ∈ before -> element_remap w !! sourceId r' = None) ->
  (forall r', r' ∈ before -> is_Some (queryMap_get queryMap (classFullName r'))) ->
  (forall row, row ∈ elements w -> row_id row < next_instance_id w) ->
  queryMap_get queryMap (classFullName r) = None ->
  exists w' message,
    for_each (before ++ r :: after) (first_pass_row queryMap) w
      = (w', Throw (AssertionError message)) /\
    two_passes queryMap (before ++ r :: after) w = (w', Throw (AssertionError message)) /\
    Datatypes.length (elements w')
      = (Datatypes.length (elements w) + Datatypes.length before)%nat /\
    (forall (i : nat) r' props,
       before !! i = Some r' -> queryMap_get queryMap (classFullName r') = Some props ->
       element_remap w' !! sourceId r' = Some (next_instance_id w + Z.of_nat i) /\
       elements w' !! (Datatypes.length (elements w) + i)%nat
         = Some (populate_row (next_instance_id w + Z.of_nat i) (classFullName r') props
                   (jsonString r'))) /\
    (forall s, s ∉ sourceId <$> before -> element_remap w' !! s = element_remap w !! s).
Proof.
  intros Hnd Hfresh Hcls Hold Hnone.
  destruct (first_pass_spec queryMap before w Hnd Hfresh Hcls Hold)
    as (w' & new & Hrun & _ & Hels & Hlen & Hrows & Hother).
  assert (Hfirst : for_each (before ++ r :: after) (first_pass_row queryMap) w
                   = (w', Throw (AssertionError "couldn't find insert query for class"))).
  { rewrite for_each_app, (bind_Ok _ _ _ _ _ Hrun). cbn [for_each].
    unfold bind, first_pass_row. rewrite Hnone. done. }
  exists w', "couldn't find insert query for class"%string.
  split; [done|]. split.
  { unfold two_passes. by rewrite (bind_Throw _ _ _ _ _ Hfirst). }
  split; [by rewrite Hels, length_app, Hlen|]. split; [|done].
  intros i r' props Hi Hprops. destruct (Hrows i r' props Hi Hprops) as [Hmap Hnew].
  split; [done|]. rewrite Hels, lookup_app_r by lia.
  replace (Datatypes.length (elements w) + i - Datatypes.length (elements w))%nat with i by lia.
  done.
Qed.

(** X11 at the example: the second row is of a class the target does not
    have. *)
Lemma first_pass_stops_at_unknown_class_witness :
  exists w' message,
    two_passes (classFullNameAndProps [Examples.node])
      [Examples.node_A; mkSourceRow JNull "Test.Unknown" 0x22; Examples.node_B]
      Examples.two_pass_world = (w', Throw (AssertionError message)) /\
    Datatypes.length (elements w') = 2%nat /\
    element_remap w' !! 0x20 = Some 0x31 /\
    element_remap w' !! 0x21 = None.
Proof.
  destruct (first_pass_stops_at_unknown_class (classFullNameAndProps [Examples.node])
              [Examples.node_A] (mkSourceRow JNull "Test.Unknown" 0x22) [Examples.node_B]
              Examples.two_pass_world)
    as (w' & message & _ & Htwo & Hlen & Hrows & Hother).
  - apply (bool_decide_unpack _). vm_compute. exact I.
  - intros r Hr. by_cases_on_member Hr. reflexivity.
  - intros r Hr. by_cases_on_member Hr. by eexists.
  - intros row Hrow. by_cases_on_member Hrow. reflexivity.
  - reflexivity.
  - exists w', message. split; [exact Htwo|]. split; [exact Hlen|]. split.
    + apply (Hrows 0%nat Examples.node_A (getProperties Examples.node) eq_refl eq_refl).
    + rewrite (Hother 0x21); [reflexivity|].
      apply (bool_decide_unpack _). vm_compute. exact I.
Defined.

End PassErrors.

(* ===================================================================== *)
(** ** Running the second pass again *)
(* ===================================================================== *)

Section Rehydrate.
Import JsonTwoPhase.

Lemma map_set_keys_present {V} (k : string) (v : V) (m : list (string * V)) :
  k ∈ m.*1 -> (map_set k v m).*1 = m.*1.
Proof.
  induction m as [|[k' v'] m IH]; intros Hk; [by apply elem_of_nil in Hk|].
  cbn [map_set]. destruct (String.eqb_spec k' k) as [->|Hne]; [done|].
  rewrite !fmap_cons. cbn [fst]. f_equal. apply IH.
  rewrite fmap_cons in Hk. apply elem_of_cons in Hk as [Heq|Hk]; [|done]. by cbn in Heq.
Qed.

Lemma map_set_keys_mono {V} (k k' : string) (v : V) (m : list (string * V)) :
  k' ∈ m.*1 -> k' ∈ (map_set k v m).*1.
Proof.
  induction m as [|[k0 v0] m IH]; intros Hk; [by apply elem_of_nil in Hk|].
  cbn [map_set]. rewrite fmap_cons in Hk. cbn [fst] in Hk.
  destruct (String.eqb_spec k0 k) as [->|Hne]; rewrite fmap_cons; cbn [fst].
  - done.
  - apply elem_of_cons in Hk as [->|Hk]; [left|right; by apply IH].
Qed.

Lemma map_set_key {V} (k : string) (v : V) (m : list (string * V)) :
  k ∈ (map_set k v m).*1.
Proof.
  induction m as [|[k0 v0] m IH]; cbn [map_set]; [left|].
  destruct (String.eqb_spec k0 k) as [->|Hne]; rewrite fmap_cons; cbn [fst]; [left|by right].
Qed.

Lemma map_set_same {V} (k : string) (v v' : V) (m : list (string * V)) :
  map_set k v (map_set k v' m) = map_set k v m.
Proof.
  induction m as [|[k0 v0] m IH]; cbn [map_set].
  - by rewrite String.eqb_refl.
  - destruct (String.eqb_spec k0 k) as [->|Hne]; cbn [map_set].
    + by rewrite String.eqb_refl.
    + destruct (String.eqb_spec k0 k); [done|]. by rewrite IH.
Qed.

Lemma map_set_comm {V} (k k' : string) (v v' : V) (m : list (string * V)) :
  k <> k' -> k ∈ m.*1 ->
  map_set k v (map_set k' v' m) = map_set k' v' (map_set k v m).
Proof.
  intros Hne. induction m as [|[k0 v0] m IH]; intros Hk; [by apply elem_of_nil in Hk|].
  rewrite fmap_cons in Hk. cbn [fst] in Hk. cbn [map_set].
  destruct (String.eqb_spec k0 k') as [E1|N1], (String.eqb_spec k0 k) as [E2|N2];
    cbn [map_set];
    repeat match goal with
           | |- context [String.eqb ?a ?b] => destruct (String.eqb_spec a b)
           end; try congruence.
  f_equal. apply IH. apply elem_of_cons in Hk as [?|?]; [congruence|done].
Qed.

Lemma map_set_app_present {V} (k : string) (v : V) (m extra : list (string * V)) :
  k ∈ m.*1 -> map_set k v (m ++ extra) = map_set k v m ++ extra.
Proof.
  induction m as [|[k0 v0] m IH]; intros Hk; [by apply elem_of_nil in Hk|].
  rewrite fmap_cons in Hk. cbn [fst] in Hk. cbn [map_set app].
  destruct (String.eqb_spec k0 k) as [->|Hne]; [done|]. cbn [app]. f_equal. apply IH.
  by apply elem_of_cons in Hk as [?|?]; [congruence|].
Qed.

Lemma map_set_last {V} (k : string) (v v' : V) (m : list (string * V)) :
  k ∉ m.*1 -> map_set k v (m ++ [(k, v')]) = m ++ [(k, v)].
Proof.
  induction m as [|[k0 v0] m IH]; intros Hk; cbn [map_set app].
  - by rewrite String.eqb_refl.
  - rewrite fmap_cons in Hk. cbn [fst] in Hk. apply not_elem_of_cons in Hk as [Hne Hk].
    destruct (String.eqb_spec k0 k); [congruence|]. f_equal. by apply IH.
Qed.

Lemma map_set_absent {V} (k : string) (v : V) (m : list (string * V)) :
  k ∉ m.*1 -> map_set k v m = m ++ [(k, v)].
Proof.
  induction m as [|[k0 v0] m IH]; intros Hk; cbn [map_set app]; [done|].
  rewrite fmap_cons in Hk. cbn [fst] in Hk. apply not_elem_of_cons in Hk as [Hne Hk].
  destruct (String.eqb_spec k0 k); [congruence|]. f_equal. by apply IH.
Qed.

Lemma assign_keys_mono (A : list (string * SqlValue)) : forall m k,
  k ∈ m.*1 -> k ∈ (foldl assign m A).*1.
Proof.
  induction A as [|[k1 v1] A IH]; intros m k Hk; [done|].
  cbn [foldl]. apply IH. unfold assign. by apply map_set_keys_mono.
Qed.

(** After the assignments every assigned column is there. *)
Lemma assign_keys (A : list (string * SqlValue)) : forall m k,
  k ∈ A.*1 -> k ∈ (foldl assign m A).*1.
Proof.
  induction A as [|[k1 v1] A IH]; intros m k Hk; [by apply elem_of_nil in Hk|].
  rewrite fmap_cons in Hk. cbn [fst] in Hk. cbn [foldl].
  apply elem_of_cons in Hk as [->|Hk]; [|by apply IH].
  apply assign_keys_mono. unfold assign. apply map_set_key.
Qed.

Lemma assign_app_present (A : list (string * SqlValue)) : forall m extra,
  (forall k, k ∈ A.*1 -> k ∈ m.*1) ->
  foldl assign (m ++ extra) A = foldl assign m A ++ extra.
Proof.
  induction A as [|[k1 v1] A IH]; intros m extra Hkeys; [done|].
  cbn [foldl]. unfold assign at 2 4. cbn [fst snd].
  rewrite map_set_app_present by (apply Hkeys; left).
  apply IH. intros k Hk. apply map_set_keys_mono, Hkeys. by right.
Qed.

(** A last assignment to a column that is there makes an earlier one to the
    same column void. *)
Lemma assign_then_set (A : list (string * SqlValue)) k v : forall m,
  k ∈ m.*1 ->
  map_set k v (foldl assign (map_set k v m) A) = map_set k v (foldl assign m A).
Proof.
  induction A as [|[k1 v1] A IH]; intros m Hk; cbn [foldl].
  - apply map_set_same.
  - unfold assign at 2 4. cbn [fst snd].
    destruct (decide (k1 = k)) as [->|Hne].
    + by rewrite map_set_same.
    + rewrite <- (map_set_comm k k1 v v1 m) by (first [congruence | done]).
      apply IH. by apply map_set_keys_mono.
Qed.

(** Assigning the same columns the same values again changes nothing. *)
Lemma assign_idempotent (A : list (string * SqlValue)) : forall m,
  foldl assign (foldl assign m A) A = foldl assign m A.
Proof.
  induction A as [|[k v] A IH] using rev_ind; intros m; [done|].
  rewrite !foldl_app. cbn [foldl]. unfold assign at 1 3 5. cbn [fst snd].
  set (m1 := foldl assign m A).
  destruct (decide (k ∈ m1.*1)) as [Hin|Hnin].
  - rewrite assign_then_set by done. unfold m1. by rewrite IH.
  - rewrite (map_set_absent k v m1) by done.
    rewrite assign_app_present by (intros k' Hk'; by apply assign_keys).
    unfold m1 at 1. rewrite IH. fold m1. by apply map_set_last.
Qed.

(** What [updateQuery] of a class does to a row, as assignments to the
    values of the row: those of the statement when its [WHERE] picks the
    row, none otherwise. *)
Lemma hydrate_row_assigns w cls props x row :
  hydrate_row w cls props x row
  = mkRow (row_id row) (row_class row)
      (foldl assign (row_values row)
         (if bool_decide
               (Integer (row_id row) = update_target w (bound_parameter (updateProps props)) x)
             && String.eqb (row_class row) cls
          then (fun p => (update_column p,
                          update_value w (bound_parameter (updateProps props)) x p))
                 <$> updateProps props
          else [])).
Proof.
  unfold hydrate_row, update_row. cbv zeta.
  destruct (bool_decide
              (Integer (row_id row) = update_target w (bound_parameter (updateProps props)) x)
            && String.eqb (row_class row) cls); [done|by destruct row].
Qed.

(** All the updates of a second pass, as assignments to one row. *)
Lemma hydrate_fold_assigns w queryMap rows : forall row,
  foldl (fun row r =>
           hydrate_row w (classFullName r)
             (default [] (queryMap_get queryMap (classFullName r))) (jsonString r) row)
    row rows
  = mkRow (row_id row) (row_class row)
      (foldl assign (row_values row)
         (flat_map
            (fun r =>
               let props := default [] (queryMap_get queryMap (classFullName r)) in
               if bool_decide
                    (Integer (row_id row)
                     = update_target w (bound_parameter (updateProps props)) (jsonString r))
                  && String.eqb (row_class row) (classFullName r)
               then (fun p => (update_column p,
                               update_value w (bound_parameter (updateProps props))
                                 (jsonString r) p))
                      <$> updateProps props
               else [])
            rows)).
Proof.
  induction rows as [|r rows IH]; intros row; [by destruct row|].
  cbn [foldl flat_map]. rewrite IH, hydrate_row_assigns. cbn [row_id row_class row_values].
  by rewrite foldl_app.
Qed.

(** The whole world after a second pass. *)
Lemma second_pass_world queryMap rows : forall w,
  (forall r, r ∈ rows -> is_Some (queryMap_get queryMap (classFullName r))) ->
  for_each rows (second_pass_row queryMap) w
  = (set_elements
       ((fun row =>
           foldl (fun row r =>
                    hydrate_row w (classFullName r)
                      (default [] (queryMap_get queryMap (classFullName r))) (jsonString r) row)
             row rows) <$> elements w) w,
     Ok tt).
Proof.
  induction rows as [|r rows IH]; intros w Hcls.
  - cbn [for_each foldl]. unfold ret. by rewrite list_fmap_id, set_elements_same.
  - destruct (Hcls r) as [props Hprops]; [left|].
    cbn [for_each]. rewrite (bind_Ok _ _ _ _ _ (second_pass_row_spec _ _ _ w Hprops)).
    rewrite IH by (intros r' Hr'; apply Hcls; by right).
    cbn [elements set_elements]. rewrite <- list_fmap_compose. unfold set_elements.
    cbn [elements next_instance_id codeSpecs element_remap codespec_remap].
    do 2 f_equal. apply list_fmap_ext. intros i row _. cbn [foldl compose]. by rewrite Hprops.
Qed.

(** X12 (the second pass can be run again).  Whatever the rows and the
    tables are, as long as the classes have their queries, a second pass
    ends well, and a further second pass over the same rows ends well too
    and leaves every row, every table and every counter as the first one
    left them. *)
Theorem second_pass_idempotent queryMap rows w :
  (forall r, r ∈ rows -> is_Some (queryMap_get queryMap (classFullName r))) ->
  exists w1,
    for_each rows (second_pass_row queryMap) w = (w1, Ok tt) /\
    for_each rows (second_pass_row queryMap) w1 = (w1, Ok tt).
Proof.
  intros Hcls. eexists. split; [by apply second_pass_world|].
  rewrite second_pass_world by done. f_equal.
  cbn [elements set_elements]. unfold set_elements.
  cbn [elements next_instance_id codeSpecs element_remap codespec_remap].
  f_equal. rewrite <- list_fmap_compose. apply list_fmap_ext. intros i row _. cbn [compose].
  set (w1 := mkWorld _ _ _ _ _).
  change (fun row r => hydrate_row w1 (classFullName r)
                         (default [] (queryMap_get queryMap (classFullName r)))
                         (jsonString r) row)
    with (fun row r => hydrate_row w (classFullName r)
                         (default [] (queryMap_get queryMap (classFullName r)))
                         (jsonString r) row).
  rewrite !hydrate_fold_assigns. cbn [row_id row_class row_values].
  by rewrite assign_idempotent.
Qed.

(** X12 at the example, from the world after both passes. *)
Lemma second_pass_idempotent_witness :
  exists w1,
    for_each [Examples.node_A; Examples.node_B]
      (second_pass_row (classFullNameAndProps [Examples.node]))
      (two_passes (classFullNameAndProps [Examples.node]) [Examples.node_A; Examples.node_B]
         Examples.two_pass_world).1 = (w1, Ok tt) /\
    for_each [Examples.node_A; Examples.node_B]
      (second_pass_row (classFullNameAndProps [Examples.node])) w1 = (w1, Ok tt).
Proof.
  apply (second_pass_idempotent (classFullNameAndProps [Examples.node])
           [Examples.node_A; Examples.node_B]).
  intros r Hr. by_cases_on_member Hr; by eexists.
Defined.

End Rehydrate.

(* ===================================================================== *)
(** ** The rules and the databases of a clone context *)
(* ===================================================================== *)

Section CloneContextRules.
Import CloneContext.

(** X13 (a rule is found until it is removed).  For an identifier other
    than [Id64.invalid]: after [remapElement] the lookup answers the target
    of the rule, the last rule for an identifier standing; after
    [removeElement] it answers [Id64.invalid]; the lookups of other
    identifiers are not changed by either; and the rules for elements and
    those for code specs do not touch each other. *)
Theorem remapElement_then_find ctx sourceId targetId :
  sourceId <> Id64_invalid ->
  findTargetElementId (remapElement sourceId targetId ctx) sourceId = targetId /\
  findTargetElementId (removeElement sourceId (remapElement sourceId targetId ctx)) sourceId
    = Id64_invalid /\
  (forall other, other <> sourceId ->
     findTargetElementId (remapElement sourceId targetId ctx) other
       = findTargetElementId ctx other /\
     findTargetElementId (removeElement sourceId ctx) other = findTargetElementId ctx other) /\
  (forall id,
     findTargetCodeSpecId (remapElement sourceId targetId ctx) id = findTargetCodeSpecId ctx id /\
     findTargetCodeSpecId (removeElement sourceId ctx) id = findTargetCodeSpecId ctx id /\
     findTargetElementId (remapCodeSpecIds sourceId targetId ctx) id
       = findTargetElementId ctx id).
Proof.
  intros Hvalid. unfold findTargetElementId, findTargetCodeSpecId.
  cbn [remapElement removeElement remapCodeSpecIds _elementRemaps _codeSpecRemaps].
  destruct (String.eqb_spec Id64_invalid sourceId) as [Heq|_]; [congruence|].
  split; [by rewrite lookup_insert_eq|]. split; [by rewrite lookup_delete_eq|]. split; [|done].
  intros other Hne. by rewrite lookup_insert_ne, lookup_delete_ne.
Qed.

(** X13 at the context of the examples. *)
Lemma remapElement_then_find_witness :
  findTargetElementId (remapElement "0x20" "0x30" Examples.clone_context) "0x20" = "0x30"%string /\
  findTargetElementId (removeElement "0x1" Examples.clone_context) "0x1" = "0"%string.
Proof.
  split.
  - apply (remapElement_then_find Examples.clone_context "0x20" "0x30"). discriminate.
  - reflexivity.
Defined.

End CloneContextRules.

Section CloneContextImport.
Import CloneContextDbs.
Context {S CodeSpec : Type}.
Context (getById : nat -> string -> M S CodeSpec).
Context (insert : nat -> CodeSpec -> M S unit).
Context (delete_id : CodeSpec -> CodeSpec).


End CloneContextImport.
